(** * The element tree of nicegui: [nicegui/element.py]

    A shallow embedding of class [Element] and proofs about its attribute
    merging ([classes], [style], [props]), its serialisation ([to_dict]) and
    its update propagation ([update]).

    Conventions of the embedding.
    - A Python [str] is a [string] whose characters are code points below
      256; [None] is [None] of an [option string].
    - A Python object reference to an element is the element's id:
      [__init__] registers every element under its own id in
      [client.elements], and ids are never reused. The one slot object
      that is referred to from outside [slots], [self.default_slot], is
      kept apart from the slots of [slots] as soon as it is no longer one
      of them.
    - A [dict] whose iteration order is observed by the code ([slots], the
      result of a parser, the dictionaries built by [to_dict]) is an
      insertion-ordered association list with pairwise distinct keys; a
      [dict] used only as a finite map ([_style], [_props],
      [client.elements]) is a [gmap].
    - A method is a function from the program state to an outcome and the
      state it leaves behind, so that the mutations made before an exception
      is raised stay visible. *)

From stdpp Require Import gmap strings list fin_maps relations pretty.
From Stdlib Require Import Ascii.

#[local] Set Warnings "-clear-no-such-hyp,-register-all".

(** ** Strings *)

Module Str.

(** [str.isspace] on one character (code points below 256). *)
Definition isspace (c : ascii) : bool :=
  let n := nat_of_ascii c in
  (Nat.leb 9 n && Nat.leb n 13) || (Nat.leb 28 n && Nat.leb n 32)
  || Nat.eqb n 133 || Nat.eqb n 160.

Definition is_empty (s : string) : bool :=
  match s with EmptyString => true | String _ _ => false end.

(** [s + c] for a single character [c]. *)
Definition snoc (s : string) (c : ascii) : string := s +:+ String c "".

(** [str.split()] without arguments: the maximal runs of characters that
    are not whitespace. [cur] is the run read so far. *)
Fixpoint split_go (cur : string) (s : string) : list string :=
  match s with
  | EmptyString => if is_empty cur then [] else [cur]
  | String c s' =>
      if isspace c
      then (if is_empty cur then split_go "" s' else cur :: split_go "" s')
      else split_go (snoc cur c) s'
  end.

Definition split (s : string) : list string := split_go "" s.

(** [str.split(sep)] for a separator of one character: empty pieces are
    kept, and the result is never empty. *)
Fixpoint split_on_go (sep : ascii) (cur : string) (s : string) : list string :=
  match s with
  | EmptyString => [cur]
  | String c s' =>
      if decide (c = sep)
      then cur :: split_on_go sep "" s'
      else split_on_go sep (snoc cur c) s'
  end.

Definition split_on (sep : ascii) (s : string) : list string :=
  split_on_go sep "" s.

Fixpoint lstrip (p : ascii → bool) (s : string) : string :=
  match s with
  | EmptyString => ""
  | String c s' => if p c then lstrip p s' else s
  end.

Fixpoint rstrip (p : ascii → bool) (s : string) : string :=
  match s with
  | EmptyString => ""
  | String c s' =>
      let r := rstrip p s' in
      if is_empty r && p c then "" else String c r
  end.

(** [str.strip(chars)], the characters to strip given as a predicate. *)
Definition strip_chars (p : ascii → bool) (s : string) : string :=
  rstrip p (lstrip p s).

(** [str.strip()]. *)
Definition strip (s : string) : string := strip_chars isspace s.

(** [s or ''] for an optional string. *)
Definition or_empty (s : option string) : string := default "" s.

(** Truth value of an optional string: [None] and [''] are false. *)
Definition truthy (s : option string) : bool :=
  match s with
  | None => false
  | Some t => negb (is_empty t)
  end.

End Str.

(** ** Insertion-ordered dictionaries *)

Module Dict.
Section dict.
Context {K V : Type} `{EqDecision K}.

(** [d.get(k)]. *)
Fixpoint get (k : K) (d : list (K * V)) : option V :=
  match d with
  | [] => None
  | (k', v) :: d' => if decide (k = k') then Some v else get k d'
  end.

(** [d[k] = v]: a present key keeps its position, a new key goes last. *)
Fixpoint set (k : K) (v : V) (d : list (K * V)) : list (K * V) :=
  match d with
  | [] => [(k, v)]
  | (k', v') :: d' =>
      if decide (k = k') then (k, v) :: d' else (k', v') :: set k v d'
  end.

(** [dict(pairs)], and a dictionary comprehension over [pairs]. *)
Definition of_pairs (l : list (K * V)) : list (K * V) :=
  foldl (λ d kv, set kv.1 kv.2 d) [] l.

Definition keys (d : list (K * V)) : list K := d.*1.

End dict.
End Dict.

(** ** Exceptions and the state of the program *)

Inductive exn :=
  | KeyError (key : string)       (* a missing key of a style dictionary *)
  | KeyErrorId (id : nat)         (* a missing key of [client.elements] *)
  | ValueError                    (* a malformed attribute string *)
  | IndexError                    (* [pop] from an empty list *)
  | RecursionError.               (* recursion without end *)

Inductive outcome (A : Type) :=
  | Return (a : A)
  | Raise (e : exn).
Arguments Return {A} a.
Arguments Raise {A} e.

(** ** The style mini-language: [parse_style] of [Element.style] *)

(** [dict(pairs)] where every element of [pairs] must be a sequence of
    length two. *)
Fixpoint pairs_of_words (l : list (list string)) : outcome (list (string * string)) :=
  match l with
  | [] => Return []
  | [k; v] :: l' =>
      match pairs_of_words l' with
      | Return r => Return ((k, v) :: r)
      | Raise e => Raise e
      end
  | _ :: _ => Raise ValueError
  end.

Definition semicolon_or_blank (c : ascii) : bool :=
  bool_decide (c = ";"%char) || bool_decide (c = " "%char).

Definition parse_style (text : option string) : outcome (list (string * string)) :=
  if Str.truthy text then
    let parts := Str.split_on ";" (Str.strip_chars semicolon_or_blank (Str.or_empty text)) in
    match pairs_of_words (map (λ part, map Str.strip (Str.split_on ":" part)) parts) with
    | Return ps => Return (Dict.of_pairs ps)
    | Raise e => Raise e
    end
  else Return [].


(** ** The data model *)

(** A value of [_props]: a string, or the flag [True] of a bare key. *)
Inductive pvalue :=
  | PStr (s : string)
  | PTrue.

Global Instance pvalue_eq_dec : EqDecision pvalue.
Proof. solve_decision. Defined.

Module Slot.
(** Modelled from the spec: class [Slot] of [nicegui/slot.py], built by
    [Slot(self, name)] in [add_slot]. A slot belongs to one element, its
    [parent], has a [name], and holds the ordered references of its
    [children]. *)
Record t := mk {
  parent : nat;
  name : string;
  children : list nat;
}.
End Slot.

Module EventListener.
(** Modelled from the spec: class [EventListener] of
    [nicegui/event_listener.py], built in [Element.on]. The [handler] is a
    reference to a callable. *)
Record t := mk {
  element_id : nat;
  type : string;
  args : list string;
  handler : nat;
}.
End EventListener.

(** The object bound to [self.default_slot]. [__init__] binds it to the
    slot it stores in [self.slots] under ['default'], and nothing binds it
    again: it is that slot of [self.slots] ([InSlots]) until
    [add_slot('default')] stores another slot object there, and a slot
    object of its own ([Detached]) from then on. *)
Inductive default_slot_object :=
  | InSlots
  | Detached (s : Slot.t).

Module Element.
(** The attributes set by [Element.__init__]. The attribute [id] is the key
    of the element in [client.elements], and [client] is the one client of
    the state. *)
Record t := mk {
  tag : string;
  _classes : list string;
  _style : gmap string string;
  _props : gmap string pvalue;
  _event_listeners : list EventListener.t;
  _text : string;
  slots : list (string * Slot.t);
  visible : bool;
  default_slot : default_slot_object;
}.

Definition with_classes (c : list string) (e : t) : t :=
  mk (tag e) c (_style e) (_props e) (_event_listeners e) (_text e) (slots e)
    (visible e) (default_slot e).

Definition with_style (s : gmap string string) (e : t) : t :=
  mk (tag e) (_classes e) s (_props e) (_event_listeners e) (_text e) (slots e)
    (visible e) (default_slot e).

Definition with_props (p : gmap string pvalue) (e : t) : t :=
  mk (tag e) (_classes e) (_style e) p (_event_listeners e) (_text e) (slots e)
    (visible e) (default_slot e).

Definition with_event_listeners (l : list EventListener.t) (e : t) : t :=
  mk (tag e) (_classes e) (_style e) (_props e) l (_text e) (slots e)
    (visible e) (default_slot e).

Definition with_slots (s : list (string * Slot.t)) (e : t) : t :=
  mk (tag e) (_classes e) (_style e) (_props e) (_event_listeners e) (_text e) s
    (visible e) (default_slot e).

Definition with_default_slot (d : default_slot_object) (e : t) : t :=
  mk (tag e) (_classes e) (_style e) (_props e) (_event_listeners e) (_text e)
    (slots e) (visible e) d.
End Element.

Module Wire.
(** The dictionary returned by [Element.to_dict]. *)
Record t := mk {
  id : nat;
  tag : string;
  class : list string;
  style : gmap string string;
  props : gmap string pvalue;
  events : list (string * list string);
  text : string;
  slots : list (string * list nat);
}.
End Wire.

Module Emit.
(** One call [globals.sio.emit(event, {'elements': elements}, room=room)]
    handed to [create_task]. *)
Record t := mk {
  event : string;
  elements : list (nat * Wire.t);
  room : string;
}.
End Emit.

Module Client.
(** Modelled from the spec: the client on top of [globals.client_stack], as
    far as [Element] uses it; the state holds this one client. The methods
    of [Element] push no slot but [self.default_slot] on the slot stack,
    so an entry of the stack is the id of the element whose
    [default_slot] object it is. *)
Record t := mk {
  id : nat;
  next_element_id : nat;
  elements : gmap nat Element.t;
  slot_stack : list nat;
}.
End Client.

(** The state of the program: the client of the elements, whether
    [globals.loop] is set, the tasks created so far, oldest first, and how
    deep the interpreter lets [collect_ids] call itself below its first
    call before it raises [RecursionError] -- what
    [sys.getrecursionlimit()] leaves when the frames in use are taken off.
    The other calls that [update] makes nest to a fixed depth and are
    taken to fit. *)
Record state := mkState {
  client : Client.t;
  loop : bool;
  emitted : list Emit.t;
  recursion_depth : nat;
}.

Definition elems (st : state) : gmap nat Element.t := Client.elements (client st).

Definition with_elements (els : gmap nat Element.t) (st : state) : state :=
  mkState
    (Client.mk (Client.id (client st)) (Client.next_element_id (client st)) els
       (Client.slot_stack (client st)))
    (loop st) (emitted st) (recursion_depth st).

Definition with_emitted (l : list Emit.t) (st : state) : state :=
  mkState (client st) (loop st) l (recursion_depth st).

(** ** Methods as state transformers *)

Definition M (A : Type) : Type := state → outcome A * state.

Definition ret {A} (a : A) : M A := λ st, (Return a, st).

Definition raise {A} (e : exn) : M A := λ st, (Raise e, st).

Definition bind {A B} (m : M A) (f : A → M B) : M B := λ st,
  match m st with
  | (Return a, st') => f a st'
  | (Raise e, st') => (Raise e, st')
  end.

Notation "'let*' x ':=' m 'in' k" := (bind m (λ x, k))
  (at level 10, x name, m at level 100, k at level 200, only parsing).

Definition lift {A} (o : outcome A) : M A := λ st, (o, st).

(** A [for] loop over [l] that threads the value [a] through its body. *)
Fixpoint for_each {A B} (f : A → B → M A) (a : A) (l : list B) : M A :=
  match l with
  | [] => ret a
  | x :: l' => bind (f a x) (λ a', for_each f a' l')
  end.

(** Reading the object behind the reference [self], and writing it back. *)
Definition get_element (self : nat) : M Element.t := λ st,
  match elems st !! self with
  | Some e => (Return e, st)
  | None => (Raise (KeyErrorId self), st)
  end.

Definition put_element (self : nat) (e : Element.t) : M unit := λ st,
  (Return (), with_elements (<[self := e]> (elems st)) st).

(** ** [Element.to_dict] *)

(** The loop over [self._event_listeners]:
    [events[listener.type] = events.get(listener.type, []) + listener.args]. *)
Definition merge_listener (events : list (string * list string))
    (listener : EventListener.t) : list (string * list string) :=
  Dict.set (EventListener.type listener)
    (default [] (Dict.get (EventListener.type listener) events)
       ++ EventListener.args listener)
    events.

Definition to_dict (self : nat) (e : Element.t) : Wire.t :=
  let events := foldl merge_listener [] (Element._event_listeners e) in
  Wire.mk self (Element.tag e) (Element._classes e) (Element._style e)
    (Element._props e) events (Element._text e)
    (Dict.of_pairs
       (map (λ item, (item.1, Slot.children item.2)) (Element.slots e))).

(** ** [Element.update] *)

(** The two loops of [collect_ids], over the slots of an element and over
    the children of each slot; [collect] is the recursive call. *)
Definition visit_child (collect : nat → list nat → outcome (list nat))
    (acc : outcome (list nat)) (child : nat) : outcome (list nat) :=
  match acc with
  | Return ids => collect child ids
  | Raise x => Raise x
  end.

Definition visit_slots (collect : nat → list nat → outcome (list nat))
    (slots : list (string * Slot.t)) (ids : list nat) : outcome (list nat) :=
  foldl (λ acc slot, foldl (visit_child collect) acc (Slot.children slot.2))
    (Return ids) slots.

(** [collect_ids] of [Element.update], appending to [ids]; [depth] is the
    number of calls of [collect_ids] that the interpreter still lets nest.
    A call that would nest deeper raises [RecursionError], on a tree that
    is too deep as on element references that run in a circle. *)
Fixpoint collect_ids (depth : nat) (els : gmap nat Element.t) (id : nat)
    (ids : list nat) : outcome (list nat) :=
  match depth with
  | 0 => Raise RecursionError
  | S depth' =>
      match els !! id with
      | None => Raise (KeyErrorId id)
      | Some e =>
          match visit_slots (collect_ids depth' els) (Element.slots e) ids with
          | Return ids' => Return (ids' ++ [id])
          | Raise x => Raise x
          end
      end
  end.

(** [{id: self.client.elements[id].to_dict() for id in ids}]. *)
Fixpoint serialize (els : gmap nat Element.t) (ids : list nat)
    (acc : list (nat * Wire.t)) : outcome (list (nat * Wire.t)) :=
  match ids with
  | [] => Return acc
  | id :: ids' =>
      match els !! id with
      | None => Raise (KeyErrorId id)
      | Some e => serialize els ids' (Dict.set id (to_dict id e) acc)
      end
  end.

Definition update (self : nat) : M unit := λ st,
  if negb (loop st) then (Return (), st)
  else
    match collect_ids (S (recursion_depth st)) (elems st) self [] with
    | Raise x => (Raise x, st)
    | Return ids =>
        match serialize (elems st) ids [] with
        | Raise x => (Raise x, st)
        | Return elements =>
            (Return (),
             with_emitted
               (emitted st
                  ++ [Emit.mk "update" elements (pretty (Client.id (client st)))])
               st)
        end
    end.

(** ** [Element.classes] *)

(** [list(dict.fromkeys(class_list))]. *)
Definition fromkeys (l : list string) : list string :=
  Dict.keys (Dict.of_pairs (map (λ c, (c, ())) l)).

Definition classes (self : nat) (add remove replace : option string) : M nat :=
  let* e := get_element self in
  let class_list :=
    match replace with None => Element._classes e | Some _ => [] end in
  let class_list :=
    filter (λ c, c ∉ Str.split (Str.or_empty remove)) class_list in
  let class_list := class_list ++ Str.split (Str.or_empty add) in
  let class_list := class_list ++ Str.split (Str.or_empty replace) in
  let new_classes := fromkeys class_list in
  if decide (Element._classes e ≠ new_classes) then
    let* _ := put_element self (Element.with_classes new_classes e) in
    let* _ := update self in
    ret self
  else ret self.

(** ** [Element.on_visibility_change] *)

(** [l.remove(x)] for an [x] that occurs in [l]: the first occurrence goes. *)
Fixpoint list_remove (x : string) (l : list string) : list string :=
  match l with
  | [] => []
  | y :: l' => if decide (x = y) then l' else y :: list_remove x l'
  end.

Definition on_visibility_change (self : nat) (visible : bool) : M unit :=
  let* e := get_element self in
  let* _ :=
    if visible && bool_decide ("hidden" ∈ Element._classes e) then
      let* _ := put_element self
        (Element.with_classes (list_remove "hidden" (Element._classes e)) e) in
      update self
    else ret () in
  let* e := get_element self in
  if negb visible && bool_decide ("hidden" ∉ Element._classes e) then
    let* _ := put_element self
      (Element.with_classes (Element._classes e ++ ["hidden"]) e) in
    update self
  else ret ().

(** ** [Element.style] *)

(** The object bound to [style_dict]: the dictionary held in [self._style]
    itself when [replace] is [None], so that every change of [style_dict] is
    a change of [self._style]; a dictionary of its own otherwise. *)
Inductive style_dict :=
  | Live
  | Own (d : gmap string string).

(** [del style_dict[key]]. *)
Definition style_del (self : nat) (sd : style_dict) (key : string) : M style_dict :=
  match sd with
  | Live =>
      let* e := get_element self in
      match Element._style e !! key with
      | None => raise (KeyError key)
      | Some _ =>
          let* _ := put_element self
            (Element.with_style (delete key (Element._style e)) e) in
          ret Live
      end
  | Own d =>
      match d !! key with
      | None => raise (KeyError key)
      | Some _ => ret (Own (delete key d))
      end
  end.

(** [d.update(other)] on a finite map. *)
Definition overlay {V} (other : list (string * V)) (d : gmap string V) : gmap string V :=
  foldl (λ m kv, <[kv.1 := kv.2]> m) d other.

(** [style_dict.update(other)]. *)
Definition style_update (self : nat) (sd : style_dict)
    (other : list (string * string)) : M style_dict :=
  match sd with
  | Live =>
      let* e := get_element self in
      let* _ := put_element self
        (Element.with_style (overlay other (Element._style e)) e) in
      ret Live
  | Own d => ret (Own (overlay other d))
  end.

Definition style (self : nat) (add remove replace : option string) : M nat :=
  let sd := match replace with None => Live | Some _ => Own ∅ end in
  let* removed := lift (parse_style remove) in
  let* sd := for_each (style_del self) sd (Dict.keys removed) in
  let* added := lift (parse_style add) in
  let* sd := style_update self sd added in
  let* replaced := lift (parse_style replace) in
  let* sd := style_update self sd replaced in
  let* e := get_element self in
  match sd with
  | Live => ret self      (* [self._style != style_dict] on one object *)
  | Own d =>
      if decide (Element._style e ≠ d) then
        let* _ := put_element self (Element.with_style d e) in
        let* _ := update self in
        ret self
      else ret self
  end.

(** ** [Element.props] *)

(** [word.split('=', 1)] for a [word] that contains ['=']. *)
Fixpoint split_eq (key : string) (word : string) : option (string * string) :=
  match word with
  | EmptyString => None
  | String c w =>
      if decide (c = "="%char) then Some (key, w) else split_eq (Str.snoc key c) w
  end.

Section props.

(** The words that [shlex.shlex(text, posix=True)] yields for [text] with
    [whitespace = ' '] and [wordchars] extended by ['=-.%']; the lexer of
    the Python library raises [ValueError] for a quotation that is not
    closed. *)
Variable lexer : string → outcome (list string).

Definition parse_word (word : string) : string * pvalue :=
  match split_eq "" word with
  | Some (k, v) => (k, PStr v)
  | None => (word, PTrue)
  end.

Definition parse_props (text : option string) : outcome (list (string * pvalue)) :=
  if Str.truthy text then
    match lexer (Str.or_empty text) with
    | Return words => Return (Dict.of_pairs (map parse_word words))
    | Raise e => Raise e
    end
  else Return [].

(** The body of the loop over [parse_props(remove)]. *)
Definition props_remove (self : nat) (needs_update : bool) (key : string) : M bool :=
  let* e := get_element self in
  match Element._props e !! key with
  | Some _ =>
      let* _ := put_element self
        (Element.with_props (delete key (Element._props e)) e) in
      ret true
  | None => ret needs_update
  end.

(** The body of the loop over [parse_props(add).items()]. *)
Definition props_add (self : nat) (needs_update : bool) (item : string * pvalue) : M bool :=
  let* e := get_element self in
  if decide (Element._props e !! item.1 ≠ Some item.2) then
    let* _ := put_element self
      (Element.with_props (<[item.1 := item.2]> (Element._props e)) e) in
    ret true
  else ret needs_update.

Definition props (self : nat) (add remove : option string) : M nat :=
  let* removed := lift (parse_props remove) in
  let* needs_update := for_each (props_remove self) false (Dict.keys removed) in
  let* added := lift (parse_props add) in
  let* needs_update := for_each (props_add self) needs_update added in
  if needs_update then
    let* _ := update self in
    ret self
  else ret self.

End props.

(** ** The lexer of [parse_props] *)

(** The words that iterating over [shlex.shlex(text, posix=True)] yields
    once [parse_props] has set [whitespace = ' '] and added ['=-.%'] to
    [wordchars], after [read_token] and [get_token] of the Python library
    ([Lib/shlex.py]); a character stands for a code point below 256. *)
Module Shlex.

Definition space : ascii := ascii_of_nat 32.
Definition newline : ascii := ascii_of_nat 10.
Definition double_quote : ascii := ascii_of_nat 34.
Definition hash : ascii := ascii_of_nat 35.
Definition single_quote : ascii := ascii_of_nat 39.
Definition backslash : ascii := ascii_of_nat 92.

Definition between (lo hi : nat) (c : ascii) : bool :=
  Nat.leb lo (nat_of_ascii c) && Nat.leb (nat_of_ascii c) hi.

(** [lexer.whitespace], [commenters], [escape], [quotes], [escapedquotes]
    and [wordchars]: letters, digits, the underscore, the letters of
    Latin-1, and ['=-.%']. *)
Definition in_whitespace (c : ascii) : bool := bool_decide (c = space).
Definition in_commenters (c : ascii) : bool := bool_decide (c = hash).
Definition in_escape (c : ascii) : bool := bool_decide (c = backslash).
Definition in_quotes (c : ascii) : bool :=
  bool_decide (c = single_quote) || bool_decide (c = double_quote).
Definition in_escapedquotes (c : ascii) : bool := bool_decide (c = double_quote).
Definition in_wordchars (c : ascii) : bool :=
  between 97 122 c || between 65 90 c || between 48 57 c
  || bool_decide (c = ascii_of_nat 95)
  || (between 192 255 c
      && negb (bool_decide (c = ascii_of_nat 215))
      && negb (bool_decide (c = ascii_of_nat 247)))
  || bool_decide (c = ascii_of_nat 61) || bool_decide (c = ascii_of_nat 45)
  || bool_decide (c = ascii_of_nat 46) || bool_decide (c = ascii_of_nat 37).

(** [self.state]: [' '], ['a'], a quote, or the escape character, which
    comes with [escapedstate] -- ['a'], here [None], or a quote. [Comment]
    is the call of [readline] that drops the rest of a line; the state
    after it is [' ']. *)
Inductive lexstate :=
  | Blank
  | Word
  | Quote (q : ascii)
  | Escape (escapedstate : option ascii)
  | Comment.

(** [self.token or (self.posix and quoted)]. *)
Definition has_token (token : string) (quoted : bool) : bool :=
  negb (bool_decide (token = "")) || quoted.

(** [break] with a token: [read_token] returns it, [get_token] then hands
    out what was pushed back, and the iteration goes on. *)
Definition emit (token : string) (pushback : list string)
    (rest : outcome (list string)) : outcome (list string) :=
  match rest with
  | Return words => Return (token :: pushback ++ words)
  | Raise x => Raise x
  end.

(** [break] at the end of the input: a token that is empty and not quoted
    is [None] and ends the iteration; what was pushed back is handed out
    after a token only. *)
Definition at_eof (token : string) (quoted : bool) (pushback : list string) :
    outcome (list string) :=
  if has_token token quoted then Return (token :: pushback) else Return [].

(** The loop of [read_token], over the characters left of the input, and
    the iteration over the tokens. *)
Fixpoint read (state : lexstate) (token : string) (quoted : bool)
    (pushback : list string) (input : string) : outcome (list string) :=
  match input with
  | EmptyString =>
      match state with
      | Blank | Word | Comment => at_eof token quoted pushback
      | Quote _ | Escape _ => Raise ValueError
      end
  | String c rest =>
      match state with
      | Blank =>
          if in_whitespace c then
            if has_token token quoted then
              emit token pushback (read Blank "" false [] rest)
            else read Blank token quoted pushback rest
          else if in_commenters c then read Comment token quoted pushback rest
          else if in_escape c then read (Escape None) token quoted pushback rest
          else if in_wordchars c then read Word (String c "") quoted pushback rest
          else if in_quotes c then read (Quote c) token quoted pushback rest
          else emit (String c "") pushback (read Blank "" false [] rest)
      | Quote q =>
          if bool_decide (c = q) then read Word token true pushback rest
          else if in_escape c && in_escapedquotes q then
            read (Escape (Some q)) token true pushback rest
          else read (Quote q) (Str.snoc token c) true pushback rest
      | Escape escapedstate =>
          match escapedstate with
          | Some q =>
              let token' :=
                if negb (in_escape c) && negb (bool_decide (c = q))
                then Str.snoc token backslash else token in
              read (Quote q) (Str.snoc token' c) quoted pushback rest
          | None => read Word (Str.snoc token c) quoted pushback rest
          end
      | Word =>
          if in_whitespace c then
            if has_token token quoted then
              emit token pushback (read Blank "" false [] rest)
            else read Blank token quoted pushback rest
          else if in_commenters c then
            if has_token token quoted then
              emit token pushback (read Comment "" false [] rest)
            else read Comment token quoted pushback rest
          else if in_quotes c then read (Quote c) token quoted pushback rest
          else if in_escape c then read (Escape None) token quoted pushback rest
          else if in_wordchars c then
            read Word (Str.snoc token c) quoted pushback rest
          else if has_token token quoted then
            emit token (String c "" :: pushback) (read Blank "" false [] rest)
          else read Blank token quoted (String c "" :: pushback) rest
      | Comment =>
          if bool_decide (c = newline) then read Blank token quoted pushback rest
          else read Comment token quoted pushback rest
      end
  end.

Definition words (text : string) : outcome (list string) :=
  read Blank "" false [] text.

End Shlex.

(** [parse_props] and [props] with the lexer of the Python library. *)
Definition shlex_words : string → outcome (list string) := Shlex.words.

(** ** Construction: [add_slot], [__init__], [__enter__], [__exit__], [on] *)

(** What [self.default_slot] is after [self.slots[name] = Slot(self, name)]:
    the slot object that was stored under ['default'] is no longer in
    [self.slots] once another one is stored there, and [self.default_slot]
    is still bound to it. *)
Definition default_slot_after (name : string) (e : Element.t) : default_slot_object :=
  match Element.default_slot e with
  | InSlots =>
      if decide (name = "default") then
        match Dict.get "default" (Element.slots e) with
        | Some s => Detached s
        | None => InSlots
        end
      else InSlots
  | Detached s => Detached s
  end.

(** [add_slot]; the slot it returns is the one now stored under [name]. *)
Definition add_slot (self : nat) (name : string) : M (nat * string) :=
  let* e := get_element self in
  let* _ := put_element self
    (Element.with_default_slot (default_slot_after name e)
       (Element.with_slots
          (Dict.set name (Slot.mk self name []) (Element.slots e)) e)) in
  ret (self, name).

(** The slot [s] with one more child. *)
Definition slot_with_child (s : Slot.t) (child : nat) : Slot.t :=
  Slot.mk (Slot.parent s) (Slot.name s) (Slot.children s ++ [child]).

(** [parent.default_slot.children.append(child)] on the element [parent]:
    the append is seen in [parent.slots] only as long as the object
    [default_slot] is the slot stored there. *)
Definition attached (child : nat) (parent : Element.t) : Element.t :=
  match Element.default_slot parent with
  | InSlots =>
      match Dict.get "default" (Element.slots parent) with
      | Some s =>
          Element.with_slots
            (Dict.set "default" (slot_with_child s child) (Element.slots parent))
            parent
      | None => parent
      end
  | Detached s =>
      Element.with_default_slot (Detached (slot_with_child s child)) parent
  end.

(** [slot.children.append(child)] for the entry [slot] of the slot stack,
    the [default_slot] object of the element [slot]. *)
Definition slot_append (slot : nat) (child : nat) : M unit :=
  let* parent := get_element slot in
  put_element slot (attached child parent).

Definition with_client (c : Client.t) (st : state) : state :=
  mkState c (loop st) (emitted st) (recursion_depth st).

Definition __init__ (tag : string) : M nat := λ st,
  let c := client st in
  let self := Client.next_element_id c in
  let e :=
    Element.mk tag [] ∅ ∅ [] "" [("default", Slot.mk self "default" [])] true
      InSlots in
  let c' := Client.mk (Client.id c) (S self) (<[self := e]> (Client.elements c))
              (Client.slot_stack c) in
  match last (Client.slot_stack c) with
  | Some slot =>
      match slot_append slot self (with_client c' st) with
      | (Return _, st') => (Return self, st')
      | (Raise x, st') => (Raise x, st')
      end
  | None => (Return self, with_client c' st)
  end.

(** [self.client.slot_stack.append(self.default_slot)]. *)
Definition __enter__ (self : nat) : M nat := λ st,
  let c := client st in
  (Return self,
   with_client
     (Client.mk (Client.id c) (Client.next_element_id c) (Client.elements c)
        (Client.slot_stack c ++ [self]))
     st).

Definition __exit__ (self : nat) : M unit := λ st,
  let c := client st in
  match Client.slot_stack c with
  | [] => (Raise IndexError, st)
  | _ :: _ =>
      (Return (),
       with_client
         (Client.mk (Client.id c) (Client.next_element_id c) (Client.elements c)
            (removelast (Client.slot_stack c)))
         st)
  end.

Definition on (self : nat) (type : string) (handler : option nat)
    (args : list string) : M nat :=
  match handler with
  | Some h =>
      let* e := get_element self in
      let* _ := put_element self
        (Element.with_event_listeners
           (Element._event_listeners e ++ [EventListener.mk self type args h]) e) in
      ret self
  | None => ret self
  end.

(** ** Notions used to state the properties *)

(** The list with every element kept at its first occurrence only: an
    element is dropped when it has been [seen] before. *)
Fixpoint dedup_from (seen : list string) (l : list string) : list string :=
  match l with
  | [] => []
  | x :: l' =>
      if decide (x ∈ seen) then dedup_from seen l'
      else x :: dedup_from (x :: seen) l'
  end.

Definition dedup (l : list string) : list string := dedup_from [] l.

(** Removal of the keys [ks] from a finite map; an absent key is skipped. *)
Definition del_keys {V} (ks : list string) (d : gmap string V) : gmap string V :=
  foldl (λ m k, delete k m) d ks.

(** The references held by the slots of an element, in the order of the
    slots and of their children. *)
Definition child_ids (e : Element.t) : list nat :=
  concat (map (λ slot, Slot.children slot.2) (Element.slots e)).

(** [child_of els a c]: [c] is a child in one of the slots of [a]. *)
Definition child_of (els : gmap nat Element.t) (a c : nat) : Prop :=
  ∃ e, els !! a = Some e ∧ c ∈ child_ids e.

(** Finite trees of element ids. *)
Inductive tree := Node (root : nat) (kids : list tree).

Definition root (t : tree) : nat := match t with Node i _ => i end.

Definition kids (t : tree) : list tree := match t with Node _ ks => ks end.

(** All ids of a tree, the root first. *)
Fixpoint nodes (t : tree) : list nat :=
  match t with
  | Node i ks => i :: concat (map nodes ks)
  end.

(** All ids of a tree, every node after the nodes below it. *)
Fixpoint postorder (t : tree) : list nat :=
  match t with
  | Node i ks => concat (map postorder ks) ++ [i]
  end.

(** The ids below the root. *)
Definition descendants (t : tree) : list nat := concat (map nodes (kids t)).

(** All subtrees of a tree, the tree itself first. *)
Fixpoint subtrees (t : tree) : list tree :=
  match t with
  | Node i ks => Node i ks :: concat (map subtrees ks)
  end.

Fixpoint height (t : tree) : nat :=
  match t with
  | Node _ ks => S (foldr Nat.max 0 (map height ks))
  end.

(** [shaped els t]: the elements of [els] reachable from the root of [t]
    through their slots are laid out as [t] says. *)
Inductive shaped (els : gmap nat Element.t) : tree → Prop :=
  | shaped_node i e ks :
      els !! i = Some e →
      map root ks = child_ids e →
      Forall (shaped els) ks →
      shaped els (Node i ks).

(** The slots below [self] form the tree [t]: no element is met twice. *)
Definition owned_tree (els : gmap nat Element.t) (self : nat) (t : tree) : Prop :=
  root t = self ∧ shaped els t ∧ NoDup (nodes t).

(** The slots of every element are a dictionary: no name occurs twice. *)
Definition slots_are_dicts (els : gmap nat Element.t) : Prop :=
  ∀ i e, els !! i = Some e → NoDup (Dict.keys (Element.slots e)).

(** The serialisations of the elements behind [ids], in this order. *)
Definition wires (els : gmap nat Element.t) (ids : list nat) : list (nat * Wire.t) :=
  omap (λ i, (λ e, (i, to_dict i e)) <$> els !! i) ids.

(** The task [update] creates for the ids [ids]. *)
Definition update_task (st : state) (ids : list nat) : Emit.t :=
  Emit.mk "update" (wires (elems st) ids) (pretty (Client.id (client st))).

(** The state after [update] on an element whose slots form the tree [t]:
    with a loop, one more task, which carries the tree in postorder. *)
Definition updated (t : tree) (st : state) : state :=
  if loop st
  then with_emitted (emitted st ++ [update_task st (postorder t)]) st
  else st.

(** [set_element self e st]: the state [st] with the object behind [self]
    replaced by [e]. *)
Definition set_element (self : nat) (e : Element.t) (st : state) : state :=
  with_elements (<[self := e]> (elems st)) st.

(** The class list the specification of [classes] describes: the current
    list, or the empty list if [replace] is given, without the tokens of
    [remove], then the tokens of [add], then the tokens of [replace], every
    token kept at its first occurrence. *)
Definition merged_classes (current : list string)
    (add remove replace : option string) : list string :=
  dedup
    (filter (λ c, c ∉ Str.split (Str.or_empty remove))
       (match replace with None => current | Some _ => [] end)
     ++ Str.split (Str.or_empty add) ++ Str.split (Str.or_empty replace)).

(** The argument lists of the listeners of type [ty], one after the other
    in the order of registration. *)
Definition args_of_type (ty : string) (listeners : list EventListener.t) : list string :=
  concat (map EventListener.args
            (filter (λ l, EventListener.type l = ty) listeners)).

(** The number of tasks created on the way from [st] to [st']. *)
Definition dispatches (st st' : state) : nat :=
  length (emitted st') - length (emitted st).

(** A lexer that splits at blanks and knows no quotation, to run [props]
    on strings without quotes. *)
Definition blank_lexer (text : string) : outcome (list string) :=
  Return (filter (λ w, w ≠ "") (Str.split_on " " text)).

(** A state with one client and nothing in it; the depth left for
    [collect_ids] is the recursion limit that CPython sets by default, which
    no program has in full. *)
Definition initial (client_id : nat) (running : bool) : state :=
  mkState (Client.mk client_id 0 ∅ []) running [] 1000.

(** A [div] that holds a [span], which holds an [i], and a [p]; the ids
    are 0 to 3 in this order. *)
Definition build_page : M unit :=
  let* a := __init__ "div" in
  let* _ := __enter__ a in
  let* b := __init__ "span" in
  let* _ := __enter__ b in
  let* _ := __init__ "i" in
  let* _ := __exit__ b in
  let* _ := __init__ "p" in
  __exit__ a.

Definition page (running : bool) : state := (build_page (initial 7 running)).2.

Definition page_tree : tree := Node 0 [Node 1 [Node 2 []]; Node 3 []].

(** [n] elements, each made in the scope of the one before: [n] times
    [Element('div').__enter__()]. *)
Fixpoint nest (n : nat) : M unit :=
  match n with
  | 0 => ret ()
  | S n' =>
      let* a := __init__ "div" in
      let* _ := __enter__ a in
      nest n'
  end.

(** A chain of 1002 nested elements, the outermost with the id 0, with a
    loop running. *)
Definition deep_chain : state := (nest 1002 (initial 7 true)).2.

(** The page after [props(add="flat")] on its [div]. *)
Definition flat_page : state :=
  (props shlex_words 0 (Some "flat") None (page true)).2.

(** The page after [style(add="color:red;width:1px")] on its [span], and
    the [span] then. *)
Definition styled_page : state :=
  (style 1 (Some "color:red;width:1px") None None (page true)).2.

Definition styled_span : Element.t :=
  Element.mk "span" [] (<["width" := "1px"]> {["color" := "red"]}) ∅ [] ""
    [("default", Slot.mk 1 "default" [2])] true InSlots.

(** The elements of the page as [build_page] leaves them. *)
Definition page_div : Element.t :=
  Element.mk "div" [] ∅ ∅ [] "" [("default", Slot.mk 0 "default" [1; 3])] true
    InSlots.

Definition page_span : Element.t :=
  Element.mk "span" [] ∅ ∅ [] "" [("default", Slot.mk 1 "default" [2])] true
    InSlots.

Definition page_i : Element.t :=
  Element.mk "i" [] ∅ ∅ [] "" [("default", Slot.mk 2 "default" [])] true
    InSlots.

Definition page_p : Element.t :=
  Element.mk "p" [] ∅ ∅ [] "" [("default", Slot.mk 3 "default" [])] true
    InSlots.

(** The number of occurrences of the character [c] in [s]. *)
Fixpoint count_char (c : ascii) (s : string) : nat :=
  match s with
  | EmptyString => 0
  | String c' s' => (if decide (c' = c) then 1 else 0) + count_char c s'
  end.

(** The pieces of a style string that [parse_style] takes for
    declarations. *)
Definition declarations (text : string) : list string :=
  Str.split_on ";" (Str.strip_chars semicolon_or_blank text).

(** A state in which an element is a child of its own slot. *)
Definition looped : state :=
  mkState
    (Client.mk 7 1
       {[0 := Element.mk "div" [] ∅ ∅ [] ""
                [("default", Slot.mk 0 "default" [0])] true InSlots]} [])
    true [] 1000.

(** The element that [__init__] makes for the id [self]. *)
Definition new_element (tag : string) (self : nat) : Element.t :=
  Element.mk tag [] ∅ ∅ [] "" [("default", Slot.mk self "default" [])] true
    InSlots.

(** The states that construction with [__init__], [__enter__] and
    [__exit__] and the methods of the elements reach: ids are handed out in
    increasing order, the children of an element are registered and
    younger than the element, no element is a child twice or of two
    elements, the slot stack refers to registered elements, and no element
    has two slots of one name. *)
Definition well_formed (st : state) : Prop :=
  (∀ i e, elems st !! i = Some e → i < Client.next_element_id (client st))
  ∧ (∀ i e c, elems st !! i = Some e → c ∈ child_ids e →
       i < c ∧ is_Some (elems st !! c))
  ∧ (∀ i e, elems st !! i = Some e → NoDup (child_ids e))
  ∧ (∀ i j ei ej c,
       elems st !! i = Some ei → elems st !! j = Some ej →
       c ∈ child_ids ei → c ∈ child_ids ej → i = j)
  ∧ (∀ ref, ref ∈ Client.slot_stack (client st) → is_Some (elems st !! ref))
  ∧ slots_are_dicts (elems st).

(** The page while the scope of its [div] is open. *)
Definition in_div : state :=
  (bind (__init__ "div") __enter__ (initial 7 true)).2.

(** [st'] has the slots, the slot stack and the id counter of [st]. *)
Definition same_structure (st st' : state) : Prop :=
  Client.next_element_id (client st') = Client.next_element_id (client st)
  ∧ Client.slot_stack (client st') = Client.slot_stack (client st)
  ∧ ∀ i, Element.slots <$> (elems st' !! i) = Element.slots <$> (elems st !! i).

(** [fits st0 self e]: [e] has the slots of the element [self] of [st0]. *)
Definition fits (st0 : state) (self : nat) (e : Element.t) : Prop :=
  Element.slots <$> (elems st0 !! self) = Some (Element.slots e).

(** [keeps st0 m Q]: run in a state with the structure of [st0], the
    computation [m] ends in such a state, with a result in [Q] if it
    returns. *)
Definition keeps (st0 : state) {A} (m : M A) (Q : A → Prop) : Prop :=
  ∀ st o st',
    same_structure st0 st → m st = (o, st') →
    same_structure st0 st' ∧ ∀ a, o = Return a → Q a.

(** * Properties *)

(** ** Dictionaries *)

Section dict_facts.
Context {K V : Type} `{EqDecision K}.
Implicit Types (d : list (K * V)) (k : K) (v : V).

Lemma dict_get_set d k k' v :
  Dict.get k' (Dict.set k v d) = if decide (k' = k) then Some v else Dict.get k' d.
Proof.
  induction d as [|[k0 v0] d IH]; csimpl.
  - repeat case_decide; congruence.
  - destruct (decide (k = k0)) as [->|Hne]; csimpl.
    + repeat case_decide; congruence.
    + rewrite IH. repeat case_decide; congruence.
Qed.

Lemma dict_keys_set d k v :
  Dict.keys (Dict.set k v d)
  = if decide (k ∈ Dict.keys d) then Dict.keys d else Dict.keys d ++ [k].
Proof.
  unfold Dict.keys. induction d as [|[k0 v0] d IH]; csimpl.
  - done.
  - destruct (decide (k = k0)) as [->|Hne]; csimpl.
    + rewrite decide_True; [done | left].
    + rewrite IH. destruct (decide (k ∈ d.*1)) as [Hin|Hnin].
      * rewrite decide_True; [done | by right].
      * rewrite decide_False; [done |].
        intros [?|?]%elem_of_cons; done.
Qed.

Lemma dict_keys_set_NoDup d k v :
  NoDup (Dict.keys d) → NoDup (Dict.keys (Dict.set k v d)).
Proof.
  intros Hd. rewrite dict_keys_set. case_decide as Hin; [done |].
  apply NoDup_app. split_and!; [done | | apply NoDup_singleton].
  intros x Hx ->%list_elem_of_singleton. done.
Qed.

Lemma dict_get_None d k : Dict.get k d = None ↔ k ∉ Dict.keys d.
Proof.
  unfold Dict.keys. induction d as [|[k0 v0] d IH]; csimpl.
  - split; [intros _; apply not_elem_of_nil | done].
  - case_decide as Hk; [subst|].
    + split; [done | intros []; left].
    + rewrite IH. rewrite not_elem_of_cons. tauto.
Qed.

Lemma dict_get_elem_of d k v :
  NoDup (Dict.keys d) → (k, v) ∈ d → Dict.get k d = Some v.
Proof.
  unfold Dict.keys. induction d as [|[k0 v0] d IH]; csimpl; intros Hd Hin.
  - by apply elem_of_nil in Hin.
  - apply NoDup_cons in Hd as [Hk0 Hd].
    apply elem_of_cons in Hin as [[= -> ->]|Hin].
    + by rewrite decide_True.
    + rewrite decide_False; [by apply IH |].
      intros ->. apply Hk0. apply list_elem_of_fmap. by exists (k0, v).
Qed.

(** Pairs with distinct keys are added one after the other. *)
Lemma dict_fold_set_fresh (l d : list (K * V)) :
  NoDup (Dict.keys (d ++ l)) →
  foldl (λ d kv, Dict.set kv.1 kv.2 d) d l = d ++ l.
Proof.
  revert d. induction l as [|[k v] l IH]; intros d Hd; csimpl.
  - by rewrite app_nil_r.
  - assert (Dict.set k v d = d ++ [(k, v)]) as ->.
    { unfold Dict.keys in Hd. rewrite fmap_app in Hd.
      apply NoDup_app in Hd as (_ & Hdis & _).
      assert (k ∉ d.*1) as Hk by (intros Hk; apply (Hdis k Hk); left).
      clear -Hk. induction d as [|[k0 v0] d IHd]; csimpl; [done |].
      apply not_elem_of_cons in Hk as [Hne Hk].
      rewrite decide_False by done. by rewrite IHd. }
    rewrite IH; rewrite <- app_assoc; done.
Qed.

Lemma dict_of_pairs_fresh (l : list (K * V)) :
  NoDup (Dict.keys l) → Dict.of_pairs l = l.
Proof. intros Hl. unfold Dict.of_pairs. by rewrite dict_fold_set_fresh. Qed.

Lemma dict_fold_set_NoDup (l d : list (K * V)) :
  NoDup (Dict.keys d) →
  NoDup (Dict.keys (foldl (λ d kv, Dict.set kv.1 kv.2 d) d l)).
Proof.
  revert d. induction l as [|[k v] l IH]; intros d Hd; csimpl; [done |].
  apply IH. by apply dict_keys_set_NoDup.
Qed.

Lemma dict_of_pairs_NoDup (l : list (K * V)) : NoDup (Dict.keys (Dict.of_pairs l)).
Proof. apply dict_fold_set_NoDup. apply NoDup_nil_2. Qed.

End dict_facts.

(** ** First occurrences *)

Lemma dedup_from_ext (s1 s2 l : list string) :
  (∀ y, y ∈ s1 ↔ y ∈ s2) → dedup_from s1 l = dedup_from s2 l.
Proof.
  revert s1 s2. induction l as [|x l IH]; intros s1 s2 Hs; simpl; [done |].
  destruct (decide (x ∈ s1)) as [H1|H1].
  - rewrite decide_True by (by apply Hs). by apply IH.
  - rewrite decide_False by (by rewrite <- Hs). f_equal. apply IH.
    intros y. rewrite !elem_of_cons. by rewrite Hs.
Qed.

Lemma elem_of_dedup_from (s l : list string) (x : string) :
  x ∈ dedup_from s l ↔ x ∈ l ∧ x ∉ s.
Proof.
  revert s. induction l as [|y l IH]; intros s; simpl.
  - split; [by intros ?%elem_of_nil | by intros [?%elem_of_nil _]].
  - destruct (decide (y ∈ s)) as [Hy|Hy].
    + rewrite IH, elem_of_cons. split; [tauto |].
      intros [[->|?] ?]; tauto.
    + rewrite !elem_of_cons, IH, not_elem_of_cons. split.
      * intros [->|(? & ? & ?)]; tauto.
      * intros [[->|?] ?]; [by left |].
        destruct (decide (x = y)); [by left | right; tauto].
Qed.

Lemma NoDup_dedup_from (s l : list string) : NoDup (dedup_from s l).
Proof.
  revert s. induction l as [|y l IH]; intros s; simpl; [apply NoDup_nil_2 |].
  case_decide; [apply IH |].
  apply NoDup_cons. split; [| apply IH].
  rewrite elem_of_dedup_from, not_elem_of_cons. tauto.
Qed.

Lemma dedup_from_seen (s l : list string) :
  (∀ x, x ∈ l → x ∈ s) → dedup_from s l = [].
Proof.
  induction l as [|y l IH]; intros Hl; simpl; [done |].
  rewrite decide_True by (apply Hl; left).
  apply IH. intros x Hx. apply Hl. by right.
Qed.

Lemma dedup_from_NoDup (s l : list string) :
  NoDup l → (∀ x, x ∈ l → x ∉ s) → dedup_from s l = l.
Proof.
  revert s. induction l as [|y l IH]; intros s Hnd Hs; simpl; [done |].
  apply NoDup_cons in Hnd as [Hy Hnd].
  rewrite decide_False by (apply Hs; left). f_equal.
  apply IH; [done |]. intros x Hx. rewrite not_elem_of_cons. split.
  - by intros ->.
  - apply Hs. by right.
Qed.

Lemma dedup_from_app (s l1 l2 : list string) :
  dedup_from s (l1 ++ l2) = dedup_from s l1 ++ dedup_from (l1 ++ s) l2.
Proof.
  revert s. induction l1 as [|x l1 IH]; intros s; simpl; [done |].
  destruct (decide (x ∈ s)) as [Hx|Hx].
  - rewrite IH. f_equal. apply dedup_from_ext.
    intros y. rewrite elem_of_cons, !elem_of_app. split; [tauto |].
    intros [->|?]; tauto.
  - rewrite IH. simpl. do 2 f_equal. apply dedup_from_ext.
    intros y. rewrite !elem_of_cons, !elem_of_app, elem_of_cons. tauto.
Qed.

(** Nothing is left to drop once the tokens added are there already. *)
Lemma dedup_app_present (l a : list string) :
  NoDup l → (∀ x, x ∈ a → x ∈ l) → dedup (l ++ a) = l.
Proof.
  intros Hl Ha. unfold dedup. rewrite dedup_from_app.
  rewrite dedup_from_NoDup by (done || intros; apply not_elem_of_nil).
  rewrite dedup_from_seen; [by rewrite app_nil_r |].
  intros x Hx. apply elem_of_app. left. by apply Ha.
Qed.

Lemma fromkeys_fold (l : list string) (d : list (string * ())) :
  Dict.keys (foldl (λ d kv, Dict.set kv.1 kv.2 d) d (map (λ c, (c, ())) l))
  = Dict.keys d ++ dedup_from (Dict.keys d) l.
Proof.
  revert d. induction l as [|x l IH]; intros d; simpl.
  - by rewrite app_nil_r.
  - rewrite IH, dict_keys_set.
    destruct (decide (x ∈ Dict.keys d)) as [Hx|Hx]; [done |].
    rewrite <- app_assoc. simpl. do 2 f_equal. apply dedup_from_ext.
    intros y. set_solver.
Qed.

(** [list(dict.fromkeys(l))] keeps the first occurrence of every element. *)
Lemma fromkeys_dedup (l : list string) : fromkeys l = dedup l.
Proof. unfold fromkeys, Dict.of_pairs. by rewrite fromkeys_fold. Qed.

(** ** Trees of elements and [collect_ids] *)

Lemma tree_ind' (P : tree → Prop) :
  (∀ i ks, Forall P ks → P (Node i ks)) → ∀ t, P t.
Proof.
  intros HP. fix IH 1. intros [i ks]. apply HP.
  induction ks as [|k ks IHks]; constructor; [apply IH | apply IHks].
Qed.

Lemma elem_of_concat_map {A B} (f : A → list B) (l : list A) (x : B) :
  x ∈ concat (map f l) ↔ ∃ k, k ∈ l ∧ x ∈ f k.
Proof.
  induction l as [|a l IH]; simpl.
  - split; [by intros ?%elem_of_nil | by intros (k & ?%elem_of_nil & _)].
  - rewrite elem_of_app, IH. split.
    + intros [Hx|(k & Hk & Hx)]; [exists a | exists k]; split; try done.
      * left.
      * by right.
    + intros (k & [->|Hk]%elem_of_cons & Hx); [by left | right; by exists k].
Qed.

Lemma visit_slots_flat collect slots ids :
  visit_slots collect slots ids
  = foldl (visit_child collect) (Return ids)
      (concat (map (λ slot : string * Slot.t, Slot.children slot.2) slots)).
Proof.
  unfold visit_slots. generalize (Return ids).
  induction slots as [|s slots IH]; intros acc; simpl; [done |].
  rewrite foldl_app. apply IH.
Qed.

Lemma visit_kids collect ks ids :
  Forall (λ k, ∀ ids, collect (root k) ids = Return (ids ++ postorder k)) ks →
  foldl (visit_child collect) (Return ids) (map root ks)
  = Return (ids ++ concat (map postorder ks)).
Proof.
  revert ids. induction ks as [|k ks IH]; intros ids Hks; simpl.
  - by rewrite app_nil_r.
  - apply Forall_cons in Hks as [Hk Hks].
    rewrite Hk, IH by done. by rewrite app_assoc.
Qed.

Lemma height_kid k ks : k ∈ ks → height k ≤ foldr Nat.max 0 (map height ks).
Proof.
  induction ks as [|k' ks IH]; [by intros ?%elem_of_nil |].
  intros [->|Hin]%elem_of_cons; simpl; [lia |].
  specialize (IH Hin). lia.
Qed.

(** On a tree, [collect_ids] returns, and appends the ids in postorder. *)
Lemma collect_ids_shaped els t :
  shaped els t → ∀ n ids, height t ≤ n →
  collect_ids n els (root t) ids = Return (ids ++ postorder t).
Proof.
  induction t as [i ks IH] using tree_ind'.
  intros Hs n ids Hn. inversion Hs as [i' e ks' Hi Hroots Hks]; subst.
  destruct n as [|n]; [simpl in Hn; lia |].
  cbn [collect_ids root postorder]. rewrite Hi, visit_slots_flat.
  fold (child_ids e). rewrite <- Hroots, visit_kids; [by rewrite app_assoc |].
  apply Forall_forall. intros k Hk ids'.
  rewrite Forall_forall in IH, Hks. apply IH; [done | by apply Hks |].
  pose proof (height_kid k ks Hk). simpl in Hn. lia.
Qed.

Lemma length_concat_kid {A} (f : tree → list A) k ks :
  k ∈ ks → length (f k) ≤ length (concat (map f ks)).
Proof.
  induction ks as [|k' ks IH]; [by intros ?%elem_of_nil |].
  intros [->|Hin]%elem_of_cons; simpl; rewrite length_app; [lia |].
  specialize (IH Hin). lia.
Qed.

Lemma postorder_nodes t : postorder t ≡ₚ nodes t.
Proof.
  induction t as [i ks IH] using tree_ind'. simpl.
  rewrite Permutation_app_comm. simpl. constructor.
  induction ks as [|k ks IHks]; simpl; [done |].
  apply Forall_cons in IH as [Hk Hks]. by rewrite Hk, (IHks Hks).
Qed.

Lemma shaped_nodes_present els t i :
  shaped els t → i ∈ nodes t → is_Some (els !! i).
Proof.
  induction t as [j ks IH] using tree_ind'.
  intros Hs Hin. inversion Hs as [j' e ks' Hj Hroots Hks]; subst.
  simpl in Hin. apply elem_of_cons in Hin as [->|Hin]; [by eexists |].
  apply elem_of_concat_map in Hin as (k & Hk & Hi).
  rewrite Forall_forall in IH, Hks. by apply (IH k Hk); [apply Hks |].
Qed.

Lemma visit_child_raise collect x l :
  foldl (visit_child collect) (Raise x) l = Raise x.
Proof. induction l as [|c l IH]; [done | apply IH]. Qed.

(** Trees that are too high for the depth: the first child whose tree
    does not fit raises [RecursionError]. *)
Lemma visit_kids_deep collect n ks ids :
  Forall (λ k, ∀ ids,
            collect (root k) ids
            = if decide (height k ≤ n) then Return (ids ++ postorder k)
              else Raise RecursionError) ks →
  n < foldr Nat.max 0 (map height ks) →
  foldl (visit_child collect) (Return ids) (map root ks) = Raise RecursionError.
Proof.
  revert ids. induction ks as [|k ks IH]; intros ids Hks Hn; simpl in *; [lia |].
  apply Forall_cons in Hks as [Hk Hks]. rewrite Hk.
  destruct (decide (height k ≤ n)) as [Hle|Hgt].
  - apply IH; [done | lia].
  - apply visit_child_raise.
Qed.

(** On a tree [collect_ids] returns the ids in postorder if the depth it
    is given reaches the leaves, and raises [RecursionError] if not. *)
Lemma collect_ids_tree els t :
  shaped els t → ∀ n ids,
  collect_ids n els (root t) ids
  = if decide (height t ≤ n) then Return (ids ++ postorder t)
    else Raise RecursionError.
Proof.
  induction t as [i ks IH] using tree_ind'.
  intros Hs n ids. inversion Hs as [i' e ks' Hi Hroots Hks]; subst.
  destruct n as [|n].
  { rewrite decide_False; [done | simpl; lia]. }
  cbn [collect_ids root]. rewrite Hi, visit_slots_flat.
  fold (child_ids e). rewrite <- Hroots.
  assert (Forall (λ k, ∀ ids,
                    collect_ids n els (root k) ids
                    = if decide (height k ≤ n) then Return (ids ++ postorder k)
                      else Raise RecursionError) ks) as Hall.
  { rewrite Forall_forall in IH, Hks. apply Forall_forall.
    intros k Hk ids'. by apply IH, Hks. }
  destruct (decide (height (Node i ks) ≤ S n)) as [Hle|Hgt].
  - rewrite visit_kids; [simpl; by rewrite app_assoc |].
    apply Forall_forall. intros k Hk ids'.
    rewrite Forall_forall in Hall. rewrite (Hall k Hk).
    rewrite decide_True; [done |].
    pose proof (height_kid k ks Hk). simpl in Hle. lia.
  - rewrite (visit_kids_deep _ n); [done | done |]. simpl in Hgt. lia.
Qed.

(** The depth is enough for the tree below an element. *)
Lemma collect_ids_owned_tree els self t n :
  owned_tree els self t → height t ≤ n →
  collect_ids n els self [] = Return (postorder t).
Proof.
  intros (<- & Hs & Hnd) Hn. by rewrite (collect_ids_shaped els t Hs).
Qed.

(** ** The state *)

Lemma elems_set_element self e st :
  elems (set_element self e st) = <[self := e]> (elems st).
Proof. done. Qed.

Lemma emitted_set_element self e st :
  emitted (set_element self e st) = emitted st.
Proof. done. Qed.

Lemma loop_set_element self e st : loop (set_element self e st) = loop st.
Proof. done. Qed.

Lemma recursion_depth_set_element self e st :
  recursion_depth (set_element self e st) = recursion_depth st.
Proof. done. Qed.

Lemma set_element_same self e st :
  elems st !! self = Some e → set_element self e st = st.
Proof.
  intros He. unfold set_element, with_elements. rewrite insert_id by done.
  by destruct st as [[] ? ?].
Qed.

Lemma set_element_twice self e e' st :
  set_element self e (set_element self e' st) = set_element self e st.
Proof.
  unfold set_element, with_elements, elems. simpl. by rewrite insert_insert_eq.
Qed.

Lemma lookup_set_element self e st :
  elems (set_element self e st) !! self = Some e.
Proof. rewrite elems_set_element. apply lookup_insert_eq. Qed.

Lemma get_element_Some self e st :
  elems st !! self = Some e → get_element self st = (Return e, st).
Proof. intros He. unfold get_element. by rewrite He. Qed.

Lemma get_element_set self e st :
  get_element self (set_element self e st) = (Return e, set_element self e st).
Proof. apply get_element_Some, lookup_set_element. Qed.

Lemma for_each_app {A B} (f : A → B → M A) (a : A) (l1 l2 : list B) (st : state) :
  for_each f a (l1 ++ l2) st
  = bind (for_each f a l1) (λ a', for_each f a' l2) st.
Proof.
  revert a st. induction l1 as [|x l1 IH]; intros a st; simpl; [done |].
  unfold bind. destruct (f a x st) as [[a'|err] st']; [| done].
  apply IH.
Qed.

(** ** [update] *)

Lemma serialize_fresh els ids acc :
  (∀ i, i ∈ ids → is_Some (els !! i)) →
  NoDup (Dict.keys acc ++ ids) →
  serialize els ids acc = Return (acc ++ wires els ids).
Proof.
  revert acc. induction ids as [|i ids IH]; intros acc Hp Hnd; simpl.
  - by rewrite app_nil_r.
  - destruct (Hp i) as [e He]; [left |].
    unfold wires. simpl. rewrite He. simpl. fold (wires els ids).
    assert (Dict.set i (to_dict i e) acc = acc ++ [(i, to_dict i e)]) as ->.
    { apply (dict_fold_set_fresh [(i, to_dict i e)] acc).
      unfold Dict.keys. rewrite fmap_app. simpl.
      apply NoDup_app in Hnd as (Hacc & Hdis & _).
      apply NoDup_app. split_and!; [done | | apply NoDup_singleton].
      intros x Hx ->%list_elem_of_singleton. apply (Hdis _ Hx). left. }
    rewrite IH.
    + by rewrite <- app_assoc.
    + intros j Hj. apply Hp. by right.
    + unfold Dict.keys. rewrite fmap_app. simpl.
      by rewrite <- app_assoc.
Qed.

Lemma wires_keys els ids :
  (∀ i, i ∈ ids → is_Some (els !! i)) → Dict.keys (wires els ids) = ids.
Proof.
  induction ids as [|i ids IH]; intros Hp; [done |].
  destruct (Hp i) as [e He]; [left |].
  unfold wires, Dict.keys. simpl. rewrite He. simpl. f_equal.
  apply IH. intros j Hj. apply Hp. by right.
Qed.

(** [update] on an element whose slots form a tree: nothing without a
    loop, and with a loop one task that carries the tree in postorder. *)
Lemma update_owned_tree st self t :
  owned_tree (elems st) self t →
  height t ≤ S (recursion_depth st) →
  update self st = (Return (), updated t st).
Proof.
  intros Ht Hdepth.
  unfold update, updated. destruct (loop st); cbn [negb]; [| done].
  rewrite (collect_ids_owned_tree _ _ _ _ Ht Hdepth).
  destruct Ht as (_ & Hs & Hnd).
  rewrite serialize_fresh; [done | |].
  - intros i Hi. apply (shaped_nodes_present _ t); [done |].
    by rewrite <- postorder_nodes.
  - simpl. by rewrite postorder_nodes.
Qed.

(** On a tree that is higher than the interpreter lets [collect_ids] go,
    [update] raises [RecursionError] and creates no task. *)
Lemma update_too_deep st self t :
  loop st = true →
  owned_tree (elems st) self t →
  S (recursion_depth st) < height t →
  update self st = (Raise RecursionError, st).
Proof.
  intros Hloop (Hr & Hs & Hnd) Hdeep. unfold update. rewrite Hloop. cbn [negb].
  rewrite <- Hr, (collect_ids_tree _ _ Hs).
  by rewrite decide_False by lia.
Qed.

Lemma update_client self st o st' :
  update self st = (o, st') → client st' = client st.
Proof.
  unfold update. destruct (negb (loop st)); [by intros [= <- <-] |].
  destruct (collect_ids _ _ _ _) as [ids|x]; [| by intros [= <- <-]].
  by destruct (serialize _ _ _) as [batch|x]; intros [= <- <-].
Qed.

Lemma update_elems self st o st' :
  update self st = (o, st') → elems st' = elems st.
Proof. intros Hc%update_client. unfold elems. by rewrite Hc. Qed.

(** [update] touches the list of tasks alone, adds one task at most, and
    none when it raises. *)
Lemma update_effect self st o st' :
  update self st = (o, st') →
  loop st' = loop st ∧ recursion_depth st' = recursion_depth st
  ∧ (∀ x, o = Raise x → st' = st)
  ∧ dispatches st st' ≤ 1.
Proof.
  unfold update, dispatches. destruct (negb (loop st)).
  - intros [= <- <-]. split_and!; [done | done | done | lia].
  - destruct (collect_ids _ _ _ _) as [ids|x].
    + destruct (serialize _ _ _) as [batch|x]; intros [= <- <-].
      * split_and!; [done | done | done |]. simpl. rewrite length_app. simpl. lia.
      * split_and!; [done | done | done | lia].
    + intros [= <- <-]. split_and!; [done | done | done | lia].
Qed.

Lemma elems_updated t st : elems (updated t st) = elems st.
Proof. unfold updated. by destruct (loop st). Qed.

Lemma recursion_depth_updated t st :
  recursion_depth (updated t st) = recursion_depth st.
Proof. unfold updated. by destruct (loop st). Qed.

Lemma loop_updated t st : loop (updated t st) = loop st.
Proof. unfold updated. by destruct (loop st) eqn:Hloop. Qed.

Lemma emitted_updated t st :
  emitted (updated t st)
  = emitted st ++ (if loop st then [update_task st (postorder t)] else []).
Proof. unfold updated. destruct (loop st); simpl; by rewrite ?app_nil_r. Qed.

Lemma dispatches_updated t st st0 :
  emitted st = emitted st0 →
  dispatches st0 (updated t st) = if loop st then 1 else 0.
Proof.
  intros Hem. unfold dispatches. rewrite emitted_updated, length_app, Hem.
  destruct (loop st); simpl; lia.
Qed.

Lemma child_ids_slots e e' :
  Element.slots e' = Element.slots e → child_ids e' = child_ids e.
Proof. unfold child_ids. by intros ->. Qed.

(** A change of an element that leaves its slots alone keeps the trees. *)
Lemma shaped_insert els i e e' t :
  els !! i = Some e → Element.slots e' = Element.slots e →
  shaped els t → shaped (<[i := e']> els) t.
Proof.
  intros Hi Hslots. induction t as [j ks IH] using tree_ind'.
  intros Hs. inversion Hs as [j' ej ks' Hj Hroots Hks]; subst.
  destruct (decide (i = j)) as [->|Hne].
  - apply (shaped_node _ j e'); [apply lookup_insert_eq | |].
    + rewrite (child_ids_slots _ _ Hslots). congruence.
    + rewrite Forall_forall in IH, Hks. apply Forall_forall.
      intros k Hk. by apply IH, Hks.
  - apply (shaped_node _ j ej); [by rewrite lookup_insert_ne | done |].
    rewrite Forall_forall in IH, Hks. apply Forall_forall.
    intros k Hk. by apply IH, Hks.
Qed.

Lemma owned_tree_set_element st self i e e' t :
  elems st !! i = Some e → Element.slots e' = Element.slots e →
  owned_tree (elems st) self t → owned_tree (elems (set_element i e' st)) self t.
Proof.
  intros Hi Hslots (Hr & Hs & Hnd). split_and!; [done | | done].
  rewrite elems_set_element. by eapply shaped_insert.
Qed.

Lemma update_without_loop_run st self :
  loop st = false → update self st = (Return (), st).
Proof. intros Hloop. unfold update. by rewrite Hloop. Qed.

(** C10: without an event loop [update] returns at once: it raises
    nothing, creates no task and leaves the state as it is, whatever the
    state. *)
Theorem update_without_loop (st : state) (self : nat) :
  loop st = false → update self st = (Return (), st).
Proof. intros Hloop. unfold update. by rewrite Hloop. Qed.

Lemma update_without_loop_witness :
  loop (page false) = false ∧ update 0 (page false) = (Return (), page false).
Proof. split; [reflexivity | apply update_without_loop; reflexivity]. Defined.

(** ** [classes] *)

Lemma with_classes_same e : Element.with_classes (Element._classes e) e = e.
Proof. by destruct e. Qed.

(** What a call of [classes] does, with the call of [update] left as it is. *)
Lemma classes_run st self e add remove replace :
  elems st !! self = Some e →
  classes self add remove replace st
  = let new_classes := merged_classes (Element._classes e) add remove replace in
    if decide (Element._classes e = new_classes) then (Return self, st)
    else
      match update self (set_element self (Element.with_classes new_classes e) st) with
      | (Return _, st') => (Return self, st')
      | (Raise x, st') => (Raise x, st')
      end.
Proof.
  intros He. unfold classes, bind. rewrite (get_element_Some _ _ _ He).
  rewrite fromkeys_dedup, <- app_assoc. fold (merged_classes (Element._classes e) add remove replace).
  cbn zeta. destruct (decide (Element._classes e = _)) as [Heq|Hne].
  - by rewrite decide_False by (by intros []).
  - rewrite decide_True by done. unfold put_element. fold (set_element self (Element.with_classes (merged_classes (Element._classes e) add remove replace) e) st).
    by destruct (update _ _) as [[[]|x] st'].
Qed.

(** The class list after a call of [classes], whatever [update] does. *)
Lemma classes_result st self e add remove replace o st' :
  elems st !! self = Some e →
  classes self add remove replace st = (o, st') →
  elems st' !! self
  = Some (Element.with_classes
            (merged_classes (Element._classes e) add remove replace) e).
Proof.
  intros He. rewrite (classes_run _ _ _ _ _ _ He). cbn zeta.
  destruct (decide (Element._classes e = _)) as [Heq|Hne].
  - intros [= <- <-]. by rewrite <- Heq, with_classes_same.
  - destruct (update _ _) as [[[]|x] st1] eqn:Hup; intros [= <- <-];
      rewrite (update_elems _ _ _ _ Hup); apply lookup_set_element.
Qed.

Lemma classes_spec st self e add remove replace t :
  elems st !! self = Some e →
  owned_tree (elems st) self t →
  height t ≤ S (recursion_depth st) →
  ∃ st',
    classes self add remove replace st = (Return self, st')
    ∧ elems st'
      = <[self := Element.with_classes
                    (merged_classes (Element._classes e) add remove replace) e]>
          (elems st)
    ∧ loop st' = loop st
    ∧ dispatches st st'
      = if decide (Element._classes e
                   = merged_classes (Element._classes e) add remove replace)
        then 0 else if loop st then 1 else 0.
Proof.
  intros He Ht Hh. rewrite (classes_run _ _ _ _ _ _ He). cbn zeta.
  set (new_classes := merged_classes _ _ _ _).
  destruct (decide (Element._classes e = new_classes)) as [Heq|Hne].
  - exists st. split_and!; [done | | done |].
    + rewrite <- Heq, with_classes_same. by rewrite insert_id.
    + unfold dispatches. lia.
  - rewrite (update_owned_tree _ self t)
      by (done || by eapply owned_tree_set_element).
    eexists. split_and!; [done | | |].
    + by rewrite elems_updated.
    + by rewrite loop_updated.
    + by rewrite dispatches_updated.
Qed.

Lemma page_elements running :
  map_to_list (elems (page running))
  = [(2, page_i); (3, page_p); (1, page_span); (0, page_div)].
Proof. destruct running; vm_compute; reflexivity. Qed.

Lemma page_lookup running i e :
  (i, e) ∈ [(0, page_div); (1, page_span); (2, page_i); (3, page_p)] →
  elems (page running) !! i = Some e.
Proof.
  intros Hin. apply elem_of_map_to_list. rewrite page_elements.
  revert Hin. rewrite !elem_of_cons. tauto.
Qed.

Lemma page_div_lookup running : elems (page running) !! 0 = Some page_div.
Proof. apply page_lookup. left. Qed.

Lemma page_owned_tree running : owned_tree (elems (page running)) 0 page_tree.
Proof.
  split_and!; [done | |].
  - apply (shaped_node _ 0 page_div); [apply page_div_lookup | done |].
    repeat apply Forall_cons_2; [| | apply Forall_nil_2].
    + apply (shaped_node _ 1 page_span);
        [apply page_lookup; repeat first [left | right] | done |].
      repeat apply Forall_cons_2; [| apply Forall_nil_2].
      apply (shaped_node _ 2 page_i);
        [apply page_lookup; repeat first [left | right] | done | apply Forall_nil_2].
    + apply (shaped_node _ 3 page_p);
        [apply page_lookup; repeat first [left | right] | done | apply Forall_nil_2].
  - apply (bool_decide_unpack _). by vm_compute.
Qed.

Lemma page_height running :
  height page_tree ≤ S (recursion_depth (page running)).
Proof. destruct running; apply (bool_decide_unpack _); by vm_compute. Qed.

(** The outermost element of the deep chain is registered and has no
    class. *)
Lemma deep_chain_outermost :
  elems deep_chain !! 0
  = Some (Element.mk "div" [] ∅ ∅ [] "" [("default", Slot.mk 0 "default" [1])]
            true InSlots).
Proof. by vm_compute. Qed.

(** C3 as it reads does not hold of the code: on the outermost of 1002
    nested elements, with a loop running, [classes(add="x")] sets the class
    list and then raises [RecursionError] out of [update]; it does not
    return the element. *)
Lemma classes_deep_chain_raises :
  (∃ e, elems deep_chain !! 0 = Some e ∧ Element._classes e = [])
  ∧ loop deep_chain = true
  ∧ ∃ st' e',
      classes 0 (Some "x") None None deep_chain = (Raise RecursionError, st')
      ∧ elems st' !! 0 = Some e'
      ∧ Element._classes e' = ["x"]
      ∧ emitted st' = emitted deep_chain.
Proof.
  split; [eexists; split; [apply deep_chain_outermost | done] |].
  split; [by vm_compute |].
  destruct (classes 0 (Some "x") None None deep_chain) as [o st'] eqn:Hrun.
  assert (o = Raise RecursionError) as ->.
  { change o with (o, st').1. rewrite <- Hrun. by vm_compute. }
  pose proof (classes_result _ _ _ _ _ _ _ _ deep_chain_outermost Hrun) as He'.
  eexists st', _. split_and!; [done | exact He' | done |].
  revert Hrun. rewrite (classes_run _ _ _ _ _ _ deep_chain_outermost). cbn zeta.
  rewrite decide_False by done.
  destruct (update _ _) as [[[]|x] st1] eqn:Hup; intros [= ? <-].
  rewrite (proj1 (proj2 (proj2 (update_effect _ _ _ _ Hup))) _ eq_refl).
  apply emitted_set_element.
Qed.

(** C3, amended: whatever the call does after it, [classes] leaves the
    class list the specification describes -- the current list, or the
    empty list if [replace] is given, without the tokens of [remove],
    followed by the tokens of [add] and of [replace], every token kept at
    its first occurrence; on an empty class list [classes(add="b a")] and
    then [classes(add="c")] leave [["b"; "a"; "c"]]. The call returns the
    element itself when the list does not change, when no loop runs, or
    when the slots below the element form a tree no higher than the
    interpreter lets [collect_ids] descend; with a loop running and the
    list changed it raises [RecursionError] on a higher tree. *)
Theorem classes_merge_order st self e add remove replace :
  elems st !! self = Some e →
  (∀ o st',
      classes self add remove replace st = (o, st') →
      ∃ e',
        elems st' !! self = Some e'
        ∧ Element._classes e'
          = merged_classes (Element._classes e) add remove replace)
  ∧ (Element._classes e = [] →
     ∀ o1 st1 o2 st2,
       classes self (Some "b a") None None st = (o1, st1) →
       classes self (Some "c") None None st1 = (o2, st2) →
       ∃ e2, elems st2 !! self = Some e2 ∧ Element._classes e2 = ["b"; "a"; "c"])
  ∧ (loop st = false
     ∨ Element._classes e = merged_classes (Element._classes e) add remove replace →
     ∃ st', classes self add remove replace st = (Return self, st'))
  ∧ (∀ t,
      owned_tree (elems st) self t →
      (height t ≤ S (recursion_depth st) →
       ∃ st', classes self add remove replace st = (Return self, st'))
      ∧ (S (recursion_depth st) < height t →
         loop st = true →
         Element._classes e ≠ merged_classes (Element._classes e) add remove replace →
         ∃ st', classes self add remove replace st = (Raise RecursionError, st'))).
Proof.
  intros He. split_and!.
  - intros o st' Hrun. eexists. split; [by eapply classes_result | done].
  - intros Hempty o1 st1 o2 st2 Hrun1 Hrun2.
    pose proof (classes_result _ _ _ _ _ _ _ _ He Hrun1) as He1.
    pose proof (classes_result _ _ _ _ _ _ _ _ He1 Hrun2) as He2.
    eexists. split; [exact He2 |]. simpl. by rewrite Hempty.
  - intros Hcase. rewrite (classes_run _ _ _ _ _ _ He). cbn zeta.
    destruct (decide (Element._classes e = _)) as [Heq|Hne]; [by eexists |].
    destruct Hcase as [Hloop|Heq]; [| done].
    rewrite update_without_loop_run by done. by eexists.
  - intros t Ht. split.
    + intros Hh.
      destruct (classes_spec st self e add remove replace t He Ht Hh)
        as (st' & Hrun & _).
      by exists st'.
    + intros Hdeep Hloop Hne. rewrite (classes_run _ _ _ _ _ _ He). cbn zeta.
      rewrite decide_False by done.
      rewrite (update_too_deep _ self t);
        [by eexists | done | by eapply owned_tree_set_element | done].
Qed.

Lemma classes_merge_order_witness :
  elems (page true) !! 0 = Some page_div
  ∧ ∃ e',
      elems (classes 0 (Some "x  y x") (Some "y") None (page true)).2 !! 0
      = Some e'
      ∧ Element._classes e'
        = merged_classes (Element._classes page_div) (Some "x  y x") (Some "y") None.
Proof.
  split; [apply page_div_lookup |].
  exact (proj1 (classes_merge_order (page true) 0 page_div (Some "x  y x")
                  (Some "y") None (page_div_lookup true))
           _ _ (surjective_pairing _)).
Defined.

Lemma filter_not_in_nil (l : list string) :
  filter (λ c, c ∉ Str.split (Str.or_empty None)) l = l.
Proof.
  induction l as [|x l IH]; [done |].
  rewrite filter_cons_True by apply not_elem_of_nil. by rewrite IH.
Qed.

Lemma merged_classes_add (current : list string) (a : string) :
  merged_classes current (Some a) None None = dedup (current ++ Str.split a).
Proof.
  unfold merged_classes. rewrite filter_not_in_nil. simpl.
  by rewrite app_nil_r.
Qed.

(** The class list [classes(add=a)] leaves is free of duplicates and holds
    every token of [a]; a further [classes(add=a)] does not change it. *)
Lemma merged_classes_add_fixed (current : list string) (a : string) :
  let new_classes := merged_classes current (Some a) None None in
  merged_classes new_classes (Some a) None None = new_classes.
Proof.
  cbn zeta. rewrite !merged_classes_add. apply dedup_app_present.
  - apply NoDup_dedup_from.
  - intros x Hx. apply elem_of_dedup_from. split; [| apply not_elem_of_nil].
    apply elem_of_app. by right.
Qed.

(** C7: [classes(add=a)] is idempotent. Whatever the first call did, a
    second call leaves the state as the first call left it -- the same class
    list, no task created; and a call whose tokens are all in the class
    list already, no other argument given, leaves the state as it is. *)
Theorem classes_add_idempotent st self e a :
  elems st !! self = Some e →
  (∀ o1 st1,
      classes self (Some a) None None st = (o1, st1) →
      ∃ st2,
        classes self (Some a) None None st1 = (Return self, st2)
        ∧ st2 = st1 ∧ dispatches st1 st2 = 0)
  ∧ (NoDup (Element._classes e) →
     (∀ x, x ∈ Str.split a → x ∈ Element._classes e) →
     ∃ st',
       classes self (Some a) None None st = (Return self, st')
       ∧ st' = st ∧ dispatches st st' = 0).
Proof.
  intros He. split.
  - intros o1 st1 Hrun. exists st1.
    split_and!; [| done | unfold dispatches; lia].
    rewrite (classes_run _ _ _ _ _ _ He) in Hrun. cbn zeta in Hrun.
    destruct (decide (Element._classes e = _)) as [Heq|Hne].
    + injection Hrun as <- <-.
      rewrite (classes_run _ _ _ _ _ _ He). cbn zeta.
      by rewrite decide_True.
    + set (new_classes := merged_classes _ _ _ _) in *.
      assert (elems st1 !! self = Some (Element.with_classes new_classes e)) as He1.
      { unfold update in Hrun.
        destruct (negb _); [| destruct (collect_ids _ _ _ _);
                                [destruct (serialize _ _ _) |]];
          simplify_eq; apply lookup_set_element. }
      rewrite (classes_run _ _ _ _ _ _ He1). cbn zeta.
      rewrite decide_True; [done |]. simpl.
      symmetry. apply merged_classes_add_fixed.
  - intros Hnd Ha. exists st.
    split_and!; [| done | unfold dispatches; lia].
    rewrite (classes_run _ _ _ _ _ _ He). cbn zeta.
    rewrite decide_True; [done |].
    rewrite merged_classes_add. symmetry. by apply dedup_app_present.
Qed.

Lemma classes_add_idempotent_witness :
  elems (page true) !! 0 = Some page_div
  ∧ ∀ o1 st1,
      classes 0 (Some "x") None None (page true) = (o1, st1) →
      ∃ st2,
        classes 0 (Some "x") None None st1 = (Return 0, st2)
        ∧ st2 = st1 ∧ dispatches st1 st2 = 0.
Proof.
  split; [reflexivity |].
  apply (classes_add_idempotent (page true) 0 page_div "x"). reflexivity.
Defined.

(** ** [on_visibility_change] *)

Lemma list_remove_NoDup (x : string) (l : list string) :
  NoDup l → x ∉ list_remove x l.
Proof.
  induction l as [|y l IH]; intros Hnd; simpl; [apply not_elem_of_nil |].
  apply NoDup_cons in Hnd as [Hy Hnd].
  destruct (decide (x = y)) as [->|Hne]; [done |].
  apply not_elem_of_cons. split; [done | by apply IH].
Qed.

(** [list.remove(x)] takes out the first occurrence of [x] and leaves
    the rest of the list as it is. *)
Lemma list_remove_first (x : string) (l : list string) :
  x ∈ l →
  ∃ l1 l2, l = l1 ++ x :: l2 ∧ (x ∉ l1) ∧ list_remove x l = l1 ++ l2.
Proof.
  induction l as [|y l IH]; [by intros ?%elem_of_nil |].
  intros Hin. simpl. destruct (decide (x = y)) as [->|Hne].
  - exists [], l. split_and!; [done | apply not_elem_of_nil | done].
  - apply elem_of_cons in Hin as [?|Hin]; [done |].
    destruct (IH Hin) as (l1 & l2 & -> & Hl1 & ->).
    exists (y :: l1), l2. split_and!; [done | | done].
    apply not_elem_of_cons. by split.
Qed.

(** What [on_visibility_change(False)] does, with the call of [update]
    left as it is. *)
Lemma visibility_hide_run st self e :
  elems st !! self = Some e →
  on_visibility_change self false st
  = if decide ("hidden" ∈ Element._classes e) then (Return (), st)
    else update self
           (set_element self
              (Element.with_classes (Element._classes e ++ ["hidden"]) e) st).
Proof.
  intros He. unfold on_visibility_change, bind.
  rewrite (get_element_Some _ _ _ He). cbn [andb ret negb].
  rewrite (get_element_Some _ _ _ He).
  destruct (decide ("hidden" ∈ Element._classes e)) as [Hin|Hnin].
  - by rewrite bool_decide_false by (by intros []).
  - by rewrite bool_decide_true by done.
Qed.

(** What [on_visibility_change(True)] does. *)
Lemma visibility_show_run st self e :
  elems st !! self = Some e →
  on_visibility_change self true st
  = if decide ("hidden" ∈ Element._classes e) then
      update self
        (set_element self
           (Element.with_classes (list_remove "hidden" (Element._classes e)) e)
           st)
    else (Return (), st).
Proof.
  intros He. unfold on_visibility_change, bind.
  rewrite (get_element_Some _ _ _ He). cbn [andb ret negb].
  destruct (decide ("hidden" ∈ Element._classes e)) as [Hin|Hnin].
  - rewrite bool_decide_true by done. unfold put_element.
    fold (set_element self
            (Element.with_classes (list_remove "hidden" (Element._classes e)) e)
            st).
    destruct (update _ _) as [[[]|x] st'] eqn:Hup; [| done].
    unfold get_element.
    by rewrite (update_elems _ _ _ _ Hup), lookup_set_element.
  - rewrite bool_decide_false by done. unfold ret. cbv beta iota.
    by rewrite (get_element_Some _ _ _ He).
Qed.

Lemma visibility_hide st self e t :
  elems st !! self = Some e →
  owned_tree (elems st) self t →
  height t ≤ S (recursion_depth st) →
  on_visibility_change self false st
  = if decide ("hidden" ∈ Element._classes e) then (Return (), st)
    else (Return (),
          updated t
            (set_element self
               (Element.with_classes (Element._classes e ++ ["hidden"]) e) st)).
Proof.
  intros He Ht Hh. rewrite (visibility_hide_run _ _ _ He).
  case_decide; [done |].
  by rewrite (update_owned_tree _ self t)
    by (done || by eapply owned_tree_set_element).
Qed.

Lemma visibility_show st self e t :
  elems st !! self = Some e →
  owned_tree (elems st) self t →
  height t ≤ S (recursion_depth st) →
  on_visibility_change self true st
  = if decide ("hidden" ∈ Element._classes e) then
      (Return (),
       updated t
         (set_element self
            (Element.with_classes (list_remove "hidden" (Element._classes e)) e)
            st))
    else (Return (), st).
Proof.
  intros He Ht Hh. rewrite (visibility_show_run _ _ _ He).
  case_decide; [| done].
  by rewrite (update_owned_tree _ self t)
    by (done || by eapply owned_tree_set_element).
Qed.

(** C8: when the element becomes invisible and does not have the class
    [hidden], [on_visibility_change] appends it and calls [update]; when
    the element becomes visible and has the class, it takes the first
    [hidden] out of the class list, leaves the other classes as they are,
    and calls [update]; in the two other cases it does nothing. Two calls
    [on_visibility_change(False)] in a row: the second leaves the state as
    it is, whatever the first call did, so that one task is created at
    most, and none if the element had the class. With the slots below the
    element a tree that [collect_ids] can walk, every call returns, and a
    task is created exactly when the class list changes and a loop runs. *)
Theorem visibility_toggle_idempotent st self e :
  elems st !! self = Some e →
  let hidden := "hidden" ∈ Element._classes e in
  (¬ hidden →
   on_visibility_change self false st
   = update self
       (set_element self
          (Element.with_classes (Element._classes e ++ ["hidden"]) e) st))
  ∧ (hidden → on_visibility_change self false st = (Return (), st))
  ∧ (hidden →
     ∃ l1 l2,
       Element._classes e = l1 ++ "hidden" :: l2
       ∧ ("hidden" ∉ l1)
       ∧ on_visibility_change self true st
         = update self
             (set_element self (Element.with_classes (l1 ++ l2) e) st))
  ∧ (¬ hidden → on_visibility_change self true st = (Return (), st))
  ∧ (∀ o1 st1,
       on_visibility_change self false st = (o1, st1) →
       on_visibility_change self false st1 = (Return (), st1)
       ∧ dispatches st st1 ≤ 1
       ∧ (hidden → dispatches st st1 = 0))
  ∧ (∀ t,
       owned_tree (elems st) self t →
       height t ≤ S (recursion_depth st) →
       (∃ st',
           on_visibility_change self false st = (Return (), st')
           ∧ dispatches st st'
             = if decide hidden then 0 else if loop st then 1 else 0)
       ∧ (∃ st',
             on_visibility_change self true st = (Return (), st')
             ∧ dispatches st st'
               = if decide hidden then if loop st then 1 else 0 else 0)).
Proof.
  intros He hidden. unfold hidden. split_and!.
  - intros Hnin. rewrite (visibility_hide_run _ _ _ He). by rewrite decide_False.
  - intros Hin. rewrite (visibility_hide_run _ _ _ He). by rewrite decide_True.
  - intros Hin. destruct (list_remove_first _ _ Hin) as (l1 & l2 & Hl & Hl1 & Hrm).
    exists l1, l2. split_and!; [done | done |].
    rewrite (visibility_show_run _ _ _ He). by rewrite decide_True, Hrm.
  - intros Hnin. rewrite (visibility_show_run _ _ _ He). by rewrite decide_False.
  - intros o1 st1. rewrite (visibility_hide_run _ _ _ He).
    destruct (decide ("hidden" ∈ Element._classes e)) as [Hin|Hnin].
    + intros [= <- <-]. rewrite (visibility_hide_run _ _ _ He).
      rewrite decide_True by done. unfold dispatches. split_and!; [done | lia | lia].
    + intros Hup.
      set (e1 := Element.with_classes (Element._classes e ++ ["hidden"]) e) in *.
      assert (elems st1 !! self = Some e1) as He1.
      { rewrite (update_elems _ _ _ _ Hup). apply lookup_set_element. }
      rewrite (visibility_hide_run _ _ _ He1).
      rewrite decide_True by (simpl; apply elem_of_app; right; left).
      split_and!; [done | | done].
      destruct (update_effect _ _ _ _ Hup) as (_ & _ & _ & Hd).
      unfold dispatches in *. by rewrite emitted_set_element in Hd.
  - intros t Ht Hh.
    rewrite (visibility_hide _ _ _ _ He Ht Hh), (visibility_show _ _ _ _ He Ht Hh).
    destruct (decide ("hidden" ∈ Element._classes e)) as [Hin|Hnin].
    + split; eexists; (split; [done |]).
      * unfold dispatches. lia.
      * by rewrite dispatches_updated.
    + split; eexists; (split; [done |]).
      * by rewrite dispatches_updated.
      * unfold dispatches. lia.
Qed.

Lemma visibility_toggle_idempotent_witness :
  elems (page true) !! 0 = Some page_div
  ∧ ∀ o1 st1,
      on_visibility_change 0 false (page true) = (o1, st1) →
      on_visibility_change 0 false st1 = (Return (), st1)
      ∧ dispatches (page true) st1 ≤ 1
      ∧ ("hidden" ∈ Element._classes page_div → dispatches (page true) st1 = 0).
Proof.
  split; [apply page_div_lookup |].
  exact (proj1 (proj2 (proj2 (proj2 (proj2
           (visibility_toggle_idempotent (page true) 0 page_div
              (page_div_lookup true))))))).
Defined.

(** ** [to_dict] *)

Lemma args_of_type_absent (ty : string) (ls : list EventListener.t) :
  ty ∉ map EventListener.type ls → args_of_type ty ls = [].
Proof.
  unfold args_of_type. induction ls as [|l ls IH]; [done |].
  cbn [map]. intros [Hne Hn]%not_elem_of_cons.
  rewrite filter_cons_False by congruence. by apply IH.
Qed.

Lemma merge_listeners_get (ty : string) (ls : list EventListener.t)
    (events : list (string * list string)) :
  Dict.get ty (foldl merge_listener events ls)
  = if decide (ty ∈ map EventListener.type ls)
    then Some (default [] (Dict.get ty events) ++ args_of_type ty ls)
    else Dict.get ty events.
Proof.
  revert events. induction ls as [|l ls IH]; intros events.
  - done.
  - cbn [foldl map]. rewrite IH. unfold merge_listener.
    rewrite !dict_get_set. unfold args_of_type.
    destruct (decide (ty = EventListener.type l)) as [->|Hne].
    + rewrite filter_cons_True by done. cbn [map concat default].
      rewrite (decide_True (P := _ ∈ _ :: _)) by left.
      destruct (decide (_ ∈ map _ ls)) as [Hin|Hnin].
      * by rewrite app_assoc.
      * fold (args_of_type (EventListener.type l) ls).
        rewrite args_of_type_absent by done. by rewrite app_nil_r.
    + rewrite filter_cons_False by congruence.
      destruct (decide (_ ∈ map _ ls)) as [Hin|Hnin].
      * rewrite decide_True; [done | by right].
      * rewrite decide_False; [done |].
        intros [?|?]%elem_of_cons; done.
Qed.

Lemma merge_listeners_NoDup (ls : list EventListener.t)
    (events : list (string * list string)) :
  NoDup (Dict.keys events) → NoDup (Dict.keys (foldl merge_listener events ls)).
Proof.
  revert events. induction ls as [|l ls IH]; intros events Hnd; [done |].
  apply IH. by apply dict_keys_set_NoDup.
Qed.

(** C9: the field [events] of [to_dict()] has one entry for every
    registered event type and none for any other; the entry of a type holds
    the argument lists of all listeners of that type, one after the other
    in the order of registration; no type has two entries. *)
Theorem to_dict_events_merged (self : nat) (e : Element.t) (ty : string) :
  let events := Wire.events (to_dict self e) in
  let listeners := Element._event_listeners e in
  NoDup (Dict.keys events)
  ∧ (ty ∈ Dict.keys events ↔ ty ∈ map EventListener.type listeners)
  ∧ Dict.get ty events
    = if decide (ty ∈ map EventListener.type listeners)
      then Some (args_of_type ty listeners)
      else None.
Proof.
  cbn zeta. unfold to_dict. cbn [Wire.events].
  assert (Dict.get ty (foldl merge_listener [] (Element._event_listeners e))
          = if decide (ty ∈ map EventListener.type (Element._event_listeners e))
            then Some (args_of_type ty (Element._event_listeners e))
            else None) as Hget by (by rewrite merge_listeners_get).
  split_and!; [| | done].
  - apply merge_listeners_NoDup, NoDup_nil_2.
  - destruct (decide (ty ∈ map _ _)) as [Hin|Hnin].
    + split; [done | intros _].
      destruct (decide (ty ∈ Dict.keys (foldl merge_listener []
                                          (Element._event_listeners e))))
        as [|Hno]; [done |].
      apply dict_get_None in Hno. congruence.
    + apply dict_get_None in Hget. tauto.
Qed.

(** ** [style] *)

Lemma with_style_same e : Element.with_style (Element._style e) e = e.
Proof. by destruct e. Qed.

Lemma parse_style_NoDup text d :
  parse_style text = Return d → NoDup (Dict.keys d).
Proof.
  unfold parse_style. destruct (Str.truthy text).
  - destruct (pairs_of_words _); [| done].
    intros [= <-]. apply dict_of_pairs_NoDup.
  - intros [= <-]. apply NoDup_nil_2.
Qed.

Lemma style_del_live_absent st self e k :
  elems st !! self = Some e → Element._style e !! k = None →
  style_del self Live k st = (Raise (KeyError k), st).
Proof.
  intros He Hk. unfold style_del, bind.
  by rewrite (get_element_Some _ _ _ He), Hk.
Qed.

Lemma style_del_live_present st self e k :
  elems st !! self = Some e → is_Some (Element._style e !! k) →
  style_del self Live k st
  = (Return Live,
     set_element self (Element.with_style (delete k (Element._style e)) e) st).
Proof.
  intros He [v Hk]. unfold style_del, bind.
  by rewrite (get_element_Some _ _ _ He), Hk.
Qed.

(** Deleting keys that are all there, through the alias: every deletion is
    made in [self._style]. *)
Lemma style_del_live_all self ks : ∀ st e,
  elems st !! self = Some e → NoDup ks →
  (∀ k, k ∈ ks → is_Some (Element._style e !! k)) →
  for_each (style_del self) Live ks st
  = (Return Live,
     set_element self (Element.with_style (del_keys ks (Element._style e)) e) st).
Proof.
  induction ks as [|k ks IH]; intros st e He Hnd Hks.
  - simpl. unfold ret. by rewrite with_style_same, set_element_same.
  - apply NoDup_cons in Hnd as [Hk Hnd].
    cbn [for_each]. unfold bind.
    rewrite (style_del_live_present _ _ e) by (done || apply Hks; left).
    set (e1 := Element.with_style (delete k (Element._style e)) e).
    rewrite (IH _ e1); [| apply lookup_set_element | done |].
    + by rewrite set_element_twice.
    + intros k' Hk'. simpl. rewrite lookup_delete_ne by (by intros ->).
      apply Hks. by right.
Qed.

(** Deleting keys the first absent of which is [k]: the keys before [k]
    are gone from [self._style] when [KeyError] is raised. *)
Lemma style_del_live_prefix self pre k post st e :
  elems st !! self = Some e → NoDup (pre ++ k :: post) →
  (∀ k', k' ∈ pre → is_Some (Element._style e !! k')) →
  Element._style e !! k = None →
  for_each (style_del self) Live (pre ++ k :: post) st
  = (Raise (KeyError k),
     set_element self (Element.with_style (del_keys pre (Element._style e)) e) st).
Proof.
  intros He Hnd Hpre Hk. rewrite for_each_app. unfold bind.
  apply NoDup_app in Hnd as (Hnd & Hdis & _).
  rewrite (style_del_live_all self pre st e) by done.
  cbn [for_each]. unfold bind.
  rewrite (style_del_live_absent _ _
             (Element.with_style (del_keys pre (Element._style e)) e));
    [done | apply lookup_set_element |].
  simpl. clear -Hk. revert Hk. generalize (Element._style e).
  induction pre as [|k' pre IH]; intros m Hk; [done |].
  simpl. apply IH. rewrite lookup_delete_None. by right.
Qed.

Lemma first_absent {V} (m : gmap string V) (ks : list string) :
  (∃ k, k ∈ ks ∧ m !! k = None) →
  ∃ pre k post,
    ks = pre ++ k :: post ∧ m !! k = None
    ∧ ∀ k', k' ∈ pre → is_Some (m !! k').
Proof.
  induction ks as [|k0 ks IH]; intros (k & Hin & Hk).
  - by apply elem_of_nil in Hin.
  - destruct (m !! k0) as [v|] eqn:Hk0.
    + destruct IH as (pre & k1 & post & -> & Hk1 & Hpre).
      { exists k. split; [| done].
        apply elem_of_cons in Hin as [->|Hin]; [congruence | done]. }
      exists (k0 :: pre), k1, post. split_and!; [done | done |].
      intros k' [->|Hk']%elem_of_cons; [by eexists | by apply Hpre].
    + exists [], k0, ks. split_and!; [done | done |].
      by intros k' ?%elem_of_nil.
Qed.

Lemma style_update_live st self e other :
  elems st !! self = Some e →
  style_update self Live other st
  = (Return Live,
     set_element self (Element.with_style (overlay other (Element._style e)) e) st).
Proof.
  intros He. unfold style_update, bind.
  by rewrite (get_element_Some _ _ _ He).
Qed.

Lemma del_keys_lookup_None {V} (ks : list string) (m : gmap string V) (k : string) :
  k ∈ ks → del_keys ks m !! k = None.
Proof.
  revert m. induction ks as [|k0 ks IH]; intros m Hin.
  - by apply elem_of_nil in Hin.
  - simpl. destruct (decide (k ∈ ks)) as [Hks|Hks]; [by apply IH |].
    apply elem_of_cons in Hin as [->|Hin]; [| done].
    clear IH Hks. revert m. induction ks as [|k1 ks IH]; intros m; simpl.
    + apply lookup_delete_eq.
    + destruct (decide (k0 = k1)) as [->|Hne].
      * by rewrite delete_delete_eq.
      * rewrite delete_delete. apply IH.
Qed.

Lemma del_keys_lookup_other {V} (ks : list string) (m : gmap string V) (k : string) :
  k ∉ ks → del_keys ks m !! k = m !! k.
Proof.
  revert m. induction ks as [|k0 ks IH]; intros m Hin; [done |].
  apply not_elem_of_cons in Hin as [Hne Hin]. simpl.
  rewrite IH by done. by apply lookup_delete_ne.
Qed.

(** A call of [style] without [replace] whose strings parse and whose
    removals succeed: every change is made in [self._style], and [update]
    is not called. *)
Lemma style_live_ok st self e add remove rm ad :
  elems st !! self = Some e →
  parse_style remove = Return rm →
  parse_style add = Return ad →
  (∀ k, k ∈ Dict.keys rm → is_Some (Element._style e !! k)) →
  style self add remove None st
  = (Return self,
     set_element self
       (Element.with_style
          (overlay ad (del_keys (Dict.keys rm) (Element._style e))) e)
       st).
Proof.
  intros He Hrm Had Hks. unfold style, bind, lift. rewrite Hrm.
  rewrite (style_del_live_all self _ st e)
    by (done || by eapply parse_style_NoDup).
  rewrite Had.
  erewrite style_update_live by apply lookup_set_element.
  change (parse_style None) with (Return (@nil (string * string))).
  cbv beta iota.
  erewrite style_update_live by apply lookup_set_element.
  rewrite !set_element_twice, get_element_set. done.
Qed.

Lemma styled_span_lookup : elems styled_page !! 1 = Some styled_span.
Proof. by vm_compute. Qed.

(** C2: [style(remove=r)] for an [r] that parses. If a key of [r] is not
    in the style of the element, the call raises [KeyError]; if every key
    of [r] is there, the call returns, these keys are gone from the style
    and from the field [style] of [to_dict()], and the other keys are as
    before. *)
Theorem style_remove_lookup_error st self e remove d :
  elems st !! self = Some e →
  parse_style remove = Return d →
  ((∃ k, k ∈ Dict.keys d ∧ Element._style e !! k = None) →
   ∃ k st',
     k ∈ Dict.keys d ∧ Element._style e !! k = None
     ∧ style self None remove None st = (Raise (KeyError k), st'))
  ∧ ((∀ k, k ∈ Dict.keys d → is_Some (Element._style e !! k)) →
     ∃ st' e',
       style self None remove None st = (Return self, st')
       ∧ elems st' !! self = Some e'
       ∧ (∀ k, k ∈ Dict.keys d →
            Element._style e' !! k = None
            ∧ Wire.style (to_dict self e') !! k = None)
       ∧ (∀ k, k ∉ Dict.keys d →
            Element._style e' !! k = Element._style e !! k)).
Proof.
  intros He Hd. split.
  - intros Habsent.
    destruct (first_absent _ _ Habsent) as (pre & k & post & Hks & Hk & Hpre).
    exists k. eexists. split_and!; [rewrite Hks; set_solver | done |].
    unfold style, bind, lift. rewrite Hd, Hks.
    rewrite (style_del_live_prefix self pre k post st e); [done | done | | done | done].
    rewrite <- Hks. by eapply parse_style_NoDup.
  - intros Hks.
    rewrite (style_live_ok st self e None remove d []) by done.
    eexists _, _. split_and!; [done | apply lookup_set_element | |].
    + intros k Hk. simpl. by rewrite del_keys_lookup_None.
    + intros k Hk. simpl. by apply del_keys_lookup_other.
Qed.

Lemma style_remove_lookup_error_witness :
  elems styled_page !! 1 = Some styled_span
  ∧ parse_style (Some "color:") = Return [("color", "")]
  ∧ ∃ st' e',
      style 1 None (Some "color:") None styled_page = (Return 1, st')
      ∧ elems st' !! 1 = Some e'
      ∧ (∀ k, k ∈ Dict.keys [("color", "")] →
           Element._style e' !! k = None
           ∧ Wire.style (to_dict 1 e') !! k = None)
      ∧ (∀ k, k ∉ Dict.keys [("color", "")] →
           Element._style e' !! k = Element._style styled_span !! k).
Proof.
  split_and!; [apply styled_span_lookup | reflexivity |].
  apply (style_remove_lookup_error styled_page 1 styled_span (Some "color:")
           [("color", "")]); [apply styled_span_lookup | reflexivity |].
  intros k Hk. apply list_elem_of_singleton in Hk as ->.
  vm_compute. by eexists.
Defined.

(** C6: [style] without [replace] is not atomic. When [k] is the first key
    of [remove] that the style of the element does not have, the call
    raises [KeyError] for [k], and the keys of [remove] before [k] are gone
    from the style all the same: [style_dict] is [self._style] itself, and
    nothing restores it. *)
Theorem style_remove_not_atomic st self e add remove d pre k post :
  elems st !! self = Some e →
  parse_style remove = Return d →
  Dict.keys d = pre ++ k :: post →
  (∀ k', k' ∈ pre → is_Some (Element._style e !! k')) →
  Element._style e !! k = None →
  ∃ st' e',
    style self add remove None st = (Raise (KeyError k), st')
    ∧ elems st' !! self = Some e'
    ∧ Element._style e' = del_keys pre (Element._style e)
    ∧ (∀ k', k' ∈ pre → Element._style e' !! k' = None)
    ∧ emitted st' = emitted st.
Proof.
  intros He Hd Hks Hpre Hk. eexists _, _.
  unfold style, bind, lift. rewrite Hd, Hks.
  rewrite (style_del_live_prefix self pre k post st e); [| done | | done | done].
  - split_and!; [done | apply lookup_set_element | done | | done].
    intros k' Hk'. simpl. by apply del_keys_lookup_None.
  - rewrite <- Hks. by eapply parse_style_NoDup.
Qed.

Lemma style_remove_not_atomic_witness :
  elems styled_page !! 1 = Some styled_span
  ∧ parse_style (Some "color:;zz:;width:")
    = Return [("color", ""); ("zz", ""); ("width", "")]
  ∧ Element._style styled_span !! "zz" = None
  ∧ ∃ st' e',
      style 1 None (Some "color:;zz:;width:") None styled_page
      = (Raise (KeyError "zz"), st')
      ∧ elems st' !! 1 = Some e'
      ∧ Element._style e' = del_keys ["color"] (Element._style styled_span)
      ∧ (∀ k', k' ∈ ["color"] → Element._style e' !! k' = None)
      ∧ emitted st' = emitted styled_page.
Proof.
  split_and!; [apply styled_span_lookup | reflexivity | reflexivity |].
  apply (style_remove_not_atomic styled_page 1 styled_span None
           (Some "color:;zz:;width:")
           [("color", ""); ("zz", ""); ("width", "")] ["color"] "zz" ["width"]);
    [apply styled_span_lookup | reflexivity | reflexivity | | reflexivity].
  intros k' Hk'. apply list_elem_of_singleton in Hk' as ->.
  vm_compute. by eexists.
Defined.

(** *** The alias of [style_dict] and the call of [update] *)

Lemma style_del_live_frame self k st o st' :
  style_del self Live k st = (o, st') →
  emitted st' = emitted st ∧ ∀ sd, o = Return sd → sd = Live.
Proof.
  unfold style_del, bind, get_element.
  destruct (elems st !! self) as [e|]; [| by intros [= <- <-]].
  destruct (Element._style e !! k); intros [= <- <-];
    (split; [done | congruence]).
Qed.

Lemma style_update_live_frame self other st o st' :
  style_update self Live other st = (o, st') →
  emitted st' = emitted st ∧ ∀ sd, o = Return sd → sd = Live.
Proof.
  unfold style_update, bind, get_element.
  destruct (elems st !! self) as [e|]; intros [= <- <-];
    (split; [done | congruence]).
Qed.

Lemma style_del_all_live_frame self ks : ∀ st o st',
  for_each (style_del self) Live ks st = (o, st') →
  emitted st' = emitted st ∧ ∀ sd, o = Return sd → sd = Live.
Proof.
  induction ks as [|k ks IH]; intros st o st'.
  - intros [= <- <-]. split; congruence.
  - cbn [for_each]. unfold bind.
    destruct (style_del self Live k st) as [[sd1|x] st1] eqn:H1;
      apply style_del_live_frame in H1 as [Hem1 Hsd1].
    + rewrite (Hsd1 sd1 eq_refl). intros [Hem Hsd]%IH.
      split; [congruence | done].
    + intros [= <- <-]. split; congruence.
Qed.

(** Without [replace], [style] creates no task, whatever it does to the
    style of the element. *)
Lemma style_live_no_task self add remove st o st' :
  style self add remove None st = (o, st') → emitted st' = emitted st.
Proof.
  unfold style, bind, lift.
  destruct (parse_style remove) as [rm|x]; [| by intros [= <- <-]].
  destruct (for_each _ _ _ _) as [[sd1|x] st1] eqn:H1;
    apply style_del_all_live_frame in H1 as [Hem1 Hsd1];
    [| intros [= <- <-]; congruence].
  rewrite (Hsd1 sd1 eq_refl).
  destruct (parse_style add) as [ad|x]; [| intros [= <- <-]; congruence].
  destruct (style_update self Live ad st1) as [[sd2|x] st2] eqn:H2;
    apply style_update_live_frame in H2 as [Hem2 Hsd2];
    [| intros [= <- <-]; congruence].
  rewrite (Hsd2 sd2 eq_refl).
  change (parse_style None) with (Return (@nil (string * string))).
  cbv beta iota.
  destruct (style_update self Live [] st2) as [[sd3|x] st3] eqn:H3;
    apply style_update_live_frame in H3 as [Hem3 Hsd3];
    [| intros [= <- <-]; congruence].
  rewrite (Hsd3 sd3 eq_refl).
  unfold get_element. destruct (elems st3 !! self);
    intros [= <- <-]; congruence.
Qed.

(** With [replace], [style] works on a dictionary of its own and calls
    [update] exactly when the style it has put together differs from the
    style of the element: the call is the assignment followed by [update]
    then, and does nothing otherwise. With the slots below the element a
    tree that [collect_ids] can walk, the call returns the element, and one
    task is created if the style differs and a loop runs. *)
Lemma style_replace_dispatch st self e add r ad rp :
  elems st !! self = Some e →
  parse_style add = Return ad →
  parse_style (Some r) = Return rp →
  let new_style := overlay rp (overlay ad ∅) in
  style self add None (Some r) st
  = (if decide (Element._style e = new_style) then (Return self, st)
     else
       match update self (set_element self (Element.with_style new_style e) st) with
       | (Return _, st') => (Return self, st')
       | (Raise x, st') => (Raise x, st')
       end)
  ∧ ∀ t,
      owned_tree (elems st) self t →
      height t ≤ S (recursion_depth st) →
      ∃ st',
        style self add None (Some r) st = (Return self, st')
        ∧ elems st' = <[self := Element.with_style new_style e]> (elems st)
        ∧ dispatches st st'
          = if decide (Element._style e = new_style) then 0
            else if loop st then 1 else 0.
Proof.
  intros He Had Hrp. cbn zeta.
  assert (style self add None (Some r) st
          = if decide (Element._style e = overlay rp (overlay ad ∅))
            then (Return self, st)
            else
              match update self
                      (set_element self
                         (Element.with_style (overlay rp (overlay ad ∅)) e) st)
              with
              | (Return _, st') => (Return self, st')
              | (Raise x, st') => (Raise x, st')
              end) as Hrun.
  { unfold style, bind, lift.
    change (parse_style None) with (Return (@nil (string * string))).
    cbn [for_each Dict.keys fmap list_fmap]. unfold ret at 1. cbv beta iota.
    rewrite Had. unfold style_update at 1 2. unfold ret at 1. cbv beta iota.
    rewrite Hrp. unfold ret at 1. cbv beta iota.
    rewrite (get_element_Some _ _ _ He).
    destruct (decide (Element._style e = overlay rp (overlay ad ∅))) as [Heq|Hne].
    - by rewrite decide_False by (by intros []).
    - rewrite decide_True by done. unfold put_element.
      fold (set_element self
              (Element.with_style (overlay rp (overlay ad ∅)) e) st).
      by destruct (update _ _) as [[[]|x] st']. }
  split; [exact Hrun |].
  intros t Ht Hh. rewrite Hrun.
  destruct (decide (Element._style e = overlay rp (overlay ad ∅))) as [Heq|Hne].
  - exists st. split_and!; [done | | unfold dispatches; lia].
    rewrite <- Heq, with_style_same. by rewrite insert_id.
  - rewrite (update_owned_tree _ self t)
      by (done || by eapply owned_tree_set_element).
    eexists. split_and!; [done | |].
    + by rewrite elems_updated.
    + by rewrite dispatches_updated.
Qed.

(** C1, as the code has it: without [replace] the dictionary [style_dict]
    is [self._style] itself, the comparison [self._style != style_dict] is
    never true, and no call of [style] creates a task; so
    [style(add="color:red")] on the [span] of the page, with a loop running,
    changes the style from empty to [color: red] and creates no task. *)
Theorem style_alias_skips_update :
  (∀ self add remove st o st',
      style self add remove None st = (o, st') → emitted st' = emitted st)
  ∧ ∃ e e' st',
      loop (page true) = true
      ∧ style 1 (Some "color:red") None None (page true) = (Return 1, st')
      ∧ elems (page true) !! 1 = Some e ∧ Element._style e = ∅
      ∧ elems st' !! 1 = Some e' ∧ Element._style e' = {["color" := "red"]}
      ∧ Element._style e' ≠ Element._style e
      ∧ dispatches (page true) st' = 0.
Proof.
  split; [intros *; apply style_live_no_task |].
  eexists _, _, _.
  split_and!; [reflexivity | by vm_compute | by vm_compute | reflexivity
              | by vm_compute | by vm_compute | | by vm_compute].
  apply (bool_decide_eq_false_1 (_ = _)). by vm_compute.
Qed.

(** ** [props] *)

Lemma with_props_same e : Element.with_props (Element._props e) e = e.
Proof. by destruct e. Qed.

Lemma overlay_lookup_other {V} (other : list (string * V)) (m : gmap string V) k :
  k ∉ Dict.keys other → overlay other m !! k = m !! k.
Proof.
  unfold overlay, Dict.keys. revert m.
  induction other as [|[k0 v0] other IH]; intros m Hk; [done |].
  csimpl in *. apply not_elem_of_cons in Hk as [Hne Hk].
  rewrite IH by done. by apply lookup_insert_ne.
Qed.

Lemma overlay_lookup_elem_of {V} (other : list (string * V)) (m : gmap string V) k v :
  NoDup (Dict.keys other) → (k, v) ∈ other → overlay other m !! k = Some v.
Proof.
  unfold Dict.keys. revert m.
  induction other as [|[k0 v0] other IH]; intros m Hnd Hin.
  - by apply elem_of_nil in Hin.
  - csimpl in *. apply NoDup_cons in Hnd as [Hk0 Hnd].
    apply elem_of_cons in Hin as [[= -> ->]|Hin].
    + unfold overlay. simpl. fold (overlay other (<[k0:=v0]> m)).
      rewrite overlay_lookup_other by done. apply lookup_insert_eq.
    + unfold overlay. simpl. fold (overlay other (<[k0:=v0]> m)).
      by apply IH.
Qed.

(** The loop over the keys to remove: absent keys are skipped, and the
    flag is raised exactly when a key was there. *)
Lemma props_remove_all self ks : ∀ st e b,
  elems st !! self = Some e →
  ∃ b',
    for_each (props_remove self) b ks st
    = (Return b',
       set_element self
         (Element.with_props (del_keys ks (Element._props e)) e) st)
    ∧ (b' = true ↔
       b = true ∨ ∃ k, k ∈ ks ∧ is_Some (Element._props e !! k)).
Proof.
  induction ks as [|k ks IH]; intros st e b He.
  - exists b. split.
    + simpl. unfold ret. by rewrite with_props_same, set_element_same.
    + split; [by left |]. intros [?|(k & ?%elem_of_nil & _)]; done.
  - cbn [for_each]. unfold bind, props_remove at 1, bind.
    rewrite (get_element_Some _ _ _ He).
    destruct (Element._props e !! k) as [v|] eqn:Hk.
    + unfold put_element, ret.
      fold (set_element self
              (Element.with_props (delete k (Element._props e)) e) st).
      set (e1 := Element.with_props (delete k (Element._props e)) e).
      destruct (IH (set_element self e1 st) e1 true) as (b' & Hrun & Hb');
        [apply lookup_set_element |].
      exists b'. split.
      * rewrite Hrun. by rewrite set_element_twice.
      * split; [intros _ | intros _; apply Hb'; by left].
        right. exists k. split; [left | by eexists].
    + unfold ret.
      destruct (IH st e b He) as (b' & Hrun & Hb').
      exists b'. split.
      * rewrite Hrun. simpl. by rewrite delete_id.
      * rewrite Hb'. split; intros [?|(k' & Hin & Hsome)]; try by left.
        -- right. exists k'. split; [by right | done].
        -- right. exists k'. split; [| done].
           apply elem_of_cons in Hin as [->|Hin]; [| done].
           rewrite Hk in Hsome. by destruct Hsome.
Qed.

(** The loop over the items to add: the flag is raised exactly when an
    item differs from what the element has. *)
Lemma props_add_all self items : ∀ st e b,
  elems st !! self = Some e →
  ∃ b',
    for_each (props_add self) b items st
    = (Return b',
       set_element self
         (Element.with_props (overlay items (Element._props e)) e) st)
    ∧ (b' = true ↔
       b = true ∨ ∃ kv, kv ∈ items ∧ Element._props e !! kv.1 ≠ Some kv.2).
Proof.
  induction items as [|[k v] items IH]; intros st e b He.
  - exists b. split.
    + simpl. unfold ret. by rewrite with_props_same, set_element_same.
    + split; [by left |]. intros [?|(kv & ?%elem_of_nil & _)]; done.
  - cbn [for_each]. unfold bind, props_add at 1, bind.
    rewrite (get_element_Some _ _ _ He). cbn [fst snd].
    destruct (decide (Element._props e !! k ≠ Some v)) as [Hne|Heq].
    + unfold put_element, ret.
      fold (set_element self
              (Element.with_props (<[k:=v]> (Element._props e)) e) st).
      set (e1 := Element.with_props (<[k:=v]> (Element._props e)) e).
      destruct (IH (set_element self e1 st) e1 true) as (b' & Hrun & Hb');
        [apply lookup_set_element |].
      exists b'. split.
      * rewrite Hrun. by rewrite set_element_twice.
      * split; [intros _ | intros _; apply Hb'; by left].
        right. exists (k, v). split; [left | done].
    + unfold ret. apply dec_stable in Heq.
      destruct (IH st e b He) as (b' & Hrun & Hb').
      exists b'. split.
      * rewrite Hrun. unfold overlay at 2. simpl.
        by rewrite (insert_id _ _ _ Heq).
      * rewrite Hb'. split; intros [?|(kv & Hin & Hkv)]; try by left.
        -- right. exists kv. split; [by right | done].
        -- right. exists kv. split; [| done].
           apply elem_of_cons in Hin as [->|Hin]; [| done].
           simpl in Hkv. congruence.
Qed.

Lemma del_keys_absent {V} (ks : list string) (m : gmap string V) :
  (∀ k, k ∈ ks → m !! k = None) → del_keys ks m = m.
Proof.
  induction ks as [|k ks IH]; intros Hks; [done |].
  simpl. rewrite delete_id by (apply Hks; left).
  apply IH. intros k' Hk'. apply Hks. by right.
Qed.

Lemma overlay_agree {V} (other : list (string * V)) (m : gmap string V) :
  (∀ kv, kv ∈ other → m !! kv.1 = Some kv.2) → overlay other m = m.
Proof.
  unfold overlay. induction other as [|kv other IH]; intros Hkv; [done |].
  simpl. rewrite insert_id by (apply Hkv; left).
  apply IH. intros kv' Hin. apply Hkv. by right.
Qed.

Section props_facts.
Variable lexer : string → outcome (list string).

Lemma parse_props_NoDup text d :
  parse_props lexer text = Return d → NoDup (Dict.keys d).
Proof.
  unfold parse_props. destruct (Str.truthy text).
  - destruct (lexer _); [| done]. intros [= <-]. apply dict_of_pairs_NoDup.
  - intros [= <-]. apply NoDup_nil_2.
Qed.

(** What a call of [props] does when its strings parse, with the call of
    [update] left as it is. *)
Lemma props_run st self e add remove rm ad :
  elems st !! self = Some e →
  parse_props lexer remove = Return rm →
  parse_props lexer add = Return ad →
  let removed := del_keys (Dict.keys rm) (Element._props e) in
  let st2 :=
    set_element self (Element.with_props (overlay ad removed) e) st in
  ∃ b,
    (b = true ↔
     (∃ k, k ∈ Dict.keys rm ∧ is_Some (Element._props e !! k))
     ∨ (∃ kv, kv ∈ ad ∧ removed !! kv.1 ≠ Some kv.2))
    ∧ props lexer self add remove st
      = if b then
          match update self st2 with
          | (Return _, st') => (Return self, st')
          | (Raise x, st') => (Raise x, st')
          end
        else (Return self, st2).
Proof.
  intros He Hrm Had removed st2.
  set (e1 := Element.with_props removed e).
  destruct (props_remove_all self (Dict.keys rm) st e false He)
    as (b1 & Hrun1 & Hb1).
  destruct (props_add_all self ad (set_element self e1 st) e1 b1)
    as (b2 & Hrun2 & Hb2); [apply lookup_set_element |].
  rewrite set_element_twice in Hrun2.
  exists b2. split.
  - rewrite Hb2, Hb1. split.
    + intros [[?|?]|?]; [done | by left | by right].
    + intros [?|?]; [left; by right | by right].
  - unfold props, bind, lift. rewrite Hrm, Hrun1. fold removed. fold e1.
    rewrite Had, Hrun2. destruct b2; [| done].
    change (Element.with_props (overlay ad (Element._props e1)) e1)
      with (Element.with_props (overlay ad removed) e).
    fold st2. by destruct (update self st2) as [[[]|x] st'].
Qed.

(** A string [remove] that the lexer refuses: [props] raises before it
    touches the element. *)
Lemma props_remove_unparsable st self add remove x :
  parse_props lexer remove = Raise x →
  props lexer self add remove st = (Raise x, st).
Proof. intros Hrm. unfold props, bind, lift. by rewrite Hrm. Qed.

(** A string [add] that the lexer refuses: [props] raises when the keys of
    [remove] have been deleted, and does not reach [update]. *)
Lemma props_add_unparsable st self e add remove rm x :
  elems st !! self = Some e →
  parse_props lexer remove = Return rm →
  parse_props lexer add = Raise x →
  props lexer self add remove st
  = (Raise x,
     set_element self
       (Element.with_props (del_keys (Dict.keys rm) (Element._props e)) e) st).
Proof.
  intros He Hrm Had.
  destruct (props_remove_all self (Dict.keys rm) st e false He)
    as (b1 & Hrun1 & _).
  unfold props, bind, lift. by rewrite Hrm, Hrun1, Had.
Qed.

(** C5, amended: [props(add, remove)] for strings that the lexer splits.
    The keys of [remove] that the element does not have are skipped and
    raise nothing, the keys it has are deleted, the items of [add] are
    set; [update] is called exactly when a key was deleted or an item of
    [add] differed from the value the element had for its key -- the call
    is then the change followed by [update], and leaves the state as it is
    otherwise. With the slots below the element a tree that [collect_ids]
    can walk, the call returns the element and [update] creates one task
    if a loop runs. A string [remove] that the lexer refuses makes the
    call raise at once; a string [add] that it refuses makes the call
    raise when the keys of [remove] are deleted, without any [update]. *)
Theorem props_remove_lenient st self e add remove :
  elems st !! self = Some e →
  (∀ x, parse_props lexer remove = Raise x →
     props lexer self add remove st = (Raise x, st))
  ∧ (∀ rm x,
       parse_props lexer remove = Return rm →
       parse_props lexer add = Raise x →
       props lexer self add remove st
       = (Raise x,
          set_element self
            (Element.with_props (del_keys (Dict.keys rm) (Element._props e)) e)
            st))
  ∧ (∀ rm ad,
       parse_props lexer remove = Return rm →
       parse_props lexer add = Return ad →
       let removed := del_keys (Dict.keys rm) (Element._props e) in
       let changed :=
         (∃ k, k ∈ Dict.keys rm ∧ is_Some (Element._props e !! k))
         ∨ (∃ kv, kv ∈ ad ∧ removed !! kv.1 ≠ Some kv.2) in
       let e' := Element.with_props (overlay ad removed) e in
       (∀ k v, (k, v) ∈ ad → Element._props e' !! k = Some v)
       ∧ (∀ k, k ∉ Dict.keys ad →
            Element._props e' !! k
            = if decide (k ∈ Dict.keys rm) then None else Element._props e !! k)
       ∧ (¬ changed →
          Element._props e' = Element._props e
          ∧ props lexer self add remove st = (Return self, st))
       ∧ (changed →
          props lexer self add remove st
          = match update self (set_element self e' st) with
            | (Return _, st') => (Return self, st')
            | (Raise x, st') => (Raise x, st')
            end)
       ∧ (∀ t,
            owned_tree (elems st) self t →
            height t ≤ S (recursion_depth st) →
            ∃ st',
              props lexer self add remove st = (Return self, st')
              ∧ elems st' !! self = Some e'
              ∧ (changed → dispatches st st' = if loop st then 1 else 0)
              ∧ (¬ changed → dispatches st st' = 0)
              ∧ (loop st = true → (dispatches st st' = 1 ↔ changed)))).
Proof.
  intros He. split_and!.
  - intros x. apply props_remove_unparsable.
  - intros rm x. by apply props_add_unparsable.
  - intros rm ad Hrm Had removed changed e'.
    destruct (props_run st self e add remove rm ad He Hrm Had)
      as (b & Hb & Hrun).
    fold removed in Hb, Hrun. fold changed in Hb. fold e' in Hrun.
    assert (¬ changed → Element._props e' = Element._props e) as Hsame.
    { intros Hch. simpl.
      assert (removed = Element._props e) as Hrem.
      { apply del_keys_absent. intros k Hk.
        destruct (Element._props e !! k) eqn:Hlk; [| done].
        destruct Hch. left. exists k. split; [done | by eexists]. }
      rewrite Hrem. apply overlay_agree. intros kv Hin.
      destruct (decide (Element._props e !! kv.1 = Some kv.2)) as [|Hne];
        [done |].
      destruct Hch. right. exists kv. split; [done |]. by rewrite Hrem. }
    split_and!.
    + intros k v Hin. simpl. apply overlay_lookup_elem_of; [| done].
      by eapply parse_props_NoDup.
    + intros k Hk. simpl. rewrite overlay_lookup_other by done. unfold removed.
      case_decide; [by apply del_keys_lookup_None | by apply del_keys_lookup_other].
    + intros Hch. split; [by apply Hsame |].
      rewrite Hrun. destruct b; [by destruct Hch; apply Hb |].
      f_equal. unfold e'.
      assert (overlay ad removed = Element._props e) as -> by exact (Hsame Hch).
      by rewrite with_props_same, set_element_same.
    + intros Hch. rewrite Hrun. by rewrite (proj2 Hb Hch).
    + intros t Ht Hh. rewrite Hrun. destruct b.
      * assert changed as Hch by (by apply Hb).
        rewrite (update_owned_tree _ self t)
          by (done || by eapply owned_tree_set_element).
        eexists. split_and!; [done | | | done |].
        -- rewrite elems_updated. apply lookup_set_element.
        -- intros _. by rewrite dispatches_updated.
        -- intros Hloop. rewrite dispatches_updated by done. simpl.
           by rewrite Hloop.
      * assert (¬ changed) as Hch by (rewrite <- Hb; done).
        assert (dispatches st (set_element self e' st) = 0) as Hzero
          by (unfold dispatches; simpl; lia).
        eexists. split_and!; [done | apply lookup_set_element | done | done |].
        intros _. rewrite Hzero. split; [done | by intros ?%Hch].
Qed.

End props_facts.

Lemma flat_page_div :
  elems flat_page !! 0 = Some (Element.with_props {["flat" := PTrue]} page_div).
Proof. by vm_compute. Qed.

(** C5 as it reads does not hold of the code. On the [div] of the page,
    which has the prop [flat], with a loop running,
    [props(add="label='hi", remove="flat")] deletes [flat] and then raises
    [ValueError] for the quotation that is not closed: a prop was deleted
    and no task is created. And on the outermost of 1002 nested elements
    [props(add="dense")] sets the prop and raises [RecursionError] out of
    [update], again without a task. *)
Lemma props_deletes_without_update :
  (loop flat_page = true
   ∧ (∃ e, elems flat_page !! 0 = Some e ∧ Element._props e !! "flat" = Some PTrue)
   ∧ ∃ st' e',
       props shlex_words 0 (Some "label='hi") (Some "flat") flat_page
       = (Raise ValueError, st')
       ∧ elems st' !! 0 = Some e'
       ∧ Element._props e' !! "flat" = None
       ∧ emitted st' = emitted flat_page)
  ∧ (loop deep_chain = true
     ∧ (∃ e, elems deep_chain !! 0 = Some e ∧ Element._props e !! "dense" = None)
     ∧ ∃ st' e',
         props shlex_words 0 (Some "dense") None deep_chain
         = (Raise RecursionError, st')
         ∧ elems st' !! 0 = Some e'
         ∧ Element._props e' !! "dense" = Some PTrue
         ∧ emitted st' = emitted deep_chain).
Proof.
  split.
  - split; [by vm_compute |].
    split; [eexists; split; [apply flat_page_div | done] |].
    eexists _, _. split_and!.
    + apply (props_add_unparsable shlex_words flat_page 0 _ _ _
               [("flat", PTrue)] ValueError flat_page_div);
        by vm_compute.
    + apply lookup_set_element.
    + done.
    + apply emitted_set_element.
  - split; [by vm_compute |].
    split; [eexists; split; [apply deep_chain_outermost | done] |].
    destruct (props_run shlex_words deep_chain 0 _ (Some "dense") None
                [] [("dense", PTrue)] deep_chain_outermost eq_refl eq_refl)
      as (b & Hb & Hrun).
    assert (b = true) as ->.
    { apply Hb. right. exists ("dense", PTrue). split; [left | done]. }
    cbn zeta in Hrun.
    destruct (update _ _) as [o st1] eqn:Hup.
    assert (o = Raise RecursionError) as ->.
    { change o with (o, st1).1. rewrite <- Hup. by vm_compute. }
    eexists st1, _. split_and!; [exact Hrun | | |].
    + rewrite (update_elems _ _ _ _ Hup). apply lookup_set_element.
    + done.
    + rewrite (proj1 (proj2 (proj2 (update_effect _ _ _ _ Hup))) _ eq_refl).
      apply emitted_set_element.
Qed.

Lemma props_remove_lenient_witness :
  elems (page true) !! 0 = Some page_div
  ∧ ∃ st',
      props shlex_words 0 (Some "dense label='hi there'") (Some "flat") (page true)
      = (Return 0, st')
      ∧ dispatches (page true) st' = 1.
Proof.
  split; [apply page_div_lookup |].
  destruct (proj2 (proj2 (proj2 (proj2
             (proj2 (proj2 (props_remove_lenient shlex_words (page true) 0
                              page_div (Some "dense label='hi there'")
                              (Some "flat") (page_div_lookup true)))
                [("flat", PTrue)]
                [("dense", PTrue); ("label", PStr "hi there")]
                eq_refl eq_refl))))
             page_tree (page_owned_tree true) (page_height true))
    as (st' & Hrun & _ & Hch & _).
  exists st'. split; [exact Hrun |].
  apply Hch. right. exists ("dense", PTrue). split; [left | done].
Defined.

(** ** The batch of [update] *)

Lemma subtrees_self t : t ∈ subtrees t.
Proof. destruct t. left. Qed.

Lemma nodes_root t : root t ∈ nodes t.
Proof. destruct t. left. Qed.

Lemma subtrees_root t a : a ∈ nodes t → ∃ s, s ∈ subtrees t ∧ root s = a.
Proof.
  induction t as [i ks IH] using tree_ind'. simpl.
  intros [->|Hin]%elem_of_cons.
  - exists (Node i ks). split; [left | done].
  - apply elem_of_concat_map in Hin as (k & Hk & Hin).
    rewrite Forall_forall in IH. destruct (IH k Hk Hin) as (s & Hs & Hroot).
    exists s. split; [| done]. right. apply elem_of_concat_map. by exists k.
Qed.

Lemma subtrees_shaped els t s : shaped els t → s ∈ subtrees t → shaped els s.
Proof.
  induction t as [i ks IH] using tree_ind'. intros Hs. simpl.
  intros [->|Hin]%elem_of_cons; [done |].
  apply elem_of_concat_map in Hin as (k & Hk & Hin).
  inversion Hs as [i' e ks' Hi Hroots Hks]; subst.
  rewrite Forall_forall in IH, Hks. by apply (IH k Hk); [apply Hks |].
Qed.

Lemma subtrees_nodes t s a : s ∈ subtrees t → a ∈ nodes s → a ∈ nodes t.
Proof.
  induction t as [i ks IH] using tree_ind'. simpl.
  intros [->|Hin]%elem_of_cons; [done |]. intros Ha.
  apply elem_of_concat_map in Hin as (k & Hk & Hin).
  rewrite Forall_forall in IH. right. apply elem_of_concat_map.
  exists k. split; [done |]. by apply IH.
Qed.

Lemma concat_map_split {A B} (f : A → list B) (l : list A) (k : A) :
  k ∈ l → ∃ l1 l3, concat (map f l) = l1 ++ f k ++ l3.
Proof.
  intros (la & lb & ->)%list_elem_of_split.
  exists (concat (map f la)), (concat (map f lb)).
  by rewrite map_app, concat_app.
Qed.

Lemma subtrees_postorder t s :
  s ∈ subtrees t → ∃ l1 l3, postorder t = l1 ++ postorder s ++ l3.
Proof.
  induction t as [i ks IH] using tree_ind'. simpl.
  intros [->|Hin]%elem_of_cons.
  - exists [], []. by rewrite app_nil_r.
  - apply elem_of_concat_map in Hin as (k & Hk & Hin).
    rewrite Forall_forall in IH. destruct (IH k Hk Hin) as (l1 & l3 & Hpo).
    destruct (concat_map_split postorder ks k Hk) as (p1 & p3 & ->).
    exists (p1 ++ l1), (l3 ++ p3 ++ [i]). rewrite Hpo.
    by rewrite <- !app_assoc.
Qed.

(** A child of the root of a tree is the root of one of its subtrees. *)
Lemma shaped_child els s c :
  shaped els s → child_of els (root s) c → ∃ k, k ∈ kids s ∧ root k = c.
Proof.
  intros Hs (e & He & Hc). inversion Hs as [i e' ks Hi Hroots Hks]; subst.
  simpl in *. rewrite Hi in He. injection He as ->.
  rewrite <- Hroots in Hc. apply list_elem_of_fmap in Hc as (k & -> & Hk).
  by exists k.
Qed.

Lemma kid_nodes k t a : k ∈ kids t → a ∈ nodes k → a ∈ descendants t.
Proof. intros Hk Ha. apply elem_of_concat_map. by exists k. Qed.

Lemma descendants_nodes t a : a ∈ descendants t → a ∈ nodes t.
Proof. destruct t. simpl. by right. Qed.

Lemma kid_shaped els t k : shaped els t → k ∈ kids t → shaped els k.
Proof.
  intros Hs Hk. inversion Hs as [i e ks Hi Hroots Hks]; subst.
  rewrite Forall_forall in Hks. by apply Hks.
Qed.

Lemma tc_first_step {A} (R : relation A) x z :
  tc R x z → ∃ y, R x y ∧ rtc R y z.
Proof.
  destruct 1 as [x z Hxz|x y z Hxy Hyz].
  - by exists z.
  - exists y. split; [done | by apply tc_rtc].
Qed.

(** The ids of a tree are the elements reachable from its root. *)
Lemma reachable_nodes els t a :
  shaped els t → rtc (child_of els) (root t) a → a ∈ nodes t.
Proof.
  intros Hs. revert a. apply (rtc_ind_r (λ a, a ∈ nodes t)).
  - apply nodes_root.
  - intros a c Hrtc Hstep IH.
    destruct (subtrees_root t a IH) as (s & Hsub & <-).
    destruct (shaped_child els s c) as (k & Hk & <-);
      [by eapply subtrees_shaped | done |].
    apply (subtrees_nodes t s); [done |].
    apply descendants_nodes, (kid_nodes k); [done | apply nodes_root].
Qed.

Lemma shaped_root_child els t k :
  shaped els t → k ∈ kids t → child_of els (root t) (root k).
Proof.
  intros Hs Hk. inversion Hs as [i e ks Hi Hroots Hks]; subst.
  exists e. split; [done |]. rewrite <- Hroots.
  apply list_elem_of_fmap. by exists k.
Qed.

Lemma nodes_reachable els t a :
  shaped els t → a ∈ nodes t → rtc (child_of els) (root t) a.
Proof.
  induction t as [i ks IH] using tree_ind'. intros Hs Ha.
  simpl in Ha. apply elem_of_cons in Ha as [->|Ha]; [done |].
  apply elem_of_concat_map in Ha as (k & Hk & Ha).
  rewrite Forall_forall in IH.
  eapply rtc_l; [by apply (shaped_root_child els (Node i ks) k) |].
  apply IH; [done | | done]. by apply (kid_shaped els (Node i ks)).
Qed.

(** The ids below the root are the elements reachable in one step or
    more. *)
Lemma descendants_reachable els t d :
  shaped els t → d ∈ descendants t ↔ tc (child_of els) (root t) d.
Proof.
  intros Hs. split.
  - intros (k & Hk & Hd)%elem_of_concat_map.
    eapply tc_rtc_r; [apply tc_once; by apply shaped_root_child |].
    apply nodes_reachable; [by eapply kid_shaped | done].
  - intros Htc. apply tc_first_step in Htc as (c & Hstep & Hrtc).
    destruct (shaped_child els t c Hs Hstep) as (k & Hk & <-).
    apply (kid_nodes k); [done |].
    apply (reachable_nodes els); [by eapply kid_shaped | done].
Qed.

(** Every descendant of a node is collected before the node. *)
Lemma postorder_child_first els t a d :
  shaped els t → a ∈ nodes t → tc (child_of els) a d →
  ∃ l1 l2 l3, postorder t = l1 ++ d :: l2 ++ a :: l3.
Proof.
  intros Hs Ha Htc.
  destruct (subtrees_root t a Ha) as (s & Hsub & <-).
  assert (shaped els s) as Hss by (by eapply subtrees_shaped).
  apply (descendants_reachable els s d Hss) in Htc.
  destruct (subtrees_postorder t s Hsub) as (p1 & p3 & ->).
  assert (d ∈ concat (map postorder (kids s))) as Hd.
  { apply elem_of_concat_map in Htc as (k & Hk & Hd).
    apply elem_of_concat_map. exists k. split; [done |].
    by rewrite postorder_nodes. }
  apply list_elem_of_split in Hd as (q1 & q2 & Hq).
  exists (p1 ++ q1), q2, p3. destruct s as [i ks]. simpl in *.
  rewrite Hq. by rewrite <- !app_assoc.
Qed.

Lemma wires_elem_of els ids i w :
  (i, w) ∈ wires els ids → ∃ e, els !! i = Some e ∧ w = to_dict i e.
Proof.
  unfold wires. intros (j & Hj & Hw)%list_elem_of_omap.
  destruct (els !! j) as [e|] eqn:He; [| done].
  injection Hw as <- <-. by exists e.
Qed.

(** The field [slots] of [to_dict()] holds, under the name of every slot,
    the ids of its children, in order. *)
Lemma to_dict_slots self e name s :
  NoDup (Dict.keys (Element.slots e)) → (name, s) ∈ Element.slots e →
  Dict.get name (Wire.slots (to_dict self e)) = Some (Slot.children s).
Proof.
  intros Hnd Hin. unfold to_dict. cbn [Wire.slots].
  assert (Dict.keys (map (λ item : string * Slot.t, (item.1, Slot.children item.2))
                       (Element.slots e))
          = Dict.keys (Element.slots e)) as Hkeys.
  { unfold Dict.keys. clear. induction (Element.slots e) as [|[] l IH]; [done |].
    csimpl. by rewrite <- IH. }
  rewrite dict_of_pairs_fresh by (by rewrite Hkeys).
  apply dict_get_elem_of; [by rewrite Hkeys |].
  apply list_elem_of_fmap. by exists (name, s).
Qed.

(** C4, amended: [update] on an element whose slots form a tree no higher
    than the interpreter lets [collect_ids] descend sends one task. Its
    batch holds the element and the [N] elements reachable through the
    slots, each once -- [1 + N] entries, for exactly the elements reachable
    from the element --, every entry is the serialisation of its element
    with the child ids of every slot, and every element reachable from an
    element of the batch stands before it. On a higher tree [update]
    raises [RecursionError] and sends nothing. *)
Theorem update_sends_owned_subtree st self t :
  loop st = true →
  owned_tree (elems st) self t →
  slots_are_dicts (elems st) →
  (S (recursion_depth st) < height t →
   update self st = (Raise RecursionError, st))
  ∧ (height t ≤ S (recursion_depth st) →
     ∃ batch st',
       update self st = (Return (), st')
       ∧ emitted st'
         = emitted st ++ [Emit.mk "update" batch (pretty (Client.id (client st)))]
       ∧ elems st' = elems st
       ∧ NoDup (Dict.keys batch)
       ∧ length batch = 1 + length (descendants t)
       ∧ (∀ d, d ∈ descendants t ↔ tc (child_of (elems st)) self d)
       ∧ (∀ i, i ∈ Dict.keys batch ↔ rtc (child_of (elems st)) self i)
       ∧ (∀ i w, (i, w) ∈ batch →
            ∃ e, elems st !! i = Some e ∧ w = to_dict i e ∧ Wire.id w = i
              ∧ ∀ name s, (name, s) ∈ Element.slots e →
                  Dict.get name (Wire.slots w) = Some (Slot.children s))
       ∧ (∀ a d, a ∈ Dict.keys batch → tc (child_of (elems st)) a d →
            ∃ l1 l2 l3, Dict.keys batch = l1 ++ d :: l2 ++ a :: l3)).
Proof.
  intros Hloop Ht Hdicts. split; [by apply update_too_deep |]. intros Hh.
  rewrite (update_owned_tree st self t Ht Hh).
  destruct Ht as (<- & Hs & Hnd).
  assert (Dict.keys (wires (elems st) (postorder t)) = postorder t) as Hkeys.
  { apply wires_keys. intros i Hi. apply (shaped_nodes_present _ t); [done |].
    by rewrite <- postorder_nodes. }
  exists (wires (elems st) (postorder t)), (updated t st).
  rewrite Hkeys. split_and!.
  - done.
  - by rewrite emitted_updated, Hloop.
  - apply elems_updated.
  - by rewrite postorder_nodes.
  - rewrite <- (length_fmap fst). fold (Dict.keys (wires (elems st) (postorder t))).
    rewrite Hkeys, postorder_nodes. by destruct t.
  - intros d. by apply descendants_reachable.
  - intros i. rewrite postorder_nodes. split.
    + by apply nodes_reachable.
    + by apply reachable_nodes.
  - intros i w Hin. apply wires_elem_of in Hin as (e & He & ->).
    exists e. split_and!; [done | done | done |].
    intros name s Hslot. apply to_dict_slots; [by eapply Hdicts | done].
  - intros a d Ha Htc. apply (postorder_child_first (elems st)); [done | | done].
    by rewrite <- postorder_nodes.
Qed.

Lemma page_slots_are_dicts running : slots_are_dicts (elems (page running)).
Proof.
  intros i e He. apply elem_of_map_to_list in He.
  rewrite page_elements in He.
  repeat (apply elem_of_cons in He as [Heq|He];
          [injection Heq as -> ->; apply NoDup_singleton |]).
  by apply elem_of_nil in He.
Qed.

Lemma update_sends_owned_subtree_witness :
  loop (page true) = true
  ∧ owned_tree (elems (page true)) 0 page_tree
  ∧ slots_are_dicts (elems (page true))
  ∧ ∃ batch st',
      update 0 (page true) = (Return (), st')
      ∧ emitted st'
        = emitted (page true)
          ++ [Emit.mk "update" batch (pretty (Client.id (client (page true))))]
      ∧ length batch = 1 + length (descendants page_tree).
Proof.
  split_and!; [by vm_compute | apply page_owned_tree
              | apply page_slots_are_dicts |].
  assert (loop (page true) = true) as Hloop by (by vm_compute).
  destruct (proj2 (update_sends_owned_subtree (page true) 0 page_tree Hloop
                     (page_owned_tree true) (page_slots_are_dicts true))
              (page_height true))
    as (batch & st' & Hrun & Hem & _ & _ & Hlen & _).
  exists batch, st'. split; [exact Hrun |]. split; [exact Hem | exact Hlen].
Defined.

(** * Further properties of the code *)

(** ** What [update] leaves alone *)

(** [update] changes nothing but the list of tasks, adds one task at most,
    and adds none when it raises. *)
Theorem update_frame self st o st' :
  update self st = (o, st') →
  client st' = client st ∧ loop st' = loop st
  ∧ (∀ x, o = Raise x → st' = st)
  ∧ (emitted st' = emitted st ∨ ∃ task, emitted st' = emitted st ++ [task]).
Proof.
  unfold update. destruct (negb (loop st)).
  - intros [= <- <-]. split_and!; [done | done | done | by left].
  - destruct (collect_ids _ _ _ _) as [ids|x].
    + destruct (serialize _ _ _) as [batch|x]; intros [= <- <-].
      * split_and!; [done | done | done | right; by eexists].
      * split_and!; [done | done | done | by left].
    + intros [= <- <-]. split_and!; [done | done | done | by left].
Qed.

Lemma update_frame_witness :
  update 0 (page true) = (Return (), updated page_tree (page true))
  ∧ client (updated page_tree (page true)) = client (page true)
  ∧ loop (updated page_tree (page true)) = loop (page true).
Proof.
  assert (update 0 (page true) = (Return (), updated page_tree (page true)))
    as Hrun by (apply update_owned_tree; [apply page_owned_tree | apply page_height]).
  split; [exact Hrun |].
  destruct (update_frame 0 (page true) _ _ Hrun) as (Hc & Hl & _).
  split; [exact Hc | exact Hl].
Defined.

(** An element without children: [update] sends the element alone. *)
Theorem update_leaf st self e :
  loop st = true →
  elems st !! self = Some e →
  child_ids e = [] →
  ∃ st',
    update self st = (Return (), st')
    ∧ emitted st'
      = emitted st
        ++ [Emit.mk "update" [(self, to_dict self e)]
              (pretty (Client.id (client st)))].
Proof.
  intros Hloop He Hleaf.
  assert (owned_tree (elems st) self (Node self [])) as Ht.
  { split_and!; [done | | apply NoDup_singleton].
    by apply (shaped_node _ self e); [| | apply Forall_nil_2]. }
  rewrite (update_owned_tree st self _ Ht) by (simpl; lia).
  eexists. split; [done |].
  rewrite emitted_updated, Hloop. unfold update_task, wires. simpl.
  by rewrite He.
Qed.

Lemma update_leaf_witness :
  loop (page true) = true
  ∧ elems (page true) !! 3 = Some page_p
  ∧ child_ids page_p = []
  ∧ ∃ st',
      update 3 (page true) = (Return (), st')
      ∧ emitted st'
        = emitted (page true)
          ++ [Emit.mk "update" [(3, to_dict 3 page_p)]
                (pretty (Client.id (client (page true))))].
Proof.
  assert (loop (page true) = true) as Hloop by (by vm_compute).
  assert (elems (page true) !! 3 = Some page_p) as Hp
    by (apply page_lookup; repeat first [left | right]).
  split_and!; [exact Hloop | exact Hp | done |].
  exact (update_leaf (page true) 3 page_p Hloop Hp eq_refl).
Defined.

(** ** More on [classes] *)

(** Whatever the class list was and whatever [update] does, the class
    list is free of duplicates after a call of [classes]. *)
Theorem classes_no_duplicates st self e add remove replace o st' :
  elems st !! self = Some e →
  classes self add remove replace st = (o, st') →
  ∃ e', elems st' !! self = Some e' ∧ NoDup (Element._classes e').
Proof.
  intros He Hrun. eexists. split; [by eapply classes_result |].
  apply NoDup_dedup_from.
Qed.

Lemma classes_no_duplicates_witness :
  elems (page true) !! 0 = Some page_div
  ∧ ∃ e',
      elems (classes 0 (Some "a b a") None None (page true)).2 !! 0 = Some e'
      ∧ NoDup (Element._classes e').
Proof.
  split; [apply page_div_lookup |].
  exact (classes_no_duplicates (page true) 0 page_div (Some "a b a") None None
           _ _ (page_div_lookup true) (surjective_pairing _)).
Defined.

(** The tokens of the class list after a call of [classes]: those of
    [add] and of [replace], and those the element had that [remove] does
    not name -- none of them if [replace] is given. A token that is both
    removed and added stays. *)
Theorem classes_members st self e add remove replace o st' x :
  elems st !! self = Some e →
  classes self add remove replace st = (o, st') →
  ∃ e',
    elems st' !! self = Some e'
    ∧ (x ∈ Element._classes e' ↔
       x ∈ Str.split (Str.or_empty add)
       ∨ x ∈ Str.split (Str.or_empty replace)
       ∨ (replace = None ∧ x ∈ Element._classes e
          ∧ x ∉ Str.split (Str.or_empty remove))).
Proof.
  intros He Hrun. eexists. split; [by eapply classes_result |].
  simpl. unfold merged_classes, dedup.
  rewrite elem_of_dedup_from, !elem_of_app, list_elem_of_filter.
  destruct replace as [r|].
  - split.
    + intros [[[_ []%elem_of_nil]|[?|?]] _]; tauto.
    + intros [?|[?|(? & _)]]; [| | done];
        (split; [tauto | apply not_elem_of_nil]).
  - split.
    + intros [[[? ?]|[?|?]] _]; tauto.
    + intros [?|[?|(_ & ? & ?)]];
        (split; [tauto | apply not_elem_of_nil]).
Qed.

Lemma classes_members_witness :
  elems (page true) !! 0 = Some page_div
  ∧ ∃ e',
      elems (classes 0 (Some "a") (Some "a") None (page true)).2 !! 0 = Some e'
      ∧ "a" ∈ Element._classes e'.
Proof.
  split; [apply page_div_lookup |].
  destruct (classes_members (page true) 0 page_div (Some "a") (Some "a") None
              _ _ "a" (page_div_lookup true) (surjective_pairing _))
    as (e' & He' & Hmem).
  exists e'. split; [exact He' |]. apply Hmem. left. by vm_compute; left.
Defined.

(** ** More on [style] *)

Lemma style_replace_dispatch_witness :
  elems (page true) !! 1 = Some page_span
  ∧ owned_tree (elems (page true)) 1 (Node 1 [Node 2 []])
  ∧ parse_style (Some "color:red") = Return [("color", "red")]
  ∧ parse_style (Some "width:1px") = Return [("width", "1px")]
  ∧ ∃ st',
      style 1 (Some "color:red") None (Some "width:1px") (page true)
      = (Return 1, st')
      ∧ dispatches (page true) st' = 1.
Proof.
  assert (elems (page true) !! 1 = Some page_span) as Hspan
    by (apply page_lookup; repeat first [left | right]).
  assert (owned_tree (elems (page true)) 1 (Node 1 [Node 2 []])) as Ht.
  { split_and!; [done | | apply (bool_decide_unpack _); by vm_compute].
    apply (shaped_node _ 1 page_span); [exact Hspan | done |].
    repeat apply Forall_cons_2; [| apply Forall_nil_2].
    apply (shaped_node _ 2 page_i);
      [apply page_lookup; repeat first [left | right] | done | apply Forall_nil_2]. }
  split_and!; [exact Hspan | exact Ht | by vm_compute | by vm_compute |].
  assert (height (Node 1 [Node 2 []]) ≤ S (recursion_depth (page true))) as Hh
    by (apply (bool_decide_unpack _); by vm_compute).
  destruct (proj2 (style_replace_dispatch (page true) 1 page_span
                     (Some "color:red") "width:1px" [("color", "red")]
                     [("width", "1px")] Hspan eq_refl eq_refl)
              _ Ht Hh) as (st' & Hrun & _ & Hd).
  exists st'. split; [exact Hrun |]. rewrite Hd.
  rewrite decide_False; [by vm_compute |].
  apply (bool_decide_eq_false_1 (_ = _)). by vm_compute.
Defined.

(** With [replace], a key to remove is looked for in a new, empty
    dictionary: a [remove] that names a key makes the call raise [KeyError]
    for its first key, and nothing has changed then. *)
Theorem style_replace_remove_raises st self add remove r k v d :
  parse_style remove = Return ((k, v) :: d) →
  style self add remove (Some r) st = (Raise (KeyError k), st).
Proof.
  intros Hrm. unfold style, bind, lift. rewrite Hrm.
  cbn [Dict.keys fmap list_fmap fst for_each]. unfold bind, style_del.
  by rewrite lookup_empty.
Qed.

Lemma style_replace_remove_raises_witness :
  parse_style (Some "color:") = Return [("color", "")]
  ∧ style 1 None (Some "color:") (Some "width:1px") styled_page
    = (Raise (KeyError "color"), styled_page).
Proof.
  split; [by vm_compute |].
  apply (style_replace_remove_raises styled_page 1 None (Some "color:")
           "width:1px" "color" "" []).
  by vm_compute.
Defined.

(** What a call of [style] with [replace] and without [remove] does, with
    the call of [update] left as it is. *)
Lemma style_replace_run st self e add r ad rp :
  elems st !! self = Some e →
  parse_style add = Return ad →
  parse_style (Some r) = Return rp →
  style self add None (Some r) st
  = let new_style := overlay rp (overlay ad ∅) in
    if decide (Element._style e = new_style) then (Return self, st)
    else
      match update self (set_element self (Element.with_style new_style e) st) with
      | (Return _, st') => (Return self, st')
      | (Raise x, st') => (Raise x, st')
      end.
Proof.
  intros He Had Hrp. cbn zeta. unfold style, bind, lift.
  change (parse_style None) with (Return (@nil (string * string))).
  cbn [for_each Dict.keys fmap list_fmap]. unfold ret at 1. cbv beta iota.
  rewrite Had. unfold style_update at 1 2. unfold ret at 1. cbv beta iota.
  rewrite Hrp. unfold ret at 1. cbv beta iota.
  rewrite (get_element_Some _ _ _ He).
  destruct (decide (Element._style e = overlay rp (overlay ad ∅))) as [Heq|Hne].
  - by rewrite decide_False by (by intros []).
  - rewrite decide_True by done. unfold put_element.
    fold (set_element self
            (Element.with_style (overlay rp (overlay ad ∅)) e) st).
    by destruct (update _ _) as [[[]|x] st'].
Qed.

(** [style(add, replace=r)] twice: whatever the first call did, the second
    leaves the state as it is and creates no task. *)
Theorem style_replace_idempotent st self e add r ad rp o1 st1 :
  elems st !! self = Some e →
  parse_style add = Return ad →
  parse_style (Some r) = Return rp →
  style self add None (Some r) st = (o1, st1) →
  style self add None (Some r) st1 = (Return self, st1).
Proof.
  intros He Had Hrp. rewrite (style_replace_run _ _ _ _ _ _ _ He Had Hrp).
  cbn zeta. destruct (decide (Element._style e = _)) as [Heq|Hne].
  - intros [= <- <-]. rewrite (style_replace_run _ _ _ _ _ _ _ He Had Hrp).
    cbn zeta. by rewrite decide_True.
  - set (new_style := overlay rp (overlay ad ∅)).
    intros Hrun.
    assert (elems st1 !! self = Some (Element.with_style new_style e)) as He1.
    { destruct (update _ _) as [[[]|x] st2] eqn:Hup; injection Hrun as <- <-;
        rewrite (update_elems _ _ _ _ Hup); apply lookup_set_element. }
    rewrite (style_replace_run _ _ _ _ _ _ _ He1 Had Hrp). cbn zeta.
    by rewrite decide_True.
Qed.

Lemma style_replace_idempotent_witness :
  elems (page true) !! 1 = Some page_span
  ∧ parse_style (Some "width:1px") = Return [("width", "1px")]
  ∧ ∀ o1 st1,
      style 1 None None (Some "width:1px") (page true) = (o1, st1) →
      style 1 None None (Some "width:1px") st1 = (Return 1, st1).
Proof.
  assert (elems (page true) !! 1 = Some page_span) as Hspan
    by (apply page_lookup; repeat first [left | right]).
  split_and!; [exact Hspan | by vm_compute |].
  intros o1 st1.
  apply (style_replace_idempotent (page true) 1 page_span None "width:1px"
           [] [("width", "1px")] o1 st1 Hspan eq_refl).
  by vm_compute.
Defined.

(** *** The style mini-language *)

Lemma length_split_on_go sep cur s :
  length (Str.split_on_go sep cur s) = S (count_char sep s).
Proof.
  revert cur. induction s as [|c s IH]; intros cur; simpl; [done |].
  case_decide; simpl; by rewrite IH.
Qed.

Lemma pairs_of_words_spec (l : list (list string)) :
  (Forall (λ w, length w = 2) l → ∃ ps, pairs_of_words l = Return ps)
  ∧ (¬ Forall (λ w, length w = 2) l → pairs_of_words l = Raise ValueError).
Proof.
  induction l as [|w l [IHok IHbad]].
  - split; [by eexists | intros []; apply Forall_nil_2].
  - split.
    + intros [Hw Hl]%Forall_cons. destruct (IHok Hl) as (ps & Hps).
      destruct w as [|k [|v [|? ?]]]; try done. simpl. rewrite Hps. by eexists.
    + intros Hnot. destruct w as [|k [|v [|? ?]]]; try done. simpl.
      rewrite IHbad; [done |]. intros Hl. apply Hnot. by apply Forall_cons.
Qed.

(** A style string is taken apart at [;] after the [;] and blanks at its
    ends are dropped; [parse_style] returns a dictionary if every piece has
    exactly one [:], and raises [ValueError] if a piece has none or more
    than one -- the empty piece of ["a:b;;c:d"] or of [";"], and a value
    such as [url(http://...)]. *)
Theorem parse_style_one_colon (text : string) :
  text ≠ "" →
  (Forall (λ part, count_char ":" part = 1) (declarations text) →
   ∃ d, parse_style (Some text) = Return d ∧ NoDup (Dict.keys d))
  ∧ (∀ part, part ∈ declarations text → count_char ":" part ≠ 1 →
     parse_style (Some text) = Raise ValueError).
Proof.
  intros Htext.
  assert (Str.truthy (Some text) = true) as Htruthy by (by destruct text).
  set (words := map (λ part, map Str.strip (Str.split_on ":" part))
                  (declarations text)).
  assert (Forall (λ w, length w = 2) words
          ↔ Forall (λ part, count_char ":" part = 1) (declarations text))
    as Hwords.
  { unfold words. rewrite Forall_fmap. apply Forall_proper; [| done].
    intros part. simpl. rewrite length_map. unfold Str.split_on.
    rewrite length_split_on_go. lia. }
  destruct (pairs_of_words_spec words) as [Hok Hbad]. split.
  - intros Hall. apply Hwords in Hall. destruct (Hok Hall) as (ps & Hps).
    assert (parse_style (Some text) = Return (Dict.of_pairs ps)) as Hparse.
    { unfold parse_style. rewrite Htruthy.
      change (Str.or_empty (Some text)) with text.
      fold (declarations text). fold words. by rewrite Hps. }
    eexists. split; [exact Hparse | by eapply parse_style_NoDup].
  - intros part Hin Hcount. unfold parse_style. rewrite Htruthy.
    change (Str.or_empty (Some text)) with text.
    fold (declarations text). fold words. rewrite Hbad; [done |].
    rewrite Hwords, Forall_forall. intros Hall. by apply Hcount, Hall.
Qed.

Lemma parse_style_one_colon_witness :
  "a:url(b:c)" ≠ ""
  ∧ parse_style (Some "a:url(b:c)") = Raise ValueError.
Proof.
  split; [done |].
  destruct (parse_style_one_colon "a:url(b:c)") as [_ Hbad]; [done |].
  apply (Hbad "a:url(b:c)"); [by vm_compute; left | by vm_compute].
Defined.

(** ** The words of [props] *)

Lemma snoc_append (acc : string) (c : ascii) (s : string) :
  Str.snoc acc c +:+ s = acc +:+ String c s.
Proof.
  unfold Str.snoc. induction acc as [|a acc IH]; [done |].
  change (String a ((acc +:+ String c "") +:+ s) = String a (acc +:+ String c s)).
  by rewrite IH.
Qed.

Lemma append_empty_r (s : string) : s +:+ "" = s.
Proof.
  induction s as [|a s IH]; [done |].
  change (String a (s +:+ "") = String a s). by rewrite IH.
Qed.

Lemma split_eq_first (acc k v : string) :
  count_char "=" k = 0 →
  split_eq acc (k +:+ String "=" v) = Some (acc +:+ k, v).
Proof.
  revert acc. induction k as [|c k IH]; intros acc Hk; simpl.
  - by rewrite append_empty_r.
  - simpl in Hk. destruct (decide (c = "="%char)); [done |].
    rewrite IH by done. by rewrite snoc_append.
Qed.

Lemma split_eq_none (acc w : string) :
  count_char "=" w = 0 → split_eq acc w = None.
Proof.
  revert acc. induction w as [|c w IH]; intros acc Hw; simpl; [done |].
  simpl in Hw. destruct (decide (c = "="%char)); [done |]. by apply IH.
Qed.

(** A word of a props string is split at its first [=]: the key is what
    stands before it, the value all that follows, further [=] included; a
    word without [=] is a key with the value [True]. *)
Theorem parse_word_first_equals (k v w : string) :
  count_char "=" k = 0 →
  count_char "=" w = 0 →
  parse_word (k +:+ String "=" v) = (k, PStr v) ∧ parse_word w = (w, PTrue).
Proof.
  intros Hk Hw. unfold parse_word.
  by rewrite (split_eq_first "" k v Hk), (split_eq_none "" w Hw).
Qed.

Lemma parse_word_first_equals_witness :
  count_char "=" "href" = 0
  ∧ count_char "=" "dense" = 0
  ∧ parse_word "href=a=b" = ("href", PStr "a=b")
  ∧ parse_word "dense" = ("dense", PTrue).
Proof.
  split_and!; [done | done | |];
    by destruct (parse_word_first_equals "href" "a=b" "dense" eq_refl eq_refl).
Defined.

(** ** [on] and the events of [to_dict] *)

Lemma with_event_listeners_frame l e :
  Element.slots (Element.with_event_listeners l e) = Element.slots e.
Proof. done. Qed.

(** [on] with a handler appends the arguments to the entry of the event
    type in [to_dict()], making the entry if there is none, and leaves the
    entries of the other types alone; it does not call [update]. [on]
    without a handler does nothing. *)
Theorem on_extends_events st self e ty h args ty' :
  elems st !! self = Some e →
  (∃ st' e',
      on self ty (Some h) args st = (Return self, st')
      ∧ elems st' !! self = Some e'
      ∧ emitted st' = emitted st
      ∧ Dict.get ty' (Wire.events (to_dict self e'))
        = if decide (ty' = ty)
          then Some (default [] (Dict.get ty (Wire.events (to_dict self e)))
                     ++ args)
          else Dict.get ty' (Wire.events (to_dict self e)))
  ∧ on self ty None args st = (Return self, st).
Proof.
  intros He. split; [| done].
  unfold on, bind. rewrite (get_element_Some _ _ _ He).
  eexists _, _. split_and!; [done | apply lookup_set_element | done |].
  unfold to_dict. cbn [Wire.events Element.with_event_listeners
                        Element._event_listeners].
  rewrite foldl_app. cbn [foldl]. unfold merge_listener at 1.
  cbn [EventListener.type EventListener.args]. rewrite dict_get_set.
  by destruct (decide (ty' = ty)) as [->|Hne].
Qed.

Lemma on_extends_events_witness :
  elems (page true) !! 0 = Some page_div
  ∧ ∃ st' e',
      on 0 "click" (Some 5) ["x"] (page true) = (Return 0, st')
      ∧ elems st' !! 0 = Some e'
      ∧ Dict.get "click" (Wire.events (to_dict 0 e')) = Some ["x"].
Proof.
  split; [apply page_div_lookup |].
  destruct (on_extends_events (page true) 0 page_div "click" 5 ["x"] "click"
              (page_div_lookup true)) as [(st' & e' & Hrun & He' & _ & Hget) _].
  exists st', e'. split_and!; [exact Hrun | exact He' |].
  rewrite Hget. by vm_compute.
Defined.

(** ** [update] on a circle *)

Lemma collect_ids_self_child els self e rest :
  els !! self = Some e → child_ids e = self :: rest →
  ∀ n ids, collect_ids n els self ids = Raise RecursionError.
Proof.
  intros He Hkids. induction n as [|n IH]; intros ids; [done |].
  cbn [collect_ids]. rewrite He, visit_slots_flat. fold (child_ids e).
  rewrite Hkids. cbn [foldl visit_child]. rewrite IH.
  by rewrite visit_child_raise.
Qed.

(** An element that is the first child of one of its own slots: with a
    loop running [update] raises [RecursionError], and dispatches
    nothing. *)
Theorem update_self_child st self e rest :
  loop st = true →
  elems st !! self = Some e →
  child_ids e = self :: rest →
  update self st = (Raise RecursionError, st).
Proof.
  intros Hloop He Hkids. unfold update. rewrite Hloop. cbn [negb].
  by rewrite (collect_ids_self_child _ _ _ _ He Hkids).
Qed.

Lemma update_self_child_witness :
  loop looped = true
  ∧ update 0 looped = (Raise RecursionError, looped).
Proof.
  split; [done |].
  by apply (update_self_child looped 0
              (Element.mk "div" [] ∅ ∅ [] ""
                 [("default", Slot.mk 0 "default" [0])] true InSlots) []).
Defined.

(** ** Construction *)

Lemma with_client_same st : with_client (client st) st = st.
Proof. by destruct st. Qed.

(** Leaving the scope of an element restores the slot stack that entering
    it found; [__exit__] on an empty stack raises [IndexError]. *)
Theorem enter_exit_restores st self :
  (let* _ := __enter__ self in __exit__ self) st = (Return (), st)
  ∧ (Client.slot_stack (client st) = [] →
     __exit__ self st = (Raise IndexError, st)).
Proof.
  split.
  - unfold bind, __enter__, __exit__. cbn [client with_client Client.slot_stack].
    destruct (Client.slot_stack (client st) ++ [self])
      as [|r l] eqn:Hstack; [by destruct (Client.slot_stack (client st)) |].
    rewrite <- Hstack, removelast_last.
    destruct st as [[] ? ?]. done.
  - intros Hempty. unfold __exit__. by rewrite Hempty.
Qed.

(** [add_slot(name)] puts a new slot without children under [name]: a
    slot of this name that the element had is replaced, children and all,
    and keeps its place; the other slots stay, and no name occurs twice
    afterwards if none did before. *)
Theorem add_slot_resets st self e name :
  elems st !! self = Some e →
  ∃ st' e',
    add_slot self name st = (Return (self, name), st')
    ∧ elems st' = <[self := e']> (elems st)
    ∧ (∀ name',
         Dict.get name' (Element.slots e')
         = if decide (name' = name) then Some (Slot.mk self name [])
           else Dict.get name' (Element.slots e))
    ∧ Dict.keys (Element.slots e')
      = (if decide (name ∈ Dict.keys (Element.slots e))
         then Dict.keys (Element.slots e)
         else Dict.keys (Element.slots e) ++ [name])
    ∧ (NoDup (Dict.keys (Element.slots e)) →
       NoDup (Dict.keys (Element.slots e'))).
Proof.
  intros He. unfold add_slot, bind. rewrite (get_element_Some _ _ _ He).
  eexists _, _. split_and!; [done | done | | |].
  - intros name'. apply dict_get_set.
  - apply dict_keys_set.
  - apply dict_keys_set_NoDup.
Qed.

Lemma add_slot_resets_witness :
  elems (page true) !! 0 = Some page_div
  ∧ ∃ st' e',
      add_slot 0 "default" (page true) = (Return (0, "default"), st')
      ∧ elems st' = <[0 := e']> (elems (page true))
      ∧ Dict.get "default" (Element.slots e') = Some (Slot.mk 0 "default" []).
Proof.
  split; [apply page_div_lookup |].
  destruct (add_slot_resets (page true) 0 page_div "default"
              (page_div_lookup true)) as (st' & e' & Hrun & Hels & Hget & _).
  exists st', e'. split_and!; [exact Hrun | exact Hels |].
  by rewrite Hget, decide_True.
Defined.

(** *** [__init__] *)

Lemma child_ids_set_slot name child parent s :
  Dict.get name (Element.slots parent) = Some s →
  child_ids
    (Element.with_slots
       (Dict.set name (slot_with_child s child) (Element.slots parent)) parent)
  ≡ₚ child_ids parent ++ [child].
Proof.
  intros Hget. unfold child_ids.
  cbn [Element.with_slots Element.slots].
  revert Hget. induction (Element.slots parent) as [|[k0 s0] slots IH];
    [done |].
  cbn [Dict.get Dict.set]. destruct (decide (name = k0)) as [->|Hne].
  - intros [= ->]. cbn [map concat snd slot_with_child Slot.children].
    rewrite <- !app_assoc. apply Permutation_app_head, Permutation_app_comm.
  - intros Hget. cbn [map concat snd]. rewrite (IH Hget).
    by rewrite app_assoc.
Qed.

(** The append reaches the slots of the parent if [default_slot] is the
    slot stored under ['default'], and leaves them alone if not. *)
Lemma attached_cases child parent :
  (∃ s,
      Element.default_slot parent = InSlots
      ∧ Dict.get "default" (Element.slots parent) = Some s
      ∧ attached child parent
        = Element.with_slots
            (Dict.set "default" (slot_with_child s child) (Element.slots parent))
            parent)
  ∨ Element.slots (attached child parent) = Element.slots parent.
Proof.
  unfold attached. destruct (Element.default_slot parent) eqn:Hd; [| by right].
  destruct (Dict.get "default" (Element.slots parent)) as [s|] eqn:Hget;
    [| by right].
  left. by exists s.
Qed.

Lemma attached_slots_NoDup child parent :
  NoDup (Dict.keys (Element.slots parent)) →
  NoDup (Dict.keys (Element.slots (attached child parent))).
Proof.
  intros Hnd. destruct (attached_cases child parent)
    as [(s & _ & _ & ->)| ->]; [| done].
  by apply dict_keys_set_NoDup.
Qed.

(** [__init__] with an empty slot stack. *)
Lemma init_run_root st tag :
  Client.slot_stack (client st) = [] →
  __init__ tag st
  = (Return (Client.next_element_id (client st)),
     with_client
       (Client.mk (Client.id (client st))
          (S (Client.next_element_id (client st)))
          (<[Client.next_element_id (client st)
             := new_element tag (Client.next_element_id (client st))]>
             (elems st))
          [])
       st).
Proof. intros Hstack. unfold __init__. by rewrite Hstack. Qed.

(** [__init__] below the slot on top of the slot stack, the object
    [default_slot] of the element [p]. *)
Lemma init_run_scope st tag p parent :
  last (Client.slot_stack (client st)) = Some p →
  elems st !! p = Some parent →
  p ≠ Client.next_element_id (client st) →
  __init__ tag st
  = (Return (Client.next_element_id (client st)),
     with_client
       (Client.mk (Client.id (client st))
          (S (Client.next_element_id (client st)))
          (<[p := attached (Client.next_element_id (client st)) parent]>
             (<[Client.next_element_id (client st)
                := new_element tag (Client.next_element_id (client st))]>
                (elems st)))
          (Client.slot_stack (client st)))
       st).
Proof.
  intros Hlast Hp Hne. unfold __init__. rewrite Hlast.
  unfold slot_append, bind, get_element.
  unfold elems at 1. cbn [client with_client Client.elements].
  fold (elems st). rewrite lookup_insert_ne by done. by rewrite Hp.
Qed.

(** The element that [__init__] returns is registered. *)
Lemma init_registered st tag n st' :
  __init__ tag st = (Return n, st') → is_Some (elems st' !! n).
Proof.
  unfold __init__. destruct (last (Client.slot_stack (client st))) as [p|].
  - destruct (slot_append _ _ _) as [[[]|x] st1] eqn:Happ; [| done].
    intros [= <- <-]. revert Happ. unfold slot_append, bind, get_element.
    destruct (elems _ !! p) as [parent|]; [| done].
    intros [= <-]. unfold put_element, elems.
    cbn [client with_elements with_client Client.elements].
    rewrite !lookup_insert_is_Some.
    destruct (decide (p = Client.next_element_id (client st)));
      [by left | right; split; [done | by left]].
  - intros [= <- <-]. unfold elems. cbn [client with_client Client.elements].
    rewrite lookup_insert_is_Some. by left.
Qed.

(** An element made while the slot stack is empty is registered under the
    next id, with no classes, style or props, one slot [default] without
    children, and visible; the other elements stay, and [update] is not
    called. *)
Theorem init_registers st tag :
  Client.slot_stack (client st) = [] →
  ∃ st',
    __init__ tag st = (Return (Client.next_element_id (client st)), st')
    ∧ elems st'
      = <[Client.next_element_id (client st)
          := new_element tag (Client.next_element_id (client st))]> (elems st)
    ∧ Client.next_element_id (client st')
      = S (Client.next_element_id (client st))
    ∧ Client.slot_stack (client st') = []
    ∧ emitted st' = emitted st.
Proof.
  intros Hstack. rewrite (init_run_root _ _ Hstack). by eexists.
Qed.

Lemma init_registers_witness :
  Client.slot_stack (client (initial 7 true)) = []
  ∧ ∃ st',
      __init__ "div" (initial 7 true) = (Return 0, st')
      ∧ elems st' = <[0 := new_element "div" 0]> (elems (initial 7 true)).
Proof.
  split; [done |].
  destruct (init_registers (initial 7 true) "div" eq_refl)
    as (st' & Hrun & Hels & _).
  by exists st'.
Defined.

(** An element made inside the scope of a registered element [p] -- the
    object [default_slot] of [p] is on top of the slot stack -- is
    registered under the next id and appended as the last child of that
    object. As long as [add_slot('default')] has not been called on [p]
    again, the object is the slot [default] of [p], which gets the child;
    afterwards it is a slot that [p.slots] no longer holds, and the slots
    of [p] stay as they are. The other elements stay, and [update] is not
    called: the client hears of the child when an ancestor is updated. *)
Theorem init_attaches_to_scope st tag p parent :
  last (Client.slot_stack (client st)) = Some p →
  elems st !! p = Some parent →
  p ≠ Client.next_element_id (client st) →
  ∃ st' parent',
    __init__ tag st = (Return (Client.next_element_id (client st)), st')
    ∧ elems st' !! Client.next_element_id (client st)
      = Some (new_element tag (Client.next_element_id (client st)))
    ∧ elems st' !! p = Some parent'
    ∧ (∀ s,
         Element.default_slot parent = InSlots →
         Dict.get "default" (Element.slots parent) = Some s →
         Element.default_slot parent' = InSlots
         ∧ ∀ name',
             Dict.get name' (Element.slots parent')
             = if decide (name' = "default")
               then Some (slot_with_child s (Client.next_element_id (client st)))
               else Dict.get name' (Element.slots parent))
    ∧ (∀ s,
         Element.default_slot parent = Detached s →
         Element.slots parent' = Element.slots parent
         ∧ Element.default_slot parent'
           = Detached (slot_with_child s (Client.next_element_id (client st))))
    ∧ (∀ i, i ≠ p → i ≠ Client.next_element_id (client st) →
         elems st' !! i = elems st !! i)
    ∧ Client.slot_stack (client st') = Client.slot_stack (client st)
    ∧ emitted st' = emitted st.
Proof.
  intros Hlast Hp Hne.
  rewrite (init_run_scope _ _ _ _ Hlast Hp Hne).
  eexists _, _. split_and!; [done | | | | | | done | done].
  - unfold elems. cbn [client with_client Client.elements].
    rewrite lookup_insert_ne by done. apply lookup_insert_eq.
  - unfold elems. cbn [client with_client Client.elements].
    apply lookup_insert_eq.
  - intros s Hd Hs. unfold attached. rewrite Hd, Hs.
    split; [by destruct parent |].
    intros name'. cbn [Element.with_slots Element.slots]. apply dict_get_set.
  - intros s Hd. unfold attached. rewrite Hd. by destruct parent.
  - intros i Hip Hin. unfold elems at 1.
    cbn [client with_client Client.elements].
    by rewrite !lookup_insert_ne.
Qed.

Lemma init_attaches_to_scope_witness :
  last (Client.slot_stack (client in_div)) = Some 0
  ∧ elems in_div !! 0 = Some (new_element "div" 0)
  ∧ 0 ≠ Client.next_element_id (client in_div)
  ∧ ∃ st' parent',
      __init__ "span" in_div = (Return 1, st')
      ∧ elems st' !! 0 = Some parent'
      ∧ Dict.get "default" (Element.slots parent')
        = Some (Slot.mk 0 "default" [1]).
Proof.
  assert (last (Client.slot_stack (client in_div)) = Some 0)
    as Hlast by (by vm_compute).
  assert (elems in_div !! 0 = Some (new_element "div" 0)) as Hdiv
    by (by vm_compute).
  assert (0 ≠ Client.next_element_id (client in_div)) as Hne
    by (by vm_compute).
  split_and!; [exact Hlast | exact Hdiv | exact Hne |].
  destruct (init_attaches_to_scope in_div "span" 0
              (new_element "div" 0) Hlast Hdiv Hne)
    as (st' & parent' & Hrun & _ & Hp & Hin & _).
  exists st', parent'. split_and!; [exact Hrun | exact Hp |].
  destruct (Hin (Slot.mk 0 "default" []) eq_refl eq_refl) as [_ Hget].
  by rewrite Hget, decide_True.
Defined.

(** [add_slot('default')] stores a new slot under ['default'] and leaves
    [default_slot] bound to the slot that was there: an element made in
    the scope of the element afterwards becomes a child of that slot,
    which the element no longer holds, and the slot [default] of the
    element stays without children -- [to_dict] and [update] do not see
    the new element. *)
Theorem add_slot_default_detaches st self e s tag :
  elems st !! self = Some e →
  Element.default_slot e = InSlots →
  Dict.get "default" (Element.slots e) = Some s →
  self ≠ Client.next_element_id (client st) →
  ∃ st1 st2 e2,
    add_slot self "default" st = (Return (self, "default"), st1)
    ∧ (let* _ := __enter__ self in __init__ tag) st1
      = (Return (Client.next_element_id (client st)), st2)
    ∧ elems st2 !! self = Some e2
    ∧ Element.default_slot e2
      = Detached (slot_with_child s (Client.next_element_id (client st)))
    ∧ Dict.get "default" (Element.slots e2) = Some (Slot.mk self "default" [])
    ∧ Wire.slots (to_dict self e2)
      = Wire.slots
          (to_dict self
             (Element.with_slots
                (Dict.set "default" (Slot.mk self "default" []) (Element.slots e))
                e)).
Proof.
  intros He Hd Hs Hne.
  set (e1 := Element.with_default_slot (Detached s)
               (Element.with_slots
                  (Dict.set "default" (Slot.mk self "default" [])
                     (Element.slots e)) e)).
  assert (add_slot self "default" st
          = (Return (self, "default"), set_element self e1 st)) as Hadd.
  { unfold add_slot, bind. rewrite (get_element_Some _ _ _ He).
    unfold default_slot_after. rewrite Hd, Hs. by rewrite decide_True. }
  set (st1 := set_element self e1 st) in *.
  set (n := Client.next_element_id (client st)) in *.
  set (st1' := (__enter__ self st1).2).
  assert (__init__ tag st1'
          = (Return n,
             with_client
               (Client.mk (Client.id (client st1')) (S n)
                  (<[self := attached n e1]>
                     (<[n := new_element tag n]> (elems st1')))
                  (Client.slot_stack (client st1')))
               st1')) as Hinit.
  { apply (init_run_scope st1' tag self e1).
    - unfold st1', __enter__. cbn [snd client with_client Client.slot_stack].
      apply last_snoc.
    - apply lookup_set_element.
    - done. }
  eexists st1, _, (attached n e1). split_and!.
  - exact Hadd.
  - unfold bind, __enter__ at 1. fold (__enter__ self st1).
    change (with_client _ st1) with st1'. exact Hinit.
  - unfold elems. cbn [client with_client Client.elements].
    apply lookup_insert_eq.
  - unfold attached, e1. by destruct e.
  - unfold attached, e1. destruct e. cbn. rewrite dict_get_set.
    by rewrite decide_True.
  - unfold attached, e1. by destruct e.
Qed.

Lemma add_slot_default_detaches_witness :
  elems (page true) !! 0 = Some page_div
  ∧ Element.default_slot page_div = InSlots
  ∧ Dict.get "default" (Element.slots page_div) = Some (Slot.mk 0 "default" [1; 3])
  ∧ 0 ≠ Client.next_element_id (client (page true))
  ∧ ∃ st1 st2 e2,
      add_slot 0 "default" (page true) = (Return (0, "default"), st1)
      ∧ (let* _ := __enter__ 0 in __init__ "b") st1
        = (Return (Client.next_element_id (client (page true))), st2)
      ∧ elems st2 !! 0 = Some e2
      ∧ Dict.get "default" (Element.slots e2) = Some (Slot.mk 0 "default" []).
Proof.
  assert (0 ≠ Client.next_element_id (client (page true))) as Hne
    by (by vm_compute).
  split_and!; [apply page_div_lookup | done | done | exact Hne |].
  destruct (add_slot_default_detaches (page true) 0 page_div
              (Slot.mk 0 "default" [1; 3]) "b" (page_div_lookup true)
              eq_refl eq_refl Hne)
    as (st1 & st2 & e2 & Hadd & Hrun & He2 & _ & Hget & _).
  exists st1, st2, e2. split_and!; [exact Hadd | exact Hrun | exact He2 | exact Hget].
Defined.

(** *** The invariant of construction *)

Lemma well_formed_initial client_id running :
  well_formed (initial client_id running).
Proof.
  assert (elems (initial client_id running) = ∅) as Hempty by done.
  unfold well_formed, slots_are_dicts. rewrite Hempty. split_and!.
  - intros i e Hi. by rewrite lookup_empty in Hi.
  - intros i e c Hi. by rewrite lookup_empty in Hi.
  - intros i e Hi. by rewrite lookup_empty in Hi.
  - intros i j ei ej c Hi. by rewrite lookup_empty in Hi.
  - by intros ref ?%elem_of_nil.
  - intros i e Hi. by rewrite lookup_empty in Hi.
Qed.

Lemma child_ids_new_element tag self : child_ids (new_element tag self) = [].
Proof. done. Qed.

Lemma attached_children child parent c :
  c ∈ child_ids (attached child parent) →
  c ∈ child_ids parent ∨ c = child.
Proof.
  destruct (attached_cases child parent)
    as [(s & _ & Hget & ->)|Hslots].
  - rewrite (child_ids_set_slot _ _ _ _ Hget), elem_of_app,
      list_elem_of_singleton. tauto.
  - rewrite (child_ids_slots _ _ Hslots). by left.
Qed.

Lemma attached_children_NoDup child parent :
  NoDup (child_ids parent) → child ∉ child_ids parent →
  NoDup (child_ids (attached child parent)).
Proof.
  intros Hnd Hfresh.
  destruct (attached_cases child parent)
    as [(s & _ & Hget & ->)|Hslots].
  - rewrite (child_ids_set_slot _ _ _ _ Hget).
    apply NoDup_app. split_and!; [done | | apply NoDup_singleton].
    intros x Hx ->%list_elem_of_singleton. done.
  - by rewrite (child_ids_slots _ _ Hslots).
Qed.

(** A state that grows by the element [n], which becomes a child of the
    element [op] at most, stays well formed. *)
Lemma well_formed_grow st st' (op : option nat) :
  let n := Client.next_element_id (client st) in
  well_formed st →
  Client.next_element_id (client st') = S n →
  (∀ i, is_Some (elems st' !! i) ↔ i = n ∨ is_Some (elems st !! i)) →
  (∀ p, op = Some p → p < n) →
  (∀ i ei c, elems st' !! i = Some ei → c ∈ child_ids ei →
     (c = n ∧ op = Some i)
     ∨ ∃ e0, elems st !! i = Some e0 ∧ c ∈ child_ids e0) →
  (∀ i ei, elems st' !! i = Some ei →
     NoDup (child_ids ei) ∧ NoDup (Dict.keys (Element.slots ei))) →
  (∀ ref, ref ∈ Client.slot_stack (client st') →
     ref ∈ Client.slot_stack (client st)) →
  well_formed st'.
Proof.
  intros n (Hbelow & Hkids & Hnd & Hone & Hstack & Hdicts)
    Hnext Hdom Hop Hclass Hlists Hrefs.
  assert (¬ is_Some (elems st !! n)) as Hfresh.
  { intros [e He]. specialize (Hbelow n e He). unfold n in Hbelow. lia. }
  split_and!.
  - intros i e Hi. rewrite Hnext.
    destruct (proj1 (Hdom i)) as [->|[e0 He0]]; [by eexists | lia |].
    specialize (Hbelow i e0 He0). fold n in Hbelow. lia.
  - intros i e c Hi Hc.
    destruct (Hclass i e c Hi Hc) as [[-> Hp]|(e0 & He0 & Hc0)].
    + split; [by apply Hop | apply Hdom; by left].
    + destruct (Hkids i e0 c He0 Hc0) as [Hlt Hreg].
      split; [done | apply Hdom; by right].
  - intros i e Hi. by apply (Hlists i e).
  - intros i j ei ej c Hi Hj Hci Hcj.
    destruct (Hclass i ei c Hi Hci) as [[-> Hpi]|(ei0 & Hei0 & Hci0)];
      destruct (Hclass j ej _ Hj Hcj) as [[Hcn Hpj]|(ej0 & Hej0 & Hcj0)].
    + congruence.
    + destruct Hfresh. by apply (Hkids j ej0 n).
    + subst c. destruct Hfresh. by apply (Hkids i ei0 n).
    + by eapply Hone.
  - intros ref Href. apply Hdom. right. by apply Hstack, Hrefs.
  - intros i e Hi. by apply (Hlists i e).
Qed.

Lemma well_formed_init st tag o st' :
  well_formed st →
  __init__ tag st = (o, st') →
  o = Return (Client.next_element_id (client st)) ∧ well_formed st'.
Proof.
  intros Hwf. pose proof Hwf as (Hbelow & Hkids & Hnd & Hone & Hstack & Hdicts).
  set (n := Client.next_element_id (client st)).
  destruct (last (Client.slot_stack (client st))) as [p|] eqn:Hlast.
  - destruct (Hstack p) as [parent Hp]; [by apply last_Some_elem_of |].
    assert (p < n) as Hlt by (by apply (Hbelow p parent)).
    rewrite (init_run_scope st tag p parent Hlast Hp) by (fold n; lia).
    fold n. intros [= <- <-]. split; [done |].
    apply (well_formed_grow st _ (Some p)); fold n.
    + done.
    + done.
    + intros i. unfold elems at 1. cbn [client with_client Client.elements].
      rewrite !lookup_insert_is_Some. split.
      * intros [->|[_ [->|[_ ?]]]]; [right; by eexists | by left | by right].
      * intros [->|?]; [right; split; [lia | by left] |].
        destruct (decide (p = i)); [by left | right; split; [done |]].
        destruct (decide (n = i)); [by left | by right].
    + by intros ? [= <-].
    + intros i ei c. unfold elems at 1.
      cbn [client with_client Client.elements].
      intros [[<- <-]|[Hne [[<- <-]|[Hne' Hi]]%lookup_insert_Some]]%lookup_insert_Some Hc.
      * apply attached_children in Hc as [Hc| ->]; [right | by left].
        by exists parent.
      * by apply elem_of_nil in Hc.
      * right. by exists ei.
    + intros i ei. unfold elems at 1.
      cbn [client with_client Client.elements].
      intros [[<- <-]|[Hne [[<- <-]|[Hne' Hi]]%lookup_insert_Some]]%lookup_insert_Some.
      * split.
        -- apply attached_children_NoDup; [by eapply Hnd |].
           intros Hc. destruct (Hkids p parent n Hp Hc) as [_ [e He]].
           specialize (Hbelow n e He). fold n in Hbelow. lia.
        -- apply attached_slots_NoDup. by eapply Hdicts.
      * split; [apply NoDup_nil_2 | apply NoDup_singleton].
      * split; [by eapply Hnd | by eapply Hdicts].
    + done.
  - apply last_None in Hlast. rewrite (init_run_root st tag Hlast).
    fold n. intros [= <- <-]. split; [done |].
    apply (well_formed_grow st _ None); fold n.
    + done.
    + done.
    + intros i. unfold elems at 1. cbn [client with_client Client.elements].
      rewrite lookup_insert_is_Some. split.
      * intros [->|[_ ?]]; [by left | by right].
      * intros [->|?]; [by left |].
        destruct (decide (n = i)); [by left | by right].
    + done.
    + intros i ei c. unfold elems at 1.
      cbn [client with_client Client.elements].
      intros [[<- <-]|[Hne Hi]]%lookup_insert_Some Hc.
      * by apply elem_of_nil in Hc.
      * right. by exists ei.
    + intros i ei. unfold elems at 1.
      cbn [client with_client Client.elements].
      intros [[<- <-]|[Hne Hi]]%lookup_insert_Some.
      * split; [apply NoDup_nil_2 | apply NoDup_singleton].
      * split; [by eapply Hnd | by eapply Hdicts].
    + by intros ref ?%elem_of_nil.
Qed.

Lemma elem_of_removelast {A} (l : list A) (x : A) :
  x ∈ removelast l → x ∈ l.
Proof.
  induction l as [|y l IH]; [done |]. simpl.
  destruct l as [|z l]; [by intros ?%elem_of_nil |].
  intros [->|Hin]%elem_of_cons; [left | right; by apply IH].
Qed.

Lemma well_formed_enter st self o st' :
  well_formed st → is_Some (elems st !! self) →
  __enter__ self st = (o, st') →
  o = Return self ∧ well_formed st'.
Proof.
  intros (Hbelow & Hkids & Hnd & Hone & Hstack & Hdicts) Hself [= <- <-].
  split; [done |]. split_and!; try done.
  intros ref [Href| ->%list_elem_of_singleton]%elem_of_app; [by apply Hstack | done].
Qed.

Lemma well_formed_exit st self o st' :
  well_formed st → __exit__ self st = (o, st') → well_formed st'.
Proof.
  intros (Hbelow & Hkids & Hnd & Hone & Hstack & Hdicts). unfold __exit__.
  destruct (Client.slot_stack (client st)) as [|r l] eqn:Hl; intros [= <- <-].
  - split_and!; try done. by rewrite Hl.
  - split_and!; try done.
    intros ref Href. change (ref ∈ removelast (r :: l)) in Href.
    apply elem_of_removelast in Href. by apply Hstack.
Qed.

(** *** Well-formed states are forests *)

Section forest.
Variable st : state.
Hypothesis Hwf : well_formed st.

Lemma child_of_lt a c : child_of (elems st) a c → a < c.
Proof.
  destruct Hwf as (_ & Hkids & _). intros (e & He & Hc).
  by apply (Hkids a e c).
Qed.

Lemma child_of_one_parent a a' c :
  child_of (elems st) a c → child_of (elems st) a' c → a = a'.
Proof.
  destruct Hwf as (_ & _ & _ & Hone & _).
  intros (e & He & Hc) (e' & He' & Hc'). by eapply Hone.
Qed.

Lemma reachable_le a b : rtc (child_of (elems st)) a b → a ≤ b.
Proof.
  induction 1 as [|a c b Hac _ IH]; [done |].
  apply child_of_lt in Hac. lia.
Qed.

(** The ancestors of an element form a chain. *)
Lemma ancestors_chain c c' x :
  rtc (child_of (elems st)) c x → rtc (child_of (elems st)) c' x →
  rtc (child_of (elems st)) c c' ∨ rtc (child_of (elems st)) c' c.
Proof.
  intros Hcx. revert c'. revert x Hcx.
  apply (rtc_ind_r (λ x, ∀ c', rtc (child_of (elems st)) c' x →
                         rtc (child_of (elems st)) c c'
                         ∨ rtc (child_of (elems st)) c' c)).
  - intros c' Hc'. by right.
  - intros y z Hcy Hyz IH c' Hc'z.
    apply rtc_inv_r in Hc'z as [->|(y' & Hc'y' & Hy'z)].
    + left. by eapply rtc_r.
    + rewrite <- (child_of_one_parent _ _ _ Hyz Hy'z) in Hc'y'. by apply IH.
Qed.

Lemma siblings_apart i c c' x :
  child_of (elems st) i c → child_of (elems st) i c' → c ≠ c' →
  rtc (child_of (elems st)) c x → rtc (child_of (elems st)) c' x → False.
Proof.
  assert (∀ a b, child_of (elems st) i a → child_of (elems st) i b → a ≠ b →
                 rtc (child_of (elems st)) a b → False) as Hdown.
  { intros a b Ha Hb Hne Hab.
    apply rtc_inv_r in Hab as [->|(y & Hay & Hyb)]; [done |].
    rewrite (child_of_one_parent _ _ _ Hyb Hb) in Hay.
    apply reachable_le in Hay. apply child_of_lt in Ha. lia. }
  intros Hc Hc' Hne Hcx Hc'x.
  destruct (ancestors_chain c c' x Hcx Hc'x) as [Hrtc|Hrtc].
  - by apply (Hdown c c').
  - by apply (Hdown c' c).
Qed.

(** The trees below the children [cs] of the element [i], given trees
    below each of them. *)
Lemma forest_of_children i cs :
  (∀ c, c ∈ cs → child_of (elems st) i c) →
  (∀ c, c ∈ cs → ∃ t, owned_tree (elems st) c t) →
  NoDup cs →
  ∃ ks, map root ks = cs ∧ Forall (shaped (elems st)) ks
    ∧ NoDup (concat (map nodes ks)).
Proof.
  induction cs as [|c cs IH]; intros Hkids Htrees Hnd.
  - exists []. split_and!; [done | apply Forall_nil_2 | apply NoDup_nil_2].
  - apply NoDup_cons in Hnd as [Hc Hnd].
    destruct (Htrees c) as (t & Hroot & Hshaped & Hnodes); [left |].
    destruct IH as (ks & Hroots & Hks & Hdisj); [| | done |].
    { intros c' Hc'. apply Hkids. by right. }
    { intros c' Hc'. apply Htrees. by right. }
    exists (t :: ks). split_and!.
    + simpl. by rewrite Hroot, Hroots.
    + by apply Forall_cons.
    + simpl. apply NoDup_app. split_and!; [done | | done].
      intros x Hx (k & Hk & Hxk)%elem_of_concat_map.
      rewrite Forall_forall in Hks.
      apply (siblings_apart i c (root k) x).
      * apply Hkids. left.
      * apply Hkids. right. rewrite <- Hroots.
        apply list_elem_of_fmap. by exists k.
      * intros ->. apply Hc. rewrite <- Hroots.
        apply list_elem_of_fmap. by exists k.
      * rewrite <- Hroot. by apply nodes_reachable.
      * apply nodes_reachable; [by apply Hks | done].
Qed.

Lemma well_formed_tree_bounded k : ∀ i e,
  Client.next_element_id (client st) - i ≤ k →
  elems st !! i = Some e →
  ∃ t, owned_tree (elems st) i t.
Proof.
  induction k as [|k IH]; intros i e Hk He.
  - destruct Hwf as (Hbelow & _). specialize (Hbelow i e He). lia.
  - pose proof Hwf as (Hbelow & Hkids & Hnd & _).
    destruct (forest_of_children i (child_ids e))
      as (ks & Hroots & Hks & Hdisj).
    + intros c Hc. by exists e.
    + intros c Hc. destruct (Hkids i e c He Hc) as [Hlt [ec Hec]].
      apply (IH c ec); [| done].
      specialize (Hbelow c ec Hec). lia.
    + by eapply Hnd.
    + exists (Node i ks). split_and!; [done | by apply (shaped_node _ i e) |].
      simpl. apply NoDup_cons. split; [| done].
      intros (k' & Hk' & Hi)%elem_of_concat_map.
      rewrite Forall_forall in Hks.
      assert (child_of (elems st) i (root k')) as Hchild.
      { exists e. split; [done |]. rewrite <- Hroots.
        apply list_elem_of_fmap. by exists k'. }
      apply child_of_lt in Hchild.
      assert (root k' ≤ i); [| lia].
      apply reachable_le, nodes_reachable; [by apply Hks | done].
Qed.

Lemma well_formed_tree i e :
  elems st !! i = Some e → ∃ t, owned_tree (elems st) i t.
Proof. by apply (well_formed_tree_bounded (Client.next_element_id (client st))); lia. Qed.

End forest.

(** *** Deep nesting *)

Lemma well_formed_nest n : ∀ st o st',
  well_formed st → nest n st = (o, st') → well_formed st'.
Proof.
  induction n as [|n IH]; intros st o st' Hwf; cbn [nest].
  - by intros [= <- <-].
  - unfold bind. destruct (__init__ "div" st) as [o1 st1] eqn:Hinit.
    destruct (well_formed_init _ _ _ _ Hwf Hinit) as [-> Hwf1].
    destruct (__enter__ _ st1) as [o2 st2] eqn:Henter.
    destruct (well_formed_enter _ _ _ _ Hwf1 (init_registered _ _ _ _ Hinit)
                Henter) as [-> Hwf2].
    by apply IH.
Qed.

Lemma well_formed_deep_chain : well_formed deep_chain.
Proof.
  unfold deep_chain.
  apply (well_formed_nest 1002 (initial 7 true)
           (nest 1002 (initial 7 true)).1 (nest 1002 (initial 7 true)).2).
  - apply well_formed_initial.
  - apply surjective_pairing.
Qed.

(** C4 as it reads does not hold of the code: the slots below the
    outermost of 1002 nested elements form a tree, a loop runs, and
    [update] on the element raises [RecursionError] out of [collect_ids]
    and dispatches no batch. *)
Lemma update_deep_chain_raises :
  loop deep_chain = true
  ∧ (∃ t, owned_tree (elems deep_chain) 0 t)
  ∧ slots_are_dicts (elems deep_chain)
  ∧ update 0 deep_chain = (Raise RecursionError, deep_chain).
Proof.
  split; [by vm_compute |].
  split; [apply (well_formed_tree deep_chain well_formed_deep_chain 0 _
                   deep_chain_outermost) |].
  split; [apply well_formed_deep_chain |].
  destruct (update 0 deep_chain) as [o st1] eqn:Hup.
  assert (o = Raise RecursionError) as ->.
  { change o with (o, st1).1. rewrite <- Hup. by vm_compute. }
  by rewrite (proj1 (proj2 (proj2 (update_effect _ _ _ _ Hup))) _ eq_refl).
Qed.

(** *** The methods keep the structure *)

Lemma same_structure_refl st : same_structure st st.
Proof. by split_and!. Qed.

Lemma well_formed_same_structure st st' :
  same_structure st st' → well_formed st → well_formed st'.
Proof.
  intros (Hnext & Hstack & Hslots) (Hbelow & Hkids & Hnd & Hone & Hrefs & Hdicts).
  assert (∀ i e', elems st' !! i = Some e' →
            ∃ e, elems st !! i = Some e ∧ child_ids e = child_ids e'
                 ∧ Element.slots e = Element.slots e') as Hback.
  { intros i e' Hi. specialize (Hslots i). rewrite Hi in Hslots.
    destruct (elems st !! i) as [e|]; [| done].
    injection Hslots as Heq. exists e. split_and!; [done | | done].
    by apply child_ids_slots. }
  assert (∀ i, is_Some (elems st !! i) → is_Some (elems st' !! i)) as Hforth.
  { intros i [e Hi]. specialize (Hslots i). rewrite Hi in Hslots.
    destruct (elems st' !! i); [by eexists | done]. }
  split_and!.
  - intros i e' (e & He & _)%Hback. rewrite Hnext. by eapply Hbelow.
  - intros i e' c (e & He & Hc & _)%Hback Hin. rewrite <- Hc in Hin.
    destruct (Hkids i e c He Hin). split; [done | by apply Hforth].
  - intros i e' (e & He & Hc & _)%Hback. rewrite <- Hc. by eapply Hnd.
  - intros i j ei' ej' c (ei & Hei & Hci & _)%Hback (ej & Hej & Hcj & _)%Hback.
    rewrite <- Hci, <- Hcj. by eapply Hone.
  - rewrite Hstack. intros ref Href. by apply Hforth, Hrefs.
  - intros i e' (e & He & _ & Hs)%Hback. rewrite <- Hs. by eapply Hdicts.
Qed.

Lemma keeps_ret st0 {A} (a : A) (Q : A → Prop) : Q a → keeps st0 (ret a) Q.
Proof. intros HQ st o st' Hst [= <- <-]. split; [done |]. by intros ? [= <-]. Qed.

Lemma keeps_lift st0 {A} (o : outcome A) : keeps st0 (lift o) (λ _, True).
Proof. intros st o' st' Hst [= <- <-]. by split. Qed.

Lemma keeps_raise st0 {A} (x : exn) (Q : A → Prop) : keeps st0 (raise x) Q.
Proof. intros st o' st' Hst [= <- <-]. by split. Qed.

Lemma keeps_bind st0 {A B} (m : M A) (f : A → M B) (Q : A → Prop) (R : B → Prop) :
  keeps st0 m Q → (∀ a, Q a → keeps st0 (f a) R) → keeps st0 (bind m f) R.
Proof.
  intros Hm Hf st o st' Hst. unfold bind.
  destruct (m st) as [[a|x] st1] eqn:Hrun; destruct (Hm _ _ _ Hst Hrun) as [Hst1 HQ].
  - intros Hrun'. by apply (Hf a (HQ a eq_refl) st1).
  - intros [= <- <-]. by split.
Qed.

Lemma keeps_get st0 self : keeps st0 (get_element self) (fits st0 self).
Proof.
  intros st o st' Hst. unfold get_element.
  destruct (elems st !! self) as [e|] eqn:He; intros [= <- <-];
    (split; [done |]); [| done].
  intros a [= <-]. destruct Hst as (_ & _ & Hslots). unfold fits.
  by rewrite <- Hslots, He.
Qed.

Lemma keeps_put st0 self e (Q : () → Prop) :
  fits st0 self e → Q () → keeps st0 (put_element self e) Q.
Proof.
  intros Hfit HQ st o st' (Hnext & Hstack & Hslots) [= <- <-].
  split; [| by intros [] _]. split_and!; [done | done |].
  intros i. unfold elems at 1. cbn [client with_elements Client.elements].
  destruct (decide (self = i)) as [<-|Hne].
  - by rewrite lookup_insert_eq.
  - by rewrite lookup_insert_ne.
Qed.

Lemma keeps_update st0 self (Q : () → Prop) : Q () → keeps st0 (update self) Q.
Proof.
  intros HQ st o st' (Hnext & Hstack & Hslots) Hrun.
  split; [| by intros [] _].
  pose proof (update_client _ _ _ _ Hrun) as Hclient.
  unfold same_structure, elems. by rewrite Hclient.
Qed.

Lemma keeps_for_each st0 {A B} (f : A → B → M A) (Inv : A → Prop) (l : list B) :
  (∀ a x, Inv a → keeps st0 (f a x) Inv) →
  ∀ a, Inv a → keeps st0 (for_each f a l) Inv.
Proof.
  intros Hf. induction l as [|x l IH]; intros a Ha.
  - by apply keeps_ret.
  - cbn [for_each]. eapply keeps_bind; [by apply Hf |]. apply IH.
Qed.

Lemma keeps_weaken st0 {A} (m : M A) (Q R : A → Prop) :
  keeps st0 m Q → (∀ a, Q a → R a) → keeps st0 m R.
Proof.
  intros Hm HQR st o st' Hst Hrun. destruct (Hm _ _ _ Hst Hrun) as [Hst' HQ].
  split; [done |]. intros a Ha. by apply HQR, HQ.
Qed.

Lemma keeps_classes st0 self add remove replace :
  keeps st0 (classes self add remove replace) (λ _, True).
Proof.
  unfold classes. eapply keeps_bind; [apply keeps_get |]. intros e He.
  cbn zeta. case_decide; [| by apply keeps_ret].
  eapply keeps_bind; [by apply (keeps_put _ _ _ (λ _, True)) |]. intros _ _.
  eapply keeps_bind; [by apply (keeps_update _ _ (λ _, True)) |]. intros _ _.
  by apply keeps_ret.
Qed.

Lemma keeps_on_visibility_change st0 self visible :
  keeps st0 (on_visibility_change self visible) (λ _, True).
Proof.
  unfold on_visibility_change.
  eapply keeps_bind; [apply keeps_get |]. intros e He.
  eapply (keeps_bind _ _ _ (λ _, True)).
  - destruct (visible && _); [| by apply keeps_ret].
    eapply keeps_bind; [by apply (keeps_put _ _ _ (λ _, True)) |]. intros _ _.
    by apply keeps_update.
  - intros _ _. eapply keeps_bind; [apply keeps_get |]. intros e' He'.
    destruct (negb visible && _); [| by apply keeps_ret].
    eapply keeps_bind; [by apply (keeps_put _ _ _ (λ _, True)) |]. intros _ _.
    by apply keeps_update.
Qed.

Lemma keeps_style_del st0 self sd key :
  keeps st0 (style_del self sd key) (λ _, True).
Proof.
  unfold style_del. destruct sd as [|d].
  - eapply keeps_bind; [apply keeps_get |]. intros e He.
    destruct (Element._style e !! key); [| apply keeps_raise].
    eapply keeps_bind; [by apply (keeps_put _ _ _ (λ _, True)) |]. intros _ _.
    by apply keeps_ret.
  - destruct (d !! key); [by apply keeps_ret | apply keeps_raise].
Qed.

Lemma keeps_style_update st0 self sd other :
  keeps st0 (style_update self sd other) (λ _, True).
Proof.
  unfold style_update. destruct sd as [|d]; [| by apply keeps_ret].
  eapply keeps_bind; [apply keeps_get |]. intros e He.
  eapply keeps_bind; [by apply (keeps_put _ _ _ (λ _, True)) |]. intros _ _.
  by apply keeps_ret.
Qed.

Lemma keeps_style st0 self add remove replace :
  keeps st0 (style self add remove replace) (λ _, True).
Proof.
  unfold style. cbn zeta.
  eapply keeps_bind; [apply keeps_lift |]. intros removed _.
  eapply (keeps_bind _ _ _ (λ _, True)).
  { apply keeps_for_each; [| done]. intros sd k _. apply keeps_style_del. }
  intros sd1 _. eapply keeps_bind; [apply keeps_lift |]. intros added _.
  eapply keeps_bind; [apply keeps_style_update |]. intros sd2 _.
  eapply keeps_bind; [apply keeps_lift |]. intros replaced _.
  eapply keeps_bind; [apply keeps_style_update |]. intros sd3 _.
  eapply keeps_bind; [apply keeps_get |]. intros e He.
  destruct sd3 as [|d]; [by apply keeps_ret |].
  case_decide; [| by apply keeps_ret].
  eapply keeps_bind; [by apply (keeps_put _ _ _ (λ _, True)) |]. intros _ _.
  eapply keeps_bind; [by apply (keeps_update _ _ (λ _, True)) |]. intros _ _.
  by apply keeps_ret.
Qed.

Lemma keeps_props lexer st0 self add remove :
  keeps st0 (props lexer self add remove) (λ _, True).
Proof.
  unfold props.
  eapply keeps_bind; [apply keeps_lift |]. intros removed _.
  eapply (keeps_bind _ _ _ (λ _, True)).
  { apply keeps_for_each; [| done]. intros b k _. unfold props_remove.
    eapply keeps_bind; [apply keeps_get |]. intros e He.
    destruct (Element._props e !! k); [| by apply keeps_ret].
    eapply keeps_bind; [by apply (keeps_put _ _ _ (λ _, True)) |]. intros _ _.
    by apply keeps_ret. }
  intros b1 _. eapply keeps_bind; [apply keeps_lift |]. intros added _.
  eapply (keeps_bind _ _ _ (λ _, True)).
  { apply keeps_for_each; [| done]. intros b kv _. unfold props_add.
    eapply keeps_bind; [apply keeps_get |]. intros e He.
    case_decide; [| by apply keeps_ret].
    eapply keeps_bind; [by apply (keeps_put _ _ _ (λ _, True)) |]. intros _ _.
    by apply keeps_ret. }
  intros b2 _. destruct b2; [| by apply keeps_ret].
  eapply keeps_bind; [by apply (keeps_update _ _ (λ _, True)) |]. intros _ _.
  by apply keeps_ret.
Qed.

Lemma keeps_on st0 self type handler args :
  keeps st0 (on self type handler args) (λ _, True).
Proof.
  unfold on. destruct handler; [| by apply keeps_ret].
  eapply keeps_bind; [apply keeps_get |]. intros e He.
  eapply keeps_bind; [by apply (keeps_put _ _ _ (λ _, True)) |]. intros _ _.
  by apply keeps_ret.
Qed.

Lemma well_formed_in_div : well_formed in_div.
Proof.
  unfold in_div, bind.
  rewrite (init_run_root (initial 7 true) "div" eq_refl).
  cbn [snd]. eapply well_formed_enter; [| | reflexivity].
  - assert (well_formed (__init__ "div" (initial 7 true)).2) as Hwf.
    { eapply (well_formed_init (initial 7 true) "div");
        [apply well_formed_initial | apply surjective_pairing]. }
    by rewrite (init_run_root (initial 7 true) "div" eq_refl) in Hwf.
  - unfold elems. cbn [client with_client Client.elements].
    rewrite lookup_insert_eq. by eexists.
Qed.

Lemma in_div_lookup : elems in_div !! 0 = Some (new_element "div" 0).
Proof. by vm_compute. Qed.

(** Construction keeps the states well formed: the state without elements
    is well formed, and [__init__] -- which returns the next id --,
    [__enter__] on a registered element and [__exit__] lead from well-formed
    states to well-formed states. *)
Theorem construction_keeps_well_formed st :
  well_formed st →
  (∀ tag o st',
      __init__ tag st = (o, st') →
      o = Return (Client.next_element_id (client st)) ∧ well_formed st')
  ∧ (∀ self o st',
       is_Some (elems st !! self) → __enter__ self st = (o, st') →
       o = Return self ∧ well_formed st')
  ∧ (∀ self o st', __exit__ self st = (o, st') → well_formed st')
  ∧ (∀ client_id running, well_formed (initial client_id running)).
Proof.
  intros Hwf. split_and!.
  - intros tag o st'. by apply well_formed_init.
  - intros self o st'. by apply well_formed_enter.
  - intros self o st'. by apply well_formed_exit.
  - apply well_formed_initial.
Qed.

Lemma construction_keeps_well_formed_witness :
  well_formed in_div
  ∧ ∀ o st', __init__ "span" in_div = (o, st') →
      o = Return (Client.next_element_id (client in_div)) ∧ well_formed st'.
Proof.
  split; [apply well_formed_in_div |].
  destruct (construction_keeps_well_formed in_div well_formed_in_div)
    as (Hinit & _).
  apply Hinit.
Defined.

(** The methods of an element keep the states well formed, whatever they
    return or raise: they change no slot, and neither the slot stack nor
    the id counter. *)
Theorem methods_keep_well_formed st self o st' :
  well_formed st →
  (∀ add remove replace,
      classes self add remove replace st = (o, st') → well_formed st')
  ∧ (∀ add remove replace,
       style self add remove replace st = (o, st') → well_formed st')
  ∧ (∀ lexer add remove,
       props lexer self add remove st = (o, st') → well_formed st')
  ∧ (∀ type handler args,
       on self type handler args st = (o, st') → well_formed st').
Proof.
  intros Hwf.
  assert (∀ (m : M nat), keeps st m (λ _, True) → m st = (o, st') →
            well_formed st') as Hkeep.
  { intros m Hm Hrun.
    destruct (Hm st o st' (same_structure_refl st) Hrun) as [Hst' _].
    by eapply well_formed_same_structure. }
  split_and!; intros *; apply Hkeep.
  - apply keeps_classes.
  - apply keeps_style.
  - apply keeps_props.
  - apply keeps_on.
Qed.

Lemma methods_keep_well_formed_witness :
  well_formed in_div
  ∧ well_formed (style 0 (Some "color:red") (Some "width:") None in_div).2.
Proof.
  split; [apply well_formed_in_div |].
  destruct (methods_keep_well_formed in_div 0
              (style 0 (Some "color:red") (Some "width:") None in_div).1
              (style 0 (Some "color:red") (Some "width:") None in_div).2
              well_formed_in_div) as (_ & Hstyle & _).
  apply (Hstyle (Some "color:red") (Some "width:") None).
  apply surjective_pairing.
Defined.

(** In a well-formed state the slots below every registered element form
    a tree. When the tree is no higher than the interpreter lets
    [collect_ids] descend, [update] on the element returns: it raises
    neither [KeyError] nor [RecursionError], leaves the elements alone, and
    creates one task if a loop is running and none otherwise; the same
    holds for [on_visibility_change]. When the tree is higher and a loop
    is running, [update] raises [RecursionError] and creates no task. *)
Theorem update_on_well_formed st self e :
  well_formed st →
  elems st !! self = Some e →
  ∃ t,
    owned_tree (elems st) self t
    ∧ slots_are_dicts (elems st)
    ∧ (height t ≤ S (recursion_depth st) →
       (∃ st',
           update self st = (Return (), st')
           ∧ elems st' = elems st
           ∧ dispatches st st' = (if loop st then 1 else 0))
       ∧ ∀ visible,
           ∃ st'', on_visibility_change self visible st = (Return (), st''))
    ∧ (S (recursion_depth st) < height t →
       loop st = true →
       update self st = (Raise RecursionError, st)).
Proof.
  intros Hwf He. destruct (well_formed_tree st Hwf self e He) as (t & Ht).
  exists t. split_and!.
  - done.
  - by destruct Hwf as (_ & _ & _ & _ & _ & Hdicts).
  - intros Hh. split.
    + exists (updated t st). split_and!.
      * by apply update_owned_tree.
      * apply elems_updated.
      * by apply dispatches_updated.
    + intros [|].
      * rewrite (visibility_show _ _ _ _ He Ht Hh). case_decide; by eexists.
      * rewrite (visibility_hide _ _ _ _ He Ht Hh). case_decide; by eexists.
  - intros Hdeep Hloop. by apply (update_too_deep st self t).
Qed.

Lemma in_div_depth : recursion_depth in_div = 1000.
Proof. by vm_compute. Qed.

Lemma update_on_well_formed_witness :
  well_formed in_div
  ∧ elems in_div !! 0 = Some (new_element "div" 0)
  ∧ ∃ t, owned_tree (elems in_div) 0 t ∧ slots_are_dicts (elems in_div).
Proof.
  split_and!; [apply well_formed_in_div | apply in_div_lookup |].
  destruct (update_on_well_formed in_div 0 (new_element "div" 0)
              well_formed_in_div in_div_lookup)
    as (t & Ht & Hdicts & _).
  exists t. split; [exact Ht | exact Hdicts].
Defined.

(** In a well-formed state the slots below a registered element form a
    tree, and when this tree is no higher than the interpreter lets
    [collect_ids] descend, [classes] on the element returns the element,
    whatever its arguments, leaves the state well formed, and creates a
    task exactly when the class list changed and a loop is running. *)
Theorem classes_on_well_formed st self e add remove replace :
  well_formed st →
  elems st !! self = Some e →
  ∃ t,
    owned_tree (elems st) self t
    ∧ (height t ≤ S (recursion_depth st) →
       ∃ st',
         classes self add remove replace st = (Return self, st')
         ∧ well_formed st'
         ∧ dispatches st st'
           = if decide (Element._classes e
                        = merged_classes (Element._classes e) add remove replace)
             then 0 else if loop st then 1 else 0).
Proof.
  intros Hwf He. destruct (well_formed_tree st Hwf self e He) as (t & Ht).
  exists t. split; [done |]. intros Hh.
  destruct (classes_spec st self e add remove replace t He Ht Hh)
    as (st' & Hrun & _ & _ & Hd).
  exists st'. split_and!; [done | | done].
  destruct (keeps_classes st self add remove replace st _ st'
              (same_structure_refl st) Hrun) as [Hst' _].
  by eapply well_formed_same_structure.
Qed.

Lemma classes_on_well_formed_witness :
  well_formed in_div
  ∧ elems in_div !! 0 = Some (new_element "div" 0)
  ∧ ∃ t, owned_tree (elems in_div) 0 t.
Proof.
  split_and!; [apply well_formed_in_div | apply in_div_lookup |].
  destruct (classes_on_well_formed in_div 0 (new_element "div" 0)
              (Some "a b") None None well_formed_in_div in_div_lookup)
    as (t & Ht & _).
  by exists t.
Defined.

(** ** Round trips *)

Lemma list_remove_snoc (x : string) (l : list string) :
  x ∉ l → list_remove x (l ++ [x]) = l.
Proof.
  induction l as [|y l IH]; intros Hx; simpl.
  - by rewrite decide_True.
  - apply not_elem_of_cons in Hx as [Hne Hx].
    rewrite decide_False by done. by rewrite IH.
Qed.

(** Hiding and showing an element again: when the class list did not have
    [hidden], [on_visibility_change(False)] followed by
    [on_visibility_change(True)] gives the class list back as it was, and
    each of the two calls creates a task if a loop is running. *)
Theorem hide_show_restores st self e t :
  elems st !! self = Some e →
  owned_tree (elems st) self t →
  height t ≤ S (recursion_depth st) →
  "hidden" ∉ Element._classes e →
  ∃ st1 st2,
    on_visibility_change self false st = (Return (), st1)
    ∧ on_visibility_change self true st1 = (Return (), st2)
    ∧ elems st2 = elems st
    ∧ dispatches st st2 = (if loop st then 2 else 0).
Proof.
  intros He Ht Hh Hnin.
  set (e1 := Element.with_classes (Element._classes e ++ ["hidden"]) e).
  set (st1 := updated t (set_element self e1 st)).
  assert (elems st1 !! self = Some e1) as He1.
  { unfold st1. rewrite elems_updated. apply lookup_set_element. }
  assert (owned_tree (elems st1) self t) as Ht1.
  { unfold st1. rewrite elems_updated.
    by apply (owned_tree_set_element st self self e e1 t). }
  assert (height t ≤ S (recursion_depth st1)) as Hh1.
  { unfold st1. by rewrite recursion_depth_updated. }
  exists st1. eexists. split_and!.
  - rewrite (visibility_hide _ _ _ _ He Ht Hh). by rewrite decide_False.
  - rewrite (visibility_show _ _ _ _ He1 Ht1 Hh1).
    rewrite decide_True; [done |]. simpl. apply elem_of_app. right. left.
  - rewrite elems_updated, elems_set_element. unfold st1.
    rewrite elems_updated, elems_set_element, insert_insert_eq.
    simpl. rewrite list_remove_snoc by done.
    change (Element.with_classes (Element._classes e) e1)
      with (Element.with_classes (Element._classes e) e).
    rewrite with_classes_same. by apply insert_id.
  - unfold dispatches. rewrite emitted_updated. simpl.
    unfold st1. rewrite emitted_updated, loop_updated. simpl.
    rewrite !length_app. destruct (loop st); simpl; lia.
Qed.

Lemma hide_show_restores_witness :
  elems (page true) !! 0 = Some page_div
  ∧ owned_tree (elems (page true)) 0 page_tree
  ∧ height page_tree ≤ S (recursion_depth (page true))
  ∧ ("hidden" ∉ Element._classes page_div)
  ∧ ∃ st1 st2,
      on_visibility_change 0 false (page true) = (Return (), st1)
      ∧ on_visibility_change 0 true st1 = (Return (), st2)
      ∧ elems st2 = elems (page true).
Proof.
  assert ("hidden" ∉ Element._classes page_div) as Hnin
    by apply not_elem_of_nil.
  split_and!; [apply page_div_lookup | apply page_owned_tree
              | apply page_height | exact Hnin |].
  destruct (hide_show_restores (page true) 0 page_div page_tree
              (page_div_lookup true) (page_owned_tree true) (page_height true)
              Hnin)
    as (st1 & st2 & H1 & H2 & Hels & _).
  exists st1, st2. split_and!; [exact H1 | exact H2 | exact Hels].
Defined.

Lemma filter_added_away (cur added : list string) :
  (∀ x, x ∈ added → x ∉ cur) →
  filter (λ c, c ∉ added) (cur ++ dedup_from cur added) = cur.
Proof.
  intros Hfresh. rewrite filter_app.
  assert (filter (λ c, c ∉ added) cur = cur) as ->.
  { assert (Forall (λ c, c ∉ added) cur) as Hall.
    { apply Forall_forall. intros c Hc Hin. by apply (Hfresh c). }
    clear Hfresh. induction Hall as [|c l Hc Hl IH]; [done |].
    rewrite filter_cons_True by done. by rewrite IH. }
  assert (filter (λ c, c ∉ added) (dedup_from cur added) = []) as ->.
  { assert (Forall (λ c, c ∈ added) (dedup_from cur added)) as Hall.
    { apply Forall_forall. by intros c [Hc _]%elem_of_dedup_from. }
    induction Hall as [|c l Hc Hl IH]; [done |].
    rewrite filter_cons_False by (by intros []). exact IH. }
  by rewrite app_nil_r.
Qed.

(** Adding classes and removing them again: when the class list has no
    duplicates and none of the tokens of [a], [classes(add=a)] followed by
    [classes(remove=a)] gives the class list back as it was. *)
Theorem classes_add_remove_restores st self e a o1 st1 o2 st2 :
  elems st !! self = Some e →
  NoDup (Element._classes e) →
  (∀ x, x ∈ Str.split a → x ∉ Element._classes e) →
  classes self (Some a) None None st = (o1, st1) →
  classes self None (Some a) None st1 = (o2, st2) →
  ∃ e2, elems st2 !! self = Some e2
    ∧ Element._classes e2 = Element._classes e.
Proof.
  intros He Hnd Hfresh Hrun1 Hrun2.
  pose proof (classes_result _ _ _ _ _ _ _ _ He Hrun1) as He1.
  pose proof (classes_result _ _ _ _ _ _ _ _ He1 Hrun2) as He2.
  eexists. split; [exact He2 |]. simpl.
  rewrite merged_classes_add. unfold merged_classes, dedup. simpl.
  rewrite !app_nil_r, dedup_from_app, app_nil_r.
  rewrite (dedup_from_NoDup [] (Element._classes e))
    by (done || intros; apply not_elem_of_nil).
  rewrite filter_added_away by done.
  apply dedup_from_NoDup; [done | intros; apply not_elem_of_nil].
Qed.

Lemma classes_add_remove_restores_witness :
  elems (page true) !! 0 = Some page_div
  ∧ NoDup (Element._classes page_div)
  ∧ ∃ e2,
      elems (classes 0 None (Some "x y") None
               (classes 0 (Some "x y") None None (page true)).2).2 !! 0
      = Some e2
      ∧ Element._classes e2 = Element._classes page_div.
Proof.
  split_and!; [apply page_div_lookup | apply NoDup_nil_2 |].
  apply (classes_add_remove_restores (page true) 0 page_div "x y"
           (classes 0 (Some "x y") None None (page true)).1
           (classes 0 (Some "x y") None None (page true)).2
           (classes 0 None (Some "x y") None
              (classes 0 (Some "x y") None None (page true)).2).1
           (classes 0 None (Some "x y") None
              (classes 0 (Some "x y") None None (page true)).2).2
           (page_div_lookup true) (NoDup_nil_2 (A := string))).
  - intros x _. apply not_elem_of_nil.
  - apply surjective_pairing.
  - apply surjective_pairing.
Defined.

(** ** More on [props] *)

Section props_more.
Variable lexer : string → outcome (list string).

(** [props(add, remove)] twice, for strings that parse and name no key
    both to add and to remove: whatever the first call did, the second
    changes nothing and creates no task. *)
Theorem props_idempotent st self e add remove rm ad o1 st1 :
  elems st !! self = Some e →
  parse_props lexer remove = Return rm →
  parse_props lexer add = Return ad →
  (∀ k, k ∈ Dict.keys rm → k ∉ Dict.keys ad) →
  props lexer self add remove st = (o1, st1) →
  props lexer self add remove st1 = (Return self, st1).
Proof.
  intros He Hrm Had Hapart Hrun.
  set (removed := del_keys (Dict.keys rm) (Element._props e)).
  set (e2 := Element.with_props (overlay ad removed) e).
  assert (elems st1 !! self = Some e2) as He2.
  { destruct (props_run lexer st self e add remove rm ad He Hrm Had) as (b & _ & Heq).
    rewrite Heq in Hrun. destruct b.
    - destruct (update _ _) as [[[]|x] st'] eqn:Hup; injection Hrun as <- <-;
        rewrite (update_elems _ _ _ _ Hup); apply lookup_set_element.
    - injection Hrun as <- <-. apply lookup_set_element. }
  assert (del_keys (Dict.keys rm) (Element._props e2) = Element._props e2)
    as Hgone.
  { apply del_keys_absent. intros k Hk. simpl.
    rewrite overlay_lookup_other by (by apply Hapart).
    by apply del_keys_lookup_None. }
  assert (∀ kv, kv ∈ ad → Element._props e2 !! kv.1 = Some kv.2) as Hthere.
  { intros [k v] Hin. simpl. apply overlay_lookup_elem_of; [| done].
    by eapply parse_props_NoDup. }
  destruct (props_run lexer st1 self e2 add remove rm ad He2 Hrm Had)
    as (b & Hb & Heq).
  rewrite Heq. destruct b.
  - destruct (proj1 Hb eq_refl) as [(k & Hk & Hsome)|(kv & Hin & Hne)].
    + exfalso. simpl in Hsome.
      rewrite overlay_lookup_other in Hsome by (by apply Hapart).
      unfold removed in Hsome.
      rewrite del_keys_lookup_None in Hsome by done. by destruct Hsome.
    + exfalso. rewrite Hgone in Hne. by apply Hne, Hthere.
  - rewrite Hgone, (overlay_agree _ _ Hthere).
    by rewrite with_props_same, set_element_same.
Qed.

End props_more.

Lemma props_idempotent_witness :
  elems (page true) !! 0 = Some page_div
  ∧ parse_props blank_lexer (Some "flat") = Return [("flat", PTrue)]
  ∧ parse_props blank_lexer (Some "dense label=hi")
    = Return [("dense", PTrue); ("label", PStr "hi")]
  ∧ ∀ o1 st1,
      props blank_lexer 0 (Some "dense label=hi") (Some "flat") (page true)
      = (o1, st1) →
      props blank_lexer 0 (Some "dense label=hi") (Some "flat") st1
      = (Return 0, st1).
Proof.
  split_and!; [apply page_div_lookup | by vm_compute | by vm_compute |].
  intros o1 st1.
  apply (props_idempotent blank_lexer (page true) 0 page_div
           (Some "dense label=hi") (Some "flat")
           [("flat", PTrue)] [("dense", PTrue); ("label", PStr "hi")] o1 st1
           (page_div_lookup true) eq_refl eq_refl).
  intros k Hk. apply list_elem_of_singleton in Hk as ->.
  apply (bool_decide_unpack _). by vm_compute.
Defined.
